(** * RAGFlow plugin: streaming decoder, conversation controller, transcript writer

    A shallow embedding of the parts of the plugin that decode the
    chat-completion stream ([processStreamingResponse] and its enclosing
    [sendOpenAICompatibleMessage]), mirror deltas into the message list
    ([sendMessage], [updateMessageContent]) and write the transcript
    ([formatConversationAsMarkdown]).

    JavaScript strings are sequences of UTF-16 code units, bytes are
    [Byte.byte], JSON values are an inductive type, exceptions are explicit
    results. *)

From Stdlib Require Import Strings.String Strings.Ascii Strings.Byte.
From Stdlib Require Import NArith PeanoNat Bool Lia List.
Import ListNotations.

Set Implicit Arguments.
Set Warnings "-register-all".

(* ================================================================= *)
(** ** JavaScript strings *)

Module JS.

Definition jsstring := list N.

(** A literal of the source text, as code units (ASCII only). *)
Definition str (s : string) : jsstring :=
  map (fun a => N.of_nat (nat_of_ascii a)) (list_ascii_of_string s).

Fixpoint eqb (a b : jsstring) : bool :=
  match a, b with
  | [], [] => true
  | x :: a', y :: b' => N.eqb x y && eqb a' b'
  | _, _ => false
  end.

(** [s.startsWith(p)] *)
Fixpoint startsWith (p s : jsstring) : bool :=
  match p, s with
  | [], _ => true
  | x :: p', y :: s' => N.eqb x y && startsWith p' s'
  | _ :: _, [] => false
  end.

(** WhiteSpace and LineTerminator code units, the set [trim] and the
    regular-expression class [\s] strip. *)
Definition is_space (c : N) : bool :=
  ((9 <=? c) && (c <=? 13) || (c =? 32) || (c =? 160) || (c =? 5760)
   || (8192 <=? c) && (c <=? 8202) || (c =? 8232) || (c =? 8233)
   || (c =? 8239) || (c =? 8287) || (c =? 12288) || (c =? 65279))%N.

Fixpoint trimStart (s : jsstring) : jsstring :=
  match s with
  | c :: s' => if is_space c then trimStart s' else s
  | [] => []
  end.

Definition trimEnd (s : jsstring) : jsstring := rev (trimStart (rev s)).

(** [s.trim()] *)
Definition trim (s : jsstring) : jsstring := trimEnd (trimStart s).

(** [s.split(sep)] for a one-unit separator: first segment and the others. *)
Fixpoint split_aux (sep : N) (s : jsstring) : jsstring * list jsstring :=
  match s with
  | [] => ([], [])
  | c :: s' =>
      let (h, t) := split_aux sep s' in
      if N.eqb c sep then ([], h :: t) else (c :: h, t)
  end.

Definition split (sep : N) (s : jsstring) : list jsstring :=
  let (h, t) := split_aux sep s in h :: t.

(** [a.join(sep)] *)
Fixpoint join (sep : jsstring) (l : list jsstring) : jsstring :=
  match l with
  | [] => []
  | [x] => x
  | x :: l' => x ++ sep ++ join sep l'
  end.

(** [s.replace(pat, rep)] with a string pattern: the first occurrence only. *)
Fixpoint replace_first (pat rep s : jsstring) : jsstring :=
  if startsWith pat s then rep ++ skipn (length pat) s
  else match s with
       | [] => []
       | c :: s' => c :: replace_first pat rep s'
       end.

Definition LF : N := 10.

(* ----------------------------------------------------------------- *)
(** *** Exceptions and results *)

Inductive exn :=
| Error (message : jsstring)        (* [throw new Error(...)], a rejected read *)
| TypeError (message : jsstring)    (* raised by the engine *)
| SyntaxError (message : jsstring). (* raised by [JSON.parse] *)

Definition message (e : exn) : jsstring :=
  match e with Error m | TypeError m | SyntaxError m => m end.

Inductive res (A : Type) :=
| Ok (a : A)
| Throw (e : exn).
Arguments Ok {A} a.
Arguments Throw {A} e.

Definition bind {A B} (r : res A) (k : A -> res B) : res B :=
  match r with Ok a => k a | Throw e => Throw e end.

Definition is_ok {A} (r : res A) : bool :=
  match r with Ok _ => true | Throw _ => false end.

(* ----------------------------------------------------------------- *)
(** *** JSON values *)

(** What [JSON.parse] can produce.  A number is carried by the text
    [Number.prototype.toString] renders it with ("0" for both zeroes), an
    object by its own properties in insertion order. *)
Inductive json :=
| JNull
| JBool (b : bool)
| JNum (repr : jsstring)
| JStr (s : jsstring)
| JArr (elems : list json)
| JObj (props : list (jsstring * json)).

(** A value read from a property: [None] is [undefined]. *)
Definition value := option json.

Fixpoint lookup (k : jsstring) (props : list (jsstring * json)) : value :=
  match props with
  | [] => None
  | (k', v) :: ps => if eqb k k' then Some v else lookup k ps
  end.

(** ToBoolean *)
Definition truthy (v : value) : bool :=
  match v with
  | None | Some JNull => false
  | Some (JBool b) => b
  | Some (JNum r) => negb (eqb r (str "0"))
  | Some (JStr s) => match s with [] => false | _ => true end
  | Some (JArr _) | Some (JObj _) => true
  end.

(** [v.k] for a property name [k] that no built-in prototype defines
    ([choices], [delta], [content], [message], [code]): only an object's own
    property can answer; reading from [null] or [undefined] throws. *)
Definition get (v : value) (k : jsstring) : res value :=
  match v with
  | None | Some JNull =>
      Throw (TypeError (str "Cannot read properties of null or undefined"))
  | Some (JObj ps) => Ok (lookup k ps)
  | Some _ => Ok None
  end.

(** [v[0]] *)
Definition get0 (v : value) : res value :=
  match v with
  | None | Some JNull =>
      Throw (TypeError (str "Cannot read properties of null or undefined"))
  | Some (JArr l) => Ok (nth_error l 0)
  | Some (JStr s) => Ok (match s with c :: _ => Some (JStr [c]) | [] => None end)
  | Some (JObj ps) => Ok (lookup (str "0") ps)
  | Some _ => Ok None
  end.

(** ToString of a JSON value, as string concatenation and template
    literals apply it.  Arrays join their elements with a comma ([null]
    prints empty); a plain object prints as [[object Object]] unless it
    shadows [toString] with a (necessarily non-callable) own property, in
    which case the conversion throws. *)
Fixpoint ToString (v : json) : res jsstring :=
  match v with
  | JNull => Ok (str "null")
  | JBool true => Ok (str "true")
  | JBool false => Ok (str "false")
  | JNum r => Ok r
  | JStr s => Ok s
  | JArr l =>
      (fix elems (l : list json) : res jsstring :=
         match l with
         | [] => Ok []
         | x :: l' =>
             bind (match x with JNull => Ok [] | _ => ToString x end) (fun sx =>
             match l' with
             | [] => Ok sx
             | _ => bind (elems l') (fun sl => Ok (sx ++ str "," ++ sl))
             end)
         end) l
  | JObj ps =>
      match lookup (str "toString") ps with
      | Some _ => Throw (TypeError (str "Cannot convert object to primitive value"))
      | None => Ok (str "[object Object]")
      end
  end.

Definition ToString_value (v : value) : res jsstring :=
  match v with
  | None => Ok (str "undefined")
  | Some j => ToString j
  end.

End JS.

(* ================================================================= *)
(** ** [TextDecoder('utf-8')] *)

(** The platform's decoder, after the Encoding Standard: a state machine
    fed one byte at a time.  [decode(value, { stream: true })] feeds the
    bytes of [value] and keeps the state for the next call; the decoder is
    not fatal (an ill-formed sequence yields U+FFFD) and drops a leading
    byte-order mark. *)
Module TextDecoder.
Import JS.
Local Open Scope N_scope.

Record utf8 := {
  code_point : N;
  bytes_seen : N;
  bytes_needed : N;
  lower_boundary : N;
  upper_boundary : N
}.

Definition utf8_init : utf8 :=
  {| code_point := 0; bytes_seen := 0; bytes_needed := 0;
     lower_boundary := 0x80; upper_boundary := 0xBF |}.

Definition between (lo hi b : N) : bool := ((lo <=? b) && (b <=? hi))%N.

(** A byte met while no sequence is open. *)
Definition utf8_lead (b : N) : utf8 * list N :=
  if between 0x00 0x7F b then (utf8_init, [b])
  else if between 0xC2 0xDF b then
    ({| code_point := N.land b 0x1F; bytes_seen := 0; bytes_needed := 1;
        lower_boundary := 0x80; upper_boundary := 0xBF |}, [])
  else if between 0xE0 0xEF b then
    ({| code_point := N.land b 0xF; bytes_seen := 0; bytes_needed := 2;
        lower_boundary := if (b =? 0xE0)%N then 0xA0 else 0x80;
        upper_boundary := if (b =? 0xED)%N then 0x9F else 0xBF |}, [])
  else if between 0xF0 0xF4 b then
    ({| code_point := N.land b 0x7; bytes_seen := 0; bytes_needed := 3;
        lower_boundary := if (b =? 0xF0)%N then 0x90 else 0x80;
        upper_boundary := if (b =? 0xF4)%N then 0x8F else 0xBF |}, [])
  else (utf8_init, [0xFFFD]).

(** One byte through the UTF-8 decoder: the new state and the code points
    emitted.  A byte that cannot continue the open sequence closes it with
    U+FFFD and is then read again as a lead byte. *)
Definition utf8_handler (st : utf8) (b : N) : utf8 * list N :=
  if (bytes_needed st =? 0)%N then utf8_lead b
  else if negb (between (lower_boundary st) (upper_boundary st) b) then
    let (st', out) := utf8_lead b in (st', 0xFFFD :: out)
  else
    let cp := N.lor (N.shiftl (code_point st) 6) (N.land b 0x3F) in
    let seen := (bytes_seen st + 1)%N in
    if (seen =? bytes_needed st)%N then (utf8_init, [cp])
    else ({| code_point := cp; bytes_seen := seen;
             bytes_needed := bytes_needed st;
             lower_boundary := 0x80; upper_boundary := 0xBF |}, []).

(** A code point as UTF-16 code units. *)
Definition utf16 (cp : N) : jsstring :=
  if (cp <? 0x10000)%N then [cp]
  else [ (0xD800 + N.shiftr (cp - 0x10000) 10)%N;
         (0xDC00 + N.land (cp - 0x10000) 0x3FF)%N ].

Record t := { dec : utf8; bom_seen : bool }.

Definition create : t := {| dec := utf8_init; bom_seen := false |}.

(** Serialising emitted code points: the first one of the stream is dropped
    when it is U+FEFF. *)
Fixpoint serialize (seen : bool) (cps : list N) : bool * jsstring :=
  match cps with
  | [] => (seen, [])
  | cp :: cps' =>
      let (seen', out) := serialize true cps' in
      if negb seen && (cp =? 0xFEFF)%N then (seen', out)
      else (seen', utf16 cp ++ out)
  end.

Definition feed (d : t) (b : byte) : t * jsstring :=
  let (u, cps) := utf8_handler (dec d) (Byte.to_N b) in
  let (seen, out) := serialize (bom_seen d) cps in
  ({| dec := u; bom_seen := seen |}, out).

(** [decoder.decode(value, { stream: true })] *)
Fixpoint decode (d : t) (value : list byte) : t * jsstring :=
  match value with
  | [] => (d, [])
  | b :: bs =>
      let (d1, o1) := feed d b in
      let (d2, o2) := decode d1 bs in
      (d2, o1 ++ o2)
  end.

End TextDecoder.

(* ================================================================= *)
(** ** The API client: [sendOpenAICompatibleMessage] *)

Module Api.
Import JS.

Declare Scope res_scope.
Notation "x <- c ;; k" := (bind c (fun x => k))
  (at level 61, c at next level, right associativity) : res_scope.
Local Open Scope res_scope.

(** One invocation [callback(chunk, done)].  In this module the callback
    returns from every call, as the one [sendMessage] passes does; the run
    with a callback that may throw is [Callback.processStreamingResponse]. *)
Inductive event := Call (chunk : value) (done : bool).

Definition is_final (e : event) : bool := let 'Call _ d := e in d.
Definition chunk_of (e : event) : value := let 'Call c _ := e in c.

Record StreamResult := {
  fullContent : value;
  sessionId : jsstring;
  reference : list json
}.

(** How the body's reader ends: [{ done: true }], or a rejected read. *)
Inductive stream_end := Closed | Aborted (e : exn).

(** What [fetchWithAuth] resolved with: a [Response] whose body is a
    [ReadableStream] (the reads it will yield), or any other value, seen
    through its JSON properties. *)
Inductive response :=
| Streaming (reads : list (list byte)) (ending : stream_end)
| Document (doc : json).

Section Engine.

(** [JSON.parse], and the test [Number(s) > 0] on a string: both belong to
    the engine. *)
Variable JSON_parse : jsstring -> res json.
Variable string_gt_zero : jsstring -> bool.

(** [v > 0] *)
Definition gt_zero (v : value) : res bool :=
  match v with
  | None | Some JNull => Ok false
  | Some (JBool b) => Ok b
  | Some (JNum r) => Ok (negb (eqb r (str "0")) && negb (startsWith (str "-") r))
  | Some (JStr s) => Ok (string_gt_zero s)
  | Some ((JArr _) as j) | Some ((JObj _) as j) =>
      s <- ToString j ;; Ok (string_gt_zero s)
  end.

(** [v.length > 0] *)
Definition length_gt_zero (v : value) : res bool :=
  match v with
  | None | Some JNull =>
      Throw (TypeError (str "Cannot read properties of null or undefined"))
  | Some (JArr l) => Ok (0 <? length l)%nat
  | Some (JStr s) => Ok (0 <? length s)%nat
  | Some (JObj ps) => gt_zero (lookup (str "length") ps)
  | Some _ => Ok false
  end.

Definition nonempty (s : jsstring) : bool :=
  match s with [] => false | _ => true end.

(** The guard [line.trim() && line.startsWith('data:')]. *)
Definition is_data_line (line : jsstring) : bool :=
  nonempty (trim line) && startsWith (str "data:") line.

(** The body of the [try] for one line, up to the test
    [delta && delta.content]: the content to deliver, if any. *)
Definition frame_content (line : jsstring) : res value :=
  let jsonStr := trim (replace_first (str "data:") [] line) in
  if eqb jsonStr (str "[DONE]") then Ok None
  else
    jsonData <- JSON_parse jsonStr ;;
    choices <- get (Some jsonData) (str "choices") ;;
    some <- (if truthy choices then length_gt_zero choices else Ok false) ;;
    if some : bool then
      first <- get0 choices ;;
      delta <- get first (str "delta") ;;
      if truthy delta then
        content <- get delta (str "content") ;;
        Ok (if truthy content then content else None)
      else Ok None
    else Ok None.

Record state := {
  buffer : jsstring;
  full : jsstring;          (* the local [fullContent] *)
  calls : list event
}.

(** [fullContent += delta.content; callback(delta.content, false);] *)
Definition deliver (st : state) (content : value) : res state :=
  text <- ToString_value content ;;
  Ok {| buffer := buffer st; full := full st ++ text;
        calls := calls st ++ [Call content false] |}.

Definition try_line (st : state) (line : jsstring) : res state :=
  content <- frame_content line ;;
  match content with
  | Some _ => deliver st content
  | None => Ok st
  end.

(** One iteration of the loop over complete lines: the [try] is inside the
    loop, so an exception ends this line only. *)
Definition process_line (st : state) (line : jsstring) : state :=
  if is_data_line line then
    match try_line st line with Ok st' => st' | Throw _ => st end
  else st.

(** The loop over the lines of the buffer left at the end of the stream:
    the [try] is around the loop, so an exception ends the loop. *)
Fixpoint process_rest (lines : list jsstring) (st : state) : state :=
  match lines with
  | [] => st
  | line :: ls =>
      if is_data_line line then
        match try_line st line with
        | Ok st' => process_rest ls st'
        | Throw _ => st
        end
      else process_rest ls st
  end.

Definition flush (st : state) : state :=
  if nonempty (trim (buffer st)) then process_rest (split LF (buffer st)) st
  else st.

Definition set_buffer (st : state) (b : jsstring) : state :=
  {| buffer := b; full := full st; calls := calls st |}.

Definition call (st : state) (e : event) : state :=
  {| buffer := buffer st; full := full st; calls := calls st ++ [e] |}.

(** The [while (true)] loop over [reader.read()]. *)
Fixpoint read_loop (decoder : TextDecoder.t) (st : state)
    (reads : list (list byte)) (ending : stream_end) : state * res unit :=
  match reads with
  | value :: reads' =>
      let (decoder', chunk) := TextDecoder.decode decoder value in
      let lines := split LF (buffer st ++ chunk) in
      let st1 := set_buffer st (last lines []) in
      let st2 := fold_left process_line (removelast lines) st1 in
      read_loop decoder' st2 reads' ending
  | [] =>
      match ending with
      | Closed => (call (flush st) (Call (Some (JStr [])) true), Ok tt)
      | Aborted e => (st, Throw e)
      end
  end.

Definition init : state := {| buffer := []; full := []; calls := [] |}.

(** The non-streaming branch. *)
Definition process_document (doc : json) : list event * res StreamResult :=
  match
    (choices <- get (Some doc) (str "choices") ;;
     match choices with
     | Some (JArr (firstChoice :: _)) =>
         msg <- get (Some firstChoice) (str "message") ;;
         if negb (truthy msg) then
           Throw (Error (str "Invalid choice format: missing message content"))
         else
           content <- get msg (str "content") ;;
           if negb (truthy content) then
             Throw (Error (str "Invalid choice format: missing message content"))
           else Ok content
     | _ => Throw (Error (str "Invalid response format: missing choices"))
     end)
  with
  | Ok answer =>
      ([Call answer true],
       Ok {| fullContent := answer; sessionId := []; reference := [] |})
  | Throw e => ([], Throw e)
  end.

(** The field [choices[0].delta.content] of a frame, read as data: present
    when [choices] is an array whose first element is an object with an
    object [delta] that has a [content]. *)
Definition delta_content (frame : json) : option json :=
  match frame with
  | JObj ps =>
      match lookup (str "choices") ps with
      | Some (JArr (JObj choice :: _)) =>
          match lookup (str "delta") choice with
          | Some (JObj delta) => lookup (str "content") delta
          | _ => None
          end
      | _ => None
      end
  | _ => None
  end.

(** The field [choices[0].message.content] of a completion document, read
    as data: present when [choices] is an array whose first element is an
    object with an object [message] that has a [content]. *)
Definition message_content (doc : json) : option json :=
  match doc with
  | JObj ps =>
      match lookup (str "choices") ps with
      | Some (JArr (JObj choice :: _)) =>
          match lookup (str "message") choice with
          | Some (JObj msg) => lookup (str "content") msg
          | _ => None
          end
      | _ => None
      end
  | _ => None
  end.

(** [processStreamingResponse(callback)] for a callback that returns from
    every call: the calls made to [callback], in order, and the outcome of
    the promise. *)
Definition processStreamingResponse (r : response)
  : list event * res StreamResult :=
  let (made, outcome) :=
    match r with
    | Streaming reads ending =>
        let (st, o) := read_loop TextDecoder.create init reads ending in
        (calls st,
         _ <- o ;;
         Ok {| fullContent := Some (JStr (full st));
               sessionId := []; reference := [] |})
    | Document doc => process_document doc
    end in
  match outcome with
  | Ok v => (made, Ok v)
  | Throw e =>
      (made ++ [Call (Some (JStr (str "Error: " ++ message e))) true], Throw e)
  end.

Record SendResult := {
  answer : jsstring;
  send_sessionId : jsstring;
  send_reference : list json;
  processStream : unit -> list event * res StreamResult
}.

(** [response.code !== 0] *)
Definition differs_from_zero (v : value) : bool :=
  match v with
  | Some (JNum r) => negb (eqb r (str "0"))
  | _ => true
  end.

(** The test [response.code && response.code !== 0 && response.message] and
    the error it raises; a [Response] object has neither property. *)
Definition check_error_format (r : response) : res unit :=
  match r with
  | Streaming _ _ => Ok tt
  | Document doc =>
      code <- get (Some doc) (str "code") ;;
      if truthy code && differs_from_zero code then
        msg <- get (Some doc) (str "message") ;;
        if truthy msg then
          m <- ToString_value msg ;;
          c <- ToString_value code ;;
          Throw (Error (str "RAGFlow API error: " ++ m
                          ++ str " (code: " ++ c ++ str ")"))
        else Ok tt
      else Ok tt
  end.

Definition response_truthy (r : response) : bool :=
  match r with
  | Streaming _ _ => true
  | Document doc => truthy (Some doc)
  end.

(** [sendOpenAICompatibleMessage(chatAssistantId, question)], given what the
    awaited [fetchWithAuth] call yields. *)
Definition sendOpenAICompatibleMessage (chatAssistantId question : jsstring)
    (fetched : res response) : res SendResult :=
  if negb (nonempty chatAssistantId) then
    Throw (Error (str "Chat assistant ID is required"))
  else if negb (nonempty (trim question)) then
    Throw (Error (str "Message cannot be empty"))
  else
    response <- fetched ;;
    if negb (response_truthy response) then
      Throw (Error (str "Empty response from RAGFlow API"))
    else
      _ <- check_error_format response ;;
      Ok {| answer := str "Streaming response...";
            send_sessionId := [];
            send_reference := [];
            processStream := fun _ => processStreamingResponse response |}.

(* ----------------------------------------------------------------- *)
(** *** The stream read line by line *)

(** What one line of the stream delivers: the content handed to the
    callback and the text appended to the answer; at most one. *)
Definition delivered (line : jsstring) : list (value * jsstring) :=
  if is_data_line line then
    match frame_content line with
    | Ok (Some c) =>
        match ToString c with
        | Ok text => [(Some c, text)]
        | Throw _ => []
        end
    | _ => []
    end
  else [].

Definition deltas (ds : list (value * jsstring)) : list event :=
  map (fun d => Call (fst d) false) ds.

Definition text_of (ds : list (value * jsstring)) : jsstring :=
  concat (map snd ds).

(** The state after the deliveries [ds]. *)
Definition add (st : state) (ds : list (value * jsstring)) : state :=
  {| buffer := buffer st;
     full := full st ++ text_of ds;
     calls := calls st ++ deltas ds |}.

(** The decoded text of the whole body and its lines. *)
Definition text_of_reads (reads : list (list byte)) : jsstring :=
  snd (TextDecoder.decode TextDecoder.create (concat reads)).

Definition lines_of (reads : list (list byte)) : list jsstring :=
  split LF (text_of_reads reads).

(** The final call of a stream that closed. *)
Definition completion : event := Call (Some (JStr [])) true.

(** The run of a stream that closed after delivering [ds]. *)
Definition streamed (ds : list (value * jsstring))
  : list event * res StreamResult :=
  (deltas ds ++ [completion],
   Ok {| fullContent := Some (JStr (text_of ds));
         sessionId := []; reference := [] |}).

(** The payload of a data line, as the loop extracts it. *)
Definition payload (line : jsstring) : jsstring :=
  trim (replace_first (str "data:") [] line).

(** A line without the data prefix, or whose payload is the sentinel. *)
Definition ignorable (line : jsstring) : bool :=
  negb (startsWith (str "data:") line) || eqb (payload line) (str "[DONE]").

(** The state once [reads] have been consumed, in closed form: every
    complete line of the text so far has been processed and the rest is
    buffered. *)
Definition after_reads (decoder : TextDecoder.t) (st : state)
    (reads : list (list byte)) : state :=
  let text := snd (TextDecoder.decode decoder (concat reads)) in
  let lines := split LF (buffer st ++ text) in
  add (set_buffer st (last lines [])) (flat_map delivered (removelast lines)).

(** What the loop does when the reader ends. *)
Definition finish (st : state) (ending : stream_end) : state * res unit :=
  match ending with
  | Closed => (call (flush st) completion, Ok tt)
  | Aborted e => (st, Throw e)
  end.

End Engine.

End Api.

(* ================================================================= *)
(** ** A small engine to run the model on *)

(** [Api] is parametric in [JSON.parse].  To evaluate it on concrete
    streams this module gives a parser for a fragment of JSON: literals,
    integers of at most 15 digits, strings with the two-character escapes,
    arrays and objects.  Texts outside the fragment are rejected, so it
    agrees with [JSON.parse] on the fragment only. *)
Module MiniEngine.
Import JS.
Local Open Scope N_scope.

Definition is_json_ws (c : N) : bool :=
  (c =? 32) || (c =? 9) || (c =? 10) || (c =? 13).

Fixpoint skip_ws (s : jsstring) : jsstring :=
  match s with
  | c :: s' => if is_json_ws c then skip_ws s' else s
  | [] => []
  end.

Definition is_digit (c : N) : bool := (48 <=? c) && (c <=? 57).

Fixpoint span_digits (s : jsstring) : jsstring * jsstring :=
  match s with
  | c :: s' =>
      if is_digit c then let (d, r) := span_digits s' in (c :: d, r)
      else ([], s)
  | [] => ([], [])
  end.

Definition ends_number (rest : jsstring) : bool :=
  match rest with
  | c :: _ => negb ((c =? 46) || (c =? 101) || (c =? 69))   (* . e E *)
  | [] => true
  end.

Definition parse_number (s : jsstring) : option (json * jsstring) :=
  let (neg, s1) := match s with
                   | 45 :: s' => (true, s')
                   | _ => (false, s)
                   end in
  let (digits, rest) := span_digits s1 in
  match digits with
  | [] => None
  | 48 :: _ :: _ => None
  | _ =>
      if (length digits <=? 15)%nat && ends_number rest then
        Some (JNum (if neg && negb (eqb digits (str "0"))
                    then 45 :: digits else digits), rest)
      else None
  end.

Definition unescape (c : N) : option N :=
  match c with
  | 34 => Some 34 | 92 => Some 92 | 47 => Some 47
  | 98 => Some 8 | 102 => Some 12 | 110 => Some 10
  | 114 => Some 13 | 116 => Some 9
  | _ => None
  end.

(** After the opening quote: the string's units and what follows the
    closing quote. *)
Fixpoint parse_string (s : jsstring) : option (jsstring * jsstring) :=
  match s with
  | [] => None
  | 34 :: rest => Some ([], rest)
  | 92 :: c :: s' =>
      match unescape c, parse_string s' with
      | Some u, Some (body, rest) => Some (u :: body, rest)
      | _, _ => None
      end
  | c :: s' =>
      if (c <? 32) || (c =? 92) then None
      else match parse_string s' with
           | Some (body, rest) => Some (c :: body, rest)
           | None => None
           end
  end.

(** A repeated key keeps its place and takes the later value. *)
Fixpoint set_prop (k : jsstring) (v : json) (ps : list (jsstring * json))
  : list (jsstring * json) :=
  match ps with
  | [] => [(k, v)]
  | (k', v') :: ps' =>
      if eqb k k' then (k', v) :: ps' else (k', v') :: set_prop k v ps'
  end.

Fixpoint parse_value (fuel : nat) (s : jsstring) : option (json * jsstring) :=
  match fuel with
  | O => None
  | S fuel' =>
      match skip_ws s with
      | 110 :: 117 :: 108 :: 108 :: rest => Some (JNull, rest)
      | 116 :: 114 :: 117 :: 101 :: rest => Some (JBool true, rest)
      | 102 :: 97 :: 108 :: 115 :: 101 :: rest => Some (JBool false, rest)
      | 34 :: s' =>
          match parse_string s' with
          | Some (body, rest) => Some (JStr body, rest)
          | None => None
          end
      | 91 :: s' =>
          match skip_ws s' with
          | 93 :: rest => Some (JArr [], rest)
          | _ => match parse_elems fuel' s' with
                 | Some (l, rest) => Some (JArr l, rest)
                 | None => None
                 end
          end
      | 123 :: s' =>
          match skip_ws s' with
          | 125 :: rest => Some (JObj [], rest)
          | _ => match parse_members fuel' [] s' with
                 | Some (ps, rest) => Some (JObj ps, rest)
                 | None => None
                 end
          end
      | s' => parse_number s'
      end
  end
with parse_elems (fuel : nat) (s : jsstring)
  : option (list json * jsstring) :=
  match fuel with
  | O => None
  | S fuel' =>
      match parse_value fuel' s with
      | Some (v, rest) =>
          match skip_ws rest with
          | 93 :: rest' => Some ([v], rest')
          | 44 :: rest' =>
              match parse_elems fuel' rest' with
              | Some (l, rest'') => Some (v :: l, rest'')
              | None => None
              end
          | _ => None
          end
      | None => None
      end
  end
with parse_members (fuel : nat) (acc : list (jsstring * json)) (s : jsstring)
  : option (list (jsstring * json) * jsstring) :=
  match fuel with
  | O => None
  | S fuel' =>
      match skip_ws s with
      | 34 :: s' =>
          match parse_string s' with
          | Some (k, rest) =>
              match skip_ws rest with
              | 58 :: rest' =>
                  match parse_value fuel' rest' with
                  | Some (v, rest'') =>
                      let acc' := set_prop k v acc in
                      match skip_ws rest'' with
                      | 125 :: r => Some (acc', r)
                      | 44 :: r => parse_members fuel' acc' r
                      | _ => None
                      end
                  | None => None
                  end
              | _ => None
              end
          | None => None
          end
      | _ => None
      end
  end.

Definition JSON_parse (s : jsstring) : res json :=
  match parse_value (2 * length s + 4) s with
  | Some (v, rest) =>
      match skip_ws rest with
      | [] => Ok v
      | _ => Throw (SyntaxError (str "Unexpected non-whitespace character after JSON"))
      end
  | None => Throw (SyntaxError (str "Unexpected token in JSON"))
  end.

(** [Number(s) > 0] on plain decimal digit strings; [false] elsewhere. *)
Definition string_gt_zero (s : jsstring) : bool :=
  match span_digits s with
  | ((_ :: _) as d, []) => existsb (fun c => negb (c =? 48)) d
  | _ => false
  end.

(** A source text with apostrophes standing for quotation marks, as the
    bytes of the stream. *)
Definition bytes (s : string) : list byte :=
  map (fun b => match b with x27 => x22 | _ => b end) (list_byte_of_string s).

(** The same text as code units. *)
Definition text (s : string) : jsstring :=
  map (fun c => if N.eqb c 39 then 34 else c) (str s).

(** The same, ended by a line break. *)
Definition line (s : string) : list byte := bytes s ++ [x0a].

Definition run := Api.processStreamingResponse JSON_parse string_gt_zero.

Definition send := Api.sendOpenAICompatibleMessage JSON_parse string_gt_zero.

(** Two frames and the sentinel, one per read. *)
Definition hello_reads : list (list byte) :=
  [ line "data: {'choices':[{'delta':{'content':'Hel'}}]}";
    line "data: {'choices':[{'delta':{'content':'lo'}}]}";
    line "data: [DONE]" ].

(** A frame that does not parse between two that do; the last line has no
    line break and stays in the buffer until the stream closes. *)
Definition damaged_reads : list (list byte) :=
  [ line "data: {'choices':[{'delta':{'content':'Hel'}}]}";
    line "data: {bad json";
    bytes "data: {'choices':[{'delta':{'content':'lo'}}]}" ].

(** A frame cut in the middle of a line and of the two bytes of U+00E9. *)
Definition split_reads : list (list byte) :=
  [ bytes "data: {'choices':[{'del";
    bytes "ta':{'content':'caf" ++ [xc3];
    [xa9] ++ line "'}}]}" ].

Definition completion_of (content : json) : json :=
  JObj [(str "choices",
         JArr [JObj [(str "message", JObj [(str "content", content)])]])].

Definition hel : jsstring := text "data: {'choices':[{'delta':{'content':'Hel'}}]}".
Definition lo : jsstring := text "data: {'choices':[{'delta':{'content':'lo'}}]}".

Definition hello_result : list Api.event * res Api.StreamResult :=
  ([Api.Call (Some (JStr (str "Hel"))) false;
    Api.Call (Some (JStr (str "lo"))) false;
    Api.Call (Some (JStr [])) true],
   Ok {| Api.fullContent := Some (JStr (str "Hello"));
         Api.sessionId := []; Api.reference := [] |}).


Definition sent : res Api.SendResult :=
  send (str "assistant-1") (str "Hello?") (Ok (Api.Streaming hello_reads Api.Closed)).

End MiniEngine.

(* ================================================================= *)
(** ** The conversation: messages and the streaming callback *)

Module Conversation.
Import JS.

Inductive Role := user | assistant | system.

Record Reference := {
  ref_id : jsstring;
  ref_content : jsstring;
  document_id : jsstring;
  document_name : jsstring;
  dataset_id : jsstring
}.

(** An absent [isTemporary] reads as [false], an absent [id] as the empty
    string, an absent [reference] as [None]. *)
Record Message := {
  role : Role;
  content : jsstring;
  reference : option (list Reference);
  isTemporary : bool;
  id : jsstring
}.

Definition with_content (m : Message) (c : jsstring) : Message :=
  {| role := role m; content := c; reference := reference m;
     isTemporary := isTemporary m; id := id m |}.

(** [this.messages[this.messages.findIndex(msg => msg.id === messageId)].content = content] *)
Fixpoint set_content (messages : list Message) (messageId c : jsstring)
  : list Message :=
  match messages with
  | [] => []
  | m :: ms =>
      if eqb (id m) messageId then with_content m c :: ms
      else m :: set_content ms messageId c
  end.

(** [updateMessageContent(messageId, content)] on the message array (the
    display is not part of the model). *)
Definition updateMessageContent (messages : list Message)
    (messageId c : jsstring) : list Message :=
  match messageId with
  | [] => messages
  | _ => set_content messages messageId c
  end.

(** The closure [sendMessage] passes to [processStream]: its variable
    [fullAnswer], the message array, and the contents it has passed to
    [updateMessageContent] so far. *)
Record streaming := {
  fullAnswer : jsstring;
  messages : list Message;
  updates : list jsstring
}.

(** [(chunk, done) => { if (!done) { fullAnswer += chunk;
    this.updateMessageContent(responseMessageId, fullAnswer); } }] *)
Definition on_chunk (responseMessageId : jsstring) (st : streaming)
    (e : Api.event) : streaming :=
  let 'Api.Call chunk done := e in
  if done then st
  else match ToString_value chunk with
       | Ok text =>
           let answer := fullAnswer st ++ text in
           {| fullAnswer := answer;
              messages := updateMessageContent (messages st) responseMessageId answer;
              updates := updates st ++ [answer] |}
       | Throw _ => st
       end.

(** [let fullAnswer = ''; await response.processStream(...)] *)
Definition stream_into (responseMessageId : jsstring)
    (msgs : list Message) (calls : list Api.event) : streaming :=
  fold_left (on_chunk responseMessageId) calls
    {| fullAnswer := []; messages := msgs; updates := [] |}.

(** The texts of the non-final calls. *)
Definition chunk_texts (calls : list Api.event) : list jsstring :=
  flat_map (fun e =>
              let 'Api.Call chunk done := e in
              if done then []
              else match ToString_value chunk with
                   | Ok text => [text]
                   | Throw _ => []
                   end) calls.

(** The successive values of a text that grows by [texts]. *)
Fixpoint running (acc : jsstring) (texts : list jsstring) : list jsstring :=
  match texts with
  | [] => []
  | t :: ts => (acc ++ t) :: running (acc ++ t) ts
  end.

(** Each value has the one before it as a prefix. *)
Fixpoint grows (values : list jsstring) : bool :=
  match values with
  | a :: ((b :: _) as rest) => startsWith a b && grows rest
  | _ => true
  end.

End Conversation.

(* ================================================================= *)
(** ** Regular expressions of the transcript writer *)

(** The patterns [formatConversationAsMarkdown] uses are sequences of
    character classes, each taken once or repeated; matching backtracks as
    the engine does, longest repetition first (shortest first for [*?]). *)
Module Regex.
Import JS.

Inductive atom :=
| One (c : N -> bool)
| Star (c : N -> bool)
| LazyStar (c : N -> bool).

Definition pattern := list atom.

(** [c*] followed by what [k] matches: the length matched. *)
Fixpoint greedy (c : N -> bool) (k : jsstring -> option nat) (s : jsstring)
  : option nat :=
  match s with
  | x :: s' =>
      if c x then
        match greedy c k s' with
        | Some n => Some (S n)
        | None => k s
        end
      else k s
  | [] => k []
  end.

(** [c*?] followed by what [k] matches. *)
Fixpoint lazy (c : N -> bool) (k : jsstring -> option nat) (s : jsstring)
  : option nat :=
  match k s with
  | Some n => Some n
  | None =>
      match s with
      | x :: s' => if c x then option_map S (lazy c k s') else None
      | [] => None
      end
  end.

(** The length of the match of [p] at the start of [s], if there is one. *)
Fixpoint match_here (p : pattern) (s : jsstring) : option nat :=
  match p with
  | [] => Some 0
  | One c :: p' =>
      match s with
      | x :: s' => if c x then option_map S (match_here p' s') else None
      | [] => None
      end
  | Star c :: p' => greedy c (match_here p') s
  | LazyStar c :: p' => lazy c (match_here p') s
  end.

(** [s.replace(/p/g, rep)], where [rep] maps the matched text to its
    replacement; [skip] counts the units of the current match still to
    pass.  After an empty match the scan moves on by one unit. *)
Fixpoint replace_from (p : pattern) (rep : jsstring -> jsstring)
    (skip : nat) (s : jsstring) : jsstring :=
  match skip, s with
  | S k, _ :: s' => replace_from p rep k s'
  | S _, [] => []
  | O, [] => match match_here p [] with Some _ => rep [] | None => [] end
  | O, c :: s' =>
      match match_here p s with
      | Some (S n) => rep (firstn (S n) s) ++ replace_from p rep n s'
      | Some O => rep [] ++ c :: replace_from p rep 0 s'
      | None => c :: replace_from p rep 0 s'
      end
  end.

Definition replace_all (p : pattern) (rep : jsstring -> jsstring)
    (s : jsstring) : jsstring :=
  replace_from p rep 0 s.

(** Replacement by a fixed text without [$] patterns. *)
Definition by_text (t : jsstring) : jsstring -> jsstring := fun _ => t.

Definition remove_all (p : pattern) (s : jsstring) : jsstring :=
  replace_all p (by_text []) s.

(* Building blocks. *)

Definition lit (s : string) : pattern := map (fun ch => One (N.eqb ch)) (str s).

(** A letter under the [i] flag: itself or its upper-case form. *)
Definition letter_i (lower : N) : N -> bool :=
  fun c => N.eqb c lower || N.eqb c (lower - 32).

Definition lit_i (s : string) : pattern := map (fun ch => One (letter_i ch)) (str s).

Definition plus (c : N -> bool) : pattern := [One c; Star c].

Definition at_least (n : nat) (c : N -> bool) : pattern := repeat (One c) n ++ [Star c].

Definition any : N -> bool := fun _ => true.
Definition digit (c : N) : bool := ((48 <=? c) && (c <=? 57))%N.
Definition space : N -> bool := is_space.
Definition other_than (x : N) : N -> bool := fun c => negb (N.eqb c x).

End Regex.

(* ================================================================= *)
(** ** The transcript writer: [formatConversationAsMarkdown] *)

Module Markdown.
Import JS Regex Conversation.

(** [/<think>[\s\S]*?<\/think>/g] *)
Definition think_block : pattern := lit "<think>" ++ [LazyStar any] ++ lit "</think>".
(** [/<[^>]*>/g] *)
Definition html_tag : pattern := lit "<" ++ [Star (other_than 62)] ++ lit ">".
(** [/##\d+\$\$/g] *)
Definition hash_dollar_ref : pattern := lit "##" ++ plus digit ++ lit "$$".
(** [/\[\d+\]/g] *)
Definition bracket_ref : pattern := lit "[" ++ plus digit ++ lit "]".
(** [/\(ref:\s*\d+\)/gi] *)
Definition paren_ref : pattern :=
  lit "(" ++ lit_i "ref" ++ lit ":" ++ [Star space] ++ plus digit ++ lit ")".
(** [/\{\s*ref\s*:\s*\d+\s*\}/gi] *)
Definition brace_ref : pattern :=
  lit "{" ++ [Star space] ++ lit_i "ref" ++ [Star space] ++ lit ":"
    ++ [Star space] ++ plus digit ++ [Star space] ++ lit "}".
(** [/##\d+/g] *)
Definition hash_ref : pattern := lit "##" ++ plus digit.
(** [/\$\$/g] *)
Definition dollars : pattern := lit "$$".

Definition punctuation (c : N) : bool :=
  existsb (N.eqb c) (str ".,;:!?").

(** [/\s+([.,;:!?])/g], replaced by ['$1']: the punctuation mark, the last
    unit of the match. *)
Definition space_before_punctuation : pattern := plus space ++ [One punctuation].
Definition group1 (matched : jsstring) : jsstring :=
  match rev matched with
  | c :: _ => [c]
  | [] => []
  end.

(** [/\s{2,}/g] *)
Definition spaces : pattern := at_least 2 space.
(** [/\n{3,}/g] *)
Definition blank_lines : pattern := at_least 3 (N.eqb LF).

(** The passes that delete tags and reference markers. *)
Definition strip_markup (c : jsstring) : jsstring :=
  let c := remove_all think_block c in
  let c := remove_all html_tag c in
  let c := remove_all hash_dollar_ref c in
  let c := remove_all bracket_ref c in
  let c := remove_all paren_ref c in
  let c := remove_all brace_ref c in
  let c := remove_all hash_ref c in
  remove_all dollars c.

(** The passes that tidy white space. *)
Definition tidy (c : jsstring) : jsstring :=
  let c := trim c in
  let c := replace_all space_before_punctuation group1 c in
  let c := join [LF]
             (map (fun line => trim (replace_all spaces (by_text (str " ")) line))
                  (split LF c)) in
  replace_all blank_lines (by_text [LF; LF]) c.

(** The clean-up of a message's content. *)
Definition clean_content (c : jsstring) : jsstring := tidy (strip_markup c).

Definition or_else (a b : jsstring) : jsstring :=
  match a with [] => b | _ => a end.

Definition format_reference (r : Reference) : jsstring :=
  let refContent := trim (remove_all html_tag (ref_content r)) in
  str "- **" ++ or_else (document_name r) (str "Unknown document") ++ str "**: "
    ++ firstn 200 refContent
    ++ (if (200 <? length refContent)%nat then str "..." else [])
    ++ [LF].

Definition format_references (m : Message) : jsstring :=
  match reference m with
  | Some ((_ :: _) as refs) =>
      str "**References:**" ++ [LF; LF]
        ++ concat (map format_reference refs) ++ [LF]
  | _ => []
  end.

(** What one message adds to the document. *)
Definition format_message (m : Message) : jsstring :=
  if isTemporary m then []
  else
    let who := match role m with
               | user => str "**You**"
               | _ => str "**RAGFlow**"
               end in
    match clean_content (content m) with
    | [] => []
    | c => str "### " ++ who ++ [LF; LF] ++ c ++ [LF; LF] ++ format_references m
    end.

Record Settings := {
  chatAssistantName : jsstring;
  chatAssistantId : jsstring
}.

Definition header (settings : Settings) (date : jsstring) : jsstring :=
  str "# RAGFlow Conversation" ++ [LF; LF]
    ++ str "*Chat Assistant: "
    ++ or_else (chatAssistantName settings) (chatAssistantId settings)
    ++ str "*" ++ [LF; LF]
    ++ str "*Date: " ++ date ++ str "*" ++ [LF; LF]
    ++ str "---" ++ [LF; LF].

(** [formatConversationAsMarkdown(messages)], given the settings and the
    text of [new Date().toLocaleString()]. *)
Definition formatConversationAsMarkdown (settings : Settings)
    (date : jsstring) (messages : list Message) : jsstring :=
  fold_left (fun markdown m => markdown ++ format_message m) messages
    (header settings date).

(* ----------------------------------------------------------------- *)
(** *** Reference markers *)

(** Whether [p] matches somewhere in [s]. *)
Fixpoint occurs (p : pattern) (s : jsstring) : bool :=
  match match_here p s with
  | Some _ => true
  | None =>
      match s with
      | [] => false
      | _ :: s' => occurs p s'
      end
  end.

(** The six forms of reference markers. *)
Definition marker_patterns : list pattern :=
  [hash_dollar_ref; bracket_ref; paren_ref; brace_ref; hash_ref; dollars].

Definition marker_free (s : jsstring) : bool :=
  forallb (fun p => negb (occurs p s)) marker_patterns.

(** No two [$] in a row. *)
Fixpoint no_double_dollar (s : jsstring) : bool :=
  match s with
  | a :: ((b :: _) as s') =>
      negb (N.eqb a 36 && N.eqb b 36) && no_double_dollar s'
  | _ => true
  end.

(* ----------------------------------------------------------------- *)
(** *** Text in which no marker begins *)

(** [(ref: N)] with white space before its colon, which the white-space
    passes take out: [/\(ref\s*:\s*\d+\)/i]. *)
Definition loose_paren_ref : pattern :=
  lit "(" ++ lit_i "ref" ++ [Star space] ++ lit ":" ++ [Star space]
    ++ plus digit ++ lit ")".

(** What must not begin in the text beside the markers. *)
Definition watched : list pattern := marker_patterns ++ [loose_paren_ref].

(** The match of [p] at the start of a text fails within [v], whatever
    follows [v]: every way of matching meets in [v] a unit it does not
    take. *)
Fixpoint fails (p : pattern) (v : jsstring) : bool :=
  match p with
  | [] => false
  | One c :: p' =>
      match v with
      | x :: v' => if c x then fails p' v' else true
      | [] => false
      end
  | Star c :: p' =>
      (fix star (v : jsstring) : bool :=
         fails p' v
         && match v with
            | x :: v' => if c x then star v' else true
            | [] => false
            end) v
  | LazyStar _ :: _ => false
  end.

(** No marker begins at any position of [v], whatever follows [v]. *)
Fixpoint dead_ends (v : jsstring) : bool :=
  match v with
  | [] => true
  | _ :: v' => forallb (fun p => fails p v) watched && dead_ends v'
  end.

Definition starts_digit (s : jsstring) : bool :=
  match s with c :: _ => digit c | [] => false end.

(** The text that ends a content: no marker begins in it, as it stands.
    (Digits at its start belong to the text before it.) *)
Definition settled (tail : jsstring) : bool :=
  negb (starts_digit tail)
  && forallb (fun p => negb (occurs p tail)) watched.

(* ----------------------------------------------------------------- *)
(** *** Content with markers that are not nested *)

(** A content in which reference markers stand side by side with other
    text: a sequence of plain units, none of which can open a marker, of
    stretches of text that hold such units but in which no marker begins,
    and of whole markers of the six forms. *)
Inductive token :=
| Plain (c : N)
| HashDollarRef (ds : jsstring)                  (* ##N$$ *)
| BracketRef (ds : jsstring)                     (* [N] *)
| ParenRef (w ws ds : jsstring)                  (* (ref: N) *)
| BraceRef (ws1 w ws2 ws3 ds ws4 : jsstring)     (* { ref : N } *)
| HashRef (ds : jsstring)                        (* ##N *)
| Dollars                                        (* $$ *)
| Inert (w : jsstring).                          (* as in (France), C#. *)

Definition opener (c : N) : bool := existsb (N.eqb c) (str "<#$[({").

Definition number (ds : jsstring) : bool :=
  match ds with [] => false | _ => forallb digit ds end.

Definition blanks (ws : jsstring) : bool := forallb space ws.

Definition ref_word (w : jsstring) : bool :=
  match w with
  | [r; e; f] => letter_i 114 r && letter_i 101 e && letter_i 102 f
  | _ => false
  end.

Definition text (t : token) : jsstring :=
  match t with
  | Plain c => [c]
  | HashDollarRef ds => str "##" ++ ds ++ str "$$"
  | BracketRef ds => str "[" ++ ds ++ str "]"
  | ParenRef w ws ds => str "(" ++ w ++ str ":" ++ ws ++ ds ++ str ")"
  | BraceRef ws1 w ws2 ws3 ds ws4 =>
      str "{" ++ ws1 ++ w ++ ws2 ++ str ":" ++ ws3 ++ ds ++ ws4 ++ str "}"
  | HashRef ds => str "##" ++ ds
  | Dollars => str "$$"
  | Inert w => w
  end.

Definition well_formed (t : token) : bool :=
  match t with
  | Plain c => negb (opener c)
  | HashDollarRef ds | BracketRef ds | HashRef ds => number ds
  | ParenRef w ws ds => ref_word w && blanks ws && number ds
  | BraceRef ws1 w ws2 ws3 ds ws4 =>
      blanks ws1 && ref_word w && blanks ws2 && blanks ws3 && number ds
      && blanks ws4
  | Dollars => true
  | Inert w =>
      match w with
      | c :: _ => negb (digit c) && dead_ends w
      | [] => false
      end
  end.

Definition texts (ts : list token) : jsstring := flat_map text ts.

(** The content once its tags are deleted: what the passes for the markers
    find. *)
Definition without_tags (c : jsstring) : jsstring :=
  remove_all html_tag (remove_all think_block c).

(* ----------------------------------------------------------------- *)
(** *** Notions used to reason about the passes *)

(** The openers a token of each form holds. *)
Definition own_openers (t : token) : list N :=
  match t with
  | Plain _ => []
  | HashDollarRef _ => [35; 36]
  | BracketRef _ => [91]
  | ParenRef _ _ _ => [40]
  | BraceRef _ _ _ _ _ _ => [123]
  | HashRef _ => [35]
  | Dollars => [36]
  | Inert _ => [60; 35; 36; 91; 40; 123]
  end%N.

Definition tame (own : list N) (c : N) : Prop := opener c = false \/ In c own.

Definition wf (t : token) : Prop := well_formed t = true.

Definition is_hash_dollar t := match t with HashDollarRef _ => true | _ => false end.
Definition is_bracket t := match t with BracketRef _ => true | _ => false end.
Definition is_paren t := match t with ParenRef _ _ _ => true | _ => false end.
Definition is_brace t := match t with BraceRef _ _ _ _ _ _ => true | _ => false end.
Definition is_hash t := match t with HashRef _ => true | _ => false end.
Definition is_dollars t := match t with Dollars => true | _ => false end.

(** Once the [##N$$] markers are gone. *)
Definition later (t : token) : Prop := wf t /\ is_hash_dollar t = false.

Definition marker (t : token) : bool :=
  match t with Plain _ | Inert _ => false | _ => true end.

Definition starts_dollar (s : jsstring) : bool :=
  match s with c :: _ => N.eqb c 36 | [] => false end.

(** White space may be taken out where white space or nothing stands
    before it ([b]), or where white space, a punctuation mark or nothing
    comes after it in what is kept. *)
Definition droppable (b : bool) (t : jsstring) : bool :=
  b || match t with
       | y :: _ => is_space y || punctuation y
       | [] => true
       end.

(** [tidied b s t]: [t] is [s] with some of its white space taken out or
    changed for other white space, as the white-space passes do; [b] tells
    that white space, or nothing, stands before. *)
Inductive tidied : bool -> jsstring -> jsstring -> Prop :=
| tidied_nil b : tidied b [] []
| tidied_keep b c s t :
    tidied (is_space c) s t -> tidied b (c :: s) (c :: t)
| tidied_swap b w w' s t :
    is_space w = true -> is_space w' = true ->
    tidied true s t -> tidied b (w :: s) (w' :: t)
| tidied_drop b w s t :
    is_space w = true -> droppable b t = true ->
    tidied b s t -> tidied b (w :: s) t.

(** A class of units that are neither white space nor punctuation
    marks. *)
Definition firm (c : N -> bool) : Prop :=
  forall x, c x = true -> is_space x = false /\ punctuation x = false.

(** The rest of a pattern that tidying cannot bring into being: a
    punctuation mark is taken only after [\s*]. *)
Inductive steady : pattern -> Prop :=
| steady_nil : steady []
| steady_one c p : firm c -> steady p -> steady (One c :: p)
| steady_star c p : firm c -> steady p -> steady (Star c :: p)
| steady_gap c p :
    (forall x, c x = true -> is_space x = false) ->
    steady p -> steady (Star space :: One c :: p).

Definition stable (p : pattern) : Prop :=
  exists c p', p = One c :: p'
               /\ (forall x, c x = true -> is_space x = false)
               /\ steady p'.

(* Sample data. *)

Definition demo_settings : Settings :=
  {| chatAssistantName := str "Library"; chatAssistantId := str "a1" |}.

Definition demo_date : jsstring := str "11/2/2026, 9:00:00 AM".

Definition reply (c : jsstring) (temporary : bool) : Message :=
  {| role := assistant; content := c; reference := None;
     isTemporary := temporary; id := str "msg_1" |}.

(** [Cited [12] and {ref: 3}.] *)
Definition cited : list token :=
  map Plain (str "Cited ") ++ [BracketRef (str "12")]
    ++ map Plain (str " and ") ++ [BraceRef [] (str "ref") [] (str " ") (str "3") []]
    ++ [Plain 46].

(** A heading, then [<b>Paris</b> (France) is the capital [1]. I like C#],
    and what is left of it without its tags. *)
Definition paris : jsstring :=
  str "## 1. Paris" ++ [LF]
    ++ str "<b>Paris</b> (France) is the capital [1]. I like C#".

Definition paris_tokens : list token :=
  [Inert (str "## ")] ++ map Plain (str "1. Paris") ++ [Plain LF]
    ++ map Plain (str "Paris ") ++ [Inert (str "(F")]
    ++ map Plain (str "rance) is the capital ") ++ [BracketRef (str "1")]
    ++ map Plain (str ". I like C").

Definition paris_tail : jsstring := str "#".

End Markdown.

(* ================================================================= *)
(** ** A callback that may throw *)

(** [Api.processStreamingResponse] is the run with a callback that returns
    from every call.  Here the callback is any function: what it does at a
    call may depend on the call and on the calls made before it, and it
    either returns or throws.  A call that throws has still been made.
    The deltas are called inside the [try] of their line, the final calls
    inside the [try] of the whole function, whose [catch] reports the
    error to the callback in one more final call and throws. *)
Module Callback.
Import JS Api.
Local Open Scope res_scope.

Section Engine.

Variable JSON_parse : jsstring -> res json.
Variable string_gt_zero : jsstring -> bool.

(** The callback: [throws made e] is [None] when the call [e], made after
    the calls [made], returns, and the exception when it throws. *)
Variable throws : list event -> event -> option exn.

(** [callback(chunk, done)] *)
Definition invoke (st : state) (e : event) : state * res unit :=
  (call st e,
   match throws (calls st) e with
   | Some x => Throw x
   | None => Ok tt
   end).

(** [fullContent += delta.content; callback(delta.content, false);] *)
Definition deliver (st : state) (content : value) : state * res unit :=
  match ToString_value content with
  | Ok text =>
      invoke {| buffer := buffer st; full := full st ++ text;
                calls := calls st |}
        (Call content false)
  | Throw e => (st, Throw e)
  end.

(** The body of the [try] for one line: the state it leaves and whether
    it threw. *)
Definition try_line (st : state) (line : jsstring) : state * res unit :=
  match frame_content JSON_parse string_gt_zero line with
  | Ok (Some c) => deliver st (Some c)
  | Ok None => (st, Ok tt)
  | Throw e => (st, Throw e)
  end.

(** One iteration of the loop over complete lines: the [catch] of the line
    takes whatever was thrown, by the callback too. *)
Definition process_line (st : state) (line : jsstring) : state :=
  if is_data_line line then fst (try_line st line) else st.

(** The loop over the lines of the buffer left at the end of the stream:
    the [try] is around the loop, so an exception ends the loop. *)
Fixpoint process_rest (lines : list jsstring) (st : state) : state :=
  match lines with
  | [] => st
  | line :: ls =>
      if is_data_line line then
        let (st', thrown) := try_line st line in
        match thrown with
        | Ok _ => process_rest ls st'
        | Throw _ => st'
        end
      else process_rest ls st
  end.

Definition flush (st : state) : state :=
  if nonempty (trim (buffer st)) then process_rest (split LF (buffer st)) st
  else st.

(** The [while (true)] loop over [reader.read()]; [callback('', true)] is
    called when the reader is done. *)
Fixpoint read_loop (decoder : TextDecoder.t) (st : state)
    (reads : list (list byte)) (ending : stream_end) : state * res unit :=
  match reads with
  | value :: reads' =>
      let (decoder', chunk) := TextDecoder.decode decoder value in
      let lines := split LF (buffer st ++ chunk) in
      let st1 := set_buffer st (last lines []) in
      let st2 := fold_left process_line (removelast lines) st1 in
      read_loop decoder' st2 reads' ending
  | [] =>
      match ending with
      | Closed => invoke (flush st) (Call (Some (JStr [])) true)
      | Aborted e => (st, Throw e)
      end
  end.

(** The non-streaming branch; [callback(answer, true)] is its one call. *)
Definition process_document (doc : json) : list event * res StreamResult :=
  match
    (choices <- get (Some doc) (str "choices") ;;
     match choices with
     | Some (JArr (firstChoice :: _)) =>
         msg <- get (Some firstChoice) (str "message") ;;
         if negb (truthy msg) then
           Throw (Error (str "Invalid choice format: missing message content"))
         else
           content <- get msg (str "content") ;;
           if negb (truthy content) then
             Throw (Error (str "Invalid choice format: missing message content"))
           else Ok content
     | _ => Throw (Error (str "Invalid response format: missing choices"))
     end)
  with
  | Ok answer =>
      ([Call answer true],
       match throws [] (Call answer true) with
       | Some x => Throw x
       | None => Ok {| fullContent := answer; sessionId := []; reference := [] |}
       end)
  | Throw e => ([], Throw e)
  end.

(** The error report of the [catch]: [callback(`Error: ${error.message}`,
    true)]. *)
Definition report (e : exn) : event :=
  Call (Some (JStr (str "Error: " ++ message e))) true.

(** The [catch], after the calls [made]: the callback is called once more;
    if that call throws, its exception is the one the promise is rejected
    with. *)
Definition caught (made : list event) (e : exn) : list event * res StreamResult :=
  (made ++ [report e],
   match throws made (report e) with
   | Some x => Throw x
   | None => Throw e
   end).

(** [processStreamingResponse(callback)]: the calls made to [callback], in
    order, and the outcome of the promise. *)
Definition processStreamingResponse (r : response)
  : list event * res StreamResult :=
  let (made, outcome) :=
    match r with
    | Streaming reads ending =>
        let (st, o) := read_loop TextDecoder.create init reads ending in
        (calls st,
         _ <- o ;;
         Ok {| fullContent := Some (JStr (full st));
               sessionId := []; reference := [] |})
    | Document doc => process_document doc
    end in
  match outcome with
  | Ok v => (made, Ok v)
  | Throw e => caught made e
  end.

End Engine.

(** Whether the run reaches its completion call, [callback('', true)] at
    the end of a stream or [callback(answer, true)] for a document: the
    final call made inside the [try]. *)
Definition completes (r : response) : bool :=
  match r with
  | Streaming _ Closed => true
  | Streaming _ (Aborted _) => false
  | Document doc =>
      match snd (Api.process_document doc) with
      | Ok _ => true
      | Throw _ => false
      end
  end.

(** A callback that throws on every delta and returns from final calls. *)
Definition deaf : list event -> event -> option exn :=
  fun _ e => if is_final e then None else Some (Error (str "no view")).

(** A callback that throws on the first final call it gets. *)
Definition closing : list event -> event -> option exn :=
  fun made e =>
    if is_final e && negb (existsb is_final made)
    then Some (Error (str "view closed")) else None.

(** The run on the small engine. *)
Definition run_with :=
  processStreamingResponse MiniEngine.JSON_parse MiniEngine.string_gt_zero.

End Callback.

(* ================================================================= *)
(** ** The frames of a stream, and the listing calls of [RAGFlowApi] *)

Module Frame.
Import JS Api.

(** What a frame holds at [choices[0].delta.content], when it is truthy
    and prints. *)
Definition frame_delivery (frame : json) : list (value * jsstring) :=
  match delta_content frame with
  | Some c =>
      if truthy (Some c) then
        match ToString c with
        | Ok text => [(Some c, text)]
        | Throw _ => []
        end
      else []
  | None => []
  end.

Definition choices_is_object (frame : json) : bool :=
  match frame with
  | JObj ps =>
      match lookup (str "choices") ps with
      | Some (JObj _) => true
      | _ => false
      end
  | _ => false
  end.



(** [a] is [b] followed by white space only. *)
Definition padded (a b : jsstring) : bool :=
  startsWith b a && forallb is_space (skipn (length b) a).

(** Line by line. *)
Fixpoint all_padded (la lb : list jsstring) : bool :=
  match la, lb with
  | [], [] => true
  | a :: la', b :: lb' => padded a b && all_padded la' lb'
  | _, _ => false
  end.

End Frame.

(** [listChatAssistants] and [listDatasets] read the answer of
    [fetchWithAuth] for a request without a body: the parsed text, or the
    object the fallback builds, or an exception. *)
Module Lists.
Import JS Api.
Local Open Scope res_scope.

(** [v || d] for a text [d] *)
Definition or_default (v : value) (d : jsstring) : json :=
  match v with
  | Some j => if truthy v then j else JStr d
  | None => JStr d
  end.

(** [{ id: item.id || '', name: item.name || unnamed }] *)
Definition entry_of (unnamed : jsstring) (item : json) : res (json * json) :=
  i <- get (Some item) (str "id") ;;
  n <- get (Some item) (str "name") ;;
  Ok (or_default i [], or_default n unnamed).

(** [items.map(f)] for a callback that may throw. *)
Fixpoint map_res (A B : Type) (f : A -> res B) (items : list A) : res (list B) :=
  match items with
  | [] => Ok []
  | x :: rest =>
      y <- f x ;;
      ys <- map_res f rest ;;
      Ok (y :: ys)
  end.

(** The body shared by the two calls: anything that is not an object
    with an array in [data], and any exception, gives the empty list. *)
Definition list_entries (unnamed : jsstring) (fetched : res json)
  : list (json * json) :=
  match fetched with
  | Throw _ => []
  | Ok response =>
      if negb (truthy (Some response)) then []
      else
        match get (Some response) (str "data") with
        | Ok (Some (JArr items)) =>
            match map_res (entry_of unnamed) items with
            | Ok entries => entries
            | Throw _ => []
            end
        | _ => []
        end
  end.

Definition listChatAssistants : res json -> list (json * json) :=
  list_entries (str "Unnamed Assistant").

Definition listDatasets : res json -> list (json * json) :=
  list_entries (str "Unnamed Dataset").

(** [testConnection()] *)
Definition testConnection (fetched : res json) : bool := is_ok fetched.

Definition is_null (j : json) : bool :=
  match j with JNull => true | _ => false end.

(** The entry of an item that is not [null]. *)
Definition entry (unnamed : jsstring) (item : json) : json * json :=
  match item with
  | JObj ps =>
      (or_default (lookup (str "id") ps) [],
       or_default (lookup (str "name") ps) unnamed)
  | _ => (JStr [], JStr unnamed)
  end.

(** The array in [data], if the answer has one. *)
Definition data_items (fetched : res json) : option (list json) :=
  match fetched with
  | Ok (JObj ps) =>
      match lookup (str "data") ps with
      | Some (JArr items) => Some items
      | _ => None
      end
  | _ => None
  end.

End Lists.

(* ================================================================= *)
(** ** Requests that create or read a session *)

(** [createChatAssistant], [createChatSession] and
    [getConversationHistory], given what the awaited [fetchWithAuth] call
    yields and, for the first two, the text of [Date.now()]. *)
Module Requests.
Import JS Api Lists.
Local Open Scope res_scope.

(** The checks the two creating calls make on the answer, up to
    [response.data]. *)
Definition checked_data (fetched : res json) : res value :=
  response <- fetched ;;
  if negb (truthy (Some response)) then
    Throw (Error (str "Empty response from RAGFlow API"))
  else
    code <- get (Some response) (str "code") ;;
    msg <- (if truthy code then get (Some response) (str "message") else Ok None) ;;
    if truthy code && truthy msg then
      m <- ToString_value msg ;;
      c <- ToString_value code ;;
      Throw (Error (str "RAGFlow API error: " ++ m
                      ++ str " (code: " ++ c ++ str ")"))
    else
      data <- get (Some response) (str "data") ;;
      if negb (truthy data) then
        Throw (Error (str "Invalid response format: missing data field"))
      else Ok data.

(** [`${name}_${Date.now()}`] *)
Definition unique_name (name now : jsstring) : jsstring := name ++ str "_" ++ now.

(** [createChatAssistant(name, datasetId)]: the identifier and the name
    of the assistant. *)
Definition createChatAssistant (name datasetId now : jsstring)
    (fetched : res json) : res (json * json) :=
  if negb (nonempty datasetId) then
    Throw (Error (str "Dataset ID is required"))
  else
    data <- checked_data fetched ;;
    i <- get data (str "id") ;;
    match i with
    | Some identifier =>
        if truthy i then
          n <- get data (str "name") ;;
          Ok (identifier, or_default n (unique_name name now))
        else Throw (Error (str "Invalid response: missing chat assistant ID"))
    | None => Throw (Error (str "Invalid response: missing chat assistant ID"))
    end.

(** [v || []] *)
Definition or_empty_array (v : value) : json :=
  match v with
  | Some j => if truthy v then j else JArr []
  | None => JArr []
  end.

(** [createChatSession(chatAssistantId, name)]: the identifier, the name
    and the messages of the session. *)
Definition createChatSession (chatAssistantId name now : jsstring)
    (fetched : res json) : res (json * json * json) :=
  if negb (nonempty chatAssistantId) then
    Throw (Error (str "Chat assistant ID is required"))
  else
    data <- checked_data fetched ;;
    i <- get data (str "id") ;;
    match i with
    | Some identifier =>
        if truthy i then
          n <- get data (str "name") ;;
          ms <- get data (str "messages") ;;
          Ok (identifier, or_default n (unique_name name now), or_empty_array ms)
        else Throw (Error (str "Invalid response: missing session ID"))
    | None => Throw (Error (str "Invalid response: missing session ID"))
    end.

(** [{ role: message.role || 'assistant', content: message.content || '',
      reference: message.reference || [] }] *)
Definition message_of (item : json) : res (json * json * json) :=
  r <- get (Some item) (str "role") ;;
  c <- get (Some item) (str "content") ;;
  refs <- get (Some item) (str "reference") ;;
  Ok (or_default r (str "assistant"), or_default c [], or_empty_array refs).

(** [getConversationHistory(chatAssistantId, sessionId)]: every failure,
    that of the two checks included, is caught and gives the empty list. *)
Definition getConversationHistory (chatAssistantId sessionId : jsstring)
    (fetched : res json) : list (json * json * json) :=
  if negb (nonempty chatAssistantId) then []
  else if negb (nonempty sessionId) then []
  else
    match fetched with
    | Throw _ => []
    | Ok response =>
        if negb (truthy (Some response)) then []
        else
          match get (Some response) (str "data") with
          | Ok (Some (JArr items)) =>
              match map_res message_of items with
              | Ok history => history
              | Throw _ => []
              end
          | _ => []
          end
    end.

(** The message of an item that is not [null]. *)
Definition history_entry (item : json) : json * json * json :=
  match item with
  | JObj ps =>
      (or_default (lookup (str "role") ps) (str "assistant"),
       or_default (lookup (str "content") ps) [],
       or_empty_array (lookup (str "reference") ps))
  | _ => (JStr (str "assistant"), JStr [], JArr [])
  end.

(** An answer that creates a session. *)
Definition created_session : json :=
  JObj [(str "code", JNum (str "0"));
        (str "data", JObj [(str "id", JStr (str "s1"))])].

End Requests.

(* ================================================================= *)
(** ** The conversation window: [ConversationModal] *)

Module Controller.
Import JS Conversation.

Record ChatAssistant := { assistant_id : jsstring; assistant_name : jsstring }.

Record ChatSession := {
  session_id : jsstring;
  session_name : jsstring;
  session_messages : list Message
}.

(** The fields of the window that [sendMessage] reads and writes (the
    display is not part of the model). *)
Record modal := {
  messages : list Message;
  chatAssistant : option ChatAssistant;
  chatSession : option ChatSession;
  isTestMode : bool
}.

Definition set_messages (st : modal) (ms : list Message) : modal :=
  {| messages := ms; chatAssistant := chatAssistant st;
     chatSession := chatSession st; isTestMode := isTestMode st |}.

Definition with_id (m : Message) (i : jsstring) : Message :=
  {| role := role m; content := content m; reference := reference m;
     isTemporary := isTemporary m; id := i |}.

(** [`msg_${Date.now()}_${Math.random().toString(36).substring(2, 9)}`],
    where [stamp] is the text after the first underscore. *)
Definition generated_id (stamp : jsstring) : jsstring := str "msg_" ++ stamp.

(** [addMessage(message)]: the message gets a generated identifier unless
    it has one, and is pushed; the identifier is returned.  (The display
    calls are taken to succeed.) *)
Definition addMessage (m : Message) (stamp : jsstring) (st : modal)
  : jsstring * modal :=
  let m' := match id m with [] => with_id m (generated_id stamp) | _ => m end in
  (id m', set_messages st (messages st ++ [m'])).

(** [this.messages.splice(this.messages.findIndex(msg => msg.id === messageId), 1)] *)
Fixpoint remove_first (ms : list Message) (messageId : jsstring) : list Message :=
  match ms with
  | [] => []
  | m :: ms' =>
      if eqb (id m) messageId then ms' else m :: remove_first ms' messageId
  end.

(** [removeMessage(messageId)] on the message array. *)
Definition removeMessage (messageId : jsstring) (st : modal) : modal :=
  match messageId with
  | [] => st
  | _ => set_messages st (remove_first (messages st) messageId)
  end.

Definition plain_message (r : Role) (c : jsstring) : Message :=
  {| role := r; content := c; reference := None; isTemporary := false; id := [] |}.

(** U+26A0 U+FE0F, the warning sign of the messages. *)
Definition warning_sign : jsstring := [9888; 65039]%N.

Definition mock_assistant : ChatAssistant :=
  {| assistant_id := str "mock-assistant-id"; assistant_name := str "Mock Assistant" |}.

Definition mock_session : ChatSession :=
  {| session_id := str "mock-session-id"; session_name := str "Mock Session";
     session_messages := [] |}.

Definition or_some (A : Type) (o : option A) (d : A) : option A :=
  match o with Some _ => o | None => Some d end.

(** [enterTestMode(errorMessage)]; [g1] and [g2] are the stamps of the
    identifiers of the two messages it may add. *)
Definition enterTestMode (errorMessage g1 g2 : jsstring) (st : modal) : modal :=
  let st1 := {| messages := messages st;
                chatAssistant := or_some (chatAssistant st) mock_assistant;
                chatSession := or_some (chatSession st) mock_session;
                isTestMode := true |} in
  match messages st1 with
  | [] =>
      let (_, st2) :=
        addMessage
          (plain_message assistant
             (warning_sign ++ str " **Warning**: Could not connect to RAGFlow API. "
                ++ str "This is running in test mode and will not use your knowledge base. "
                ++ str "Please check your settings and try again." ++ [LF; LF]
                ++ str "Error: " ++ errorMessage))
          g1 st1 in
      snd (addMessage
             (plain_message assistant
                (str "This is a mock conversation for testing. Your messages will not be sent to RAGFlow."))
             g2 st2)
  | _ => st1
  end.

(** The window as the constructor leaves it. *)
Definition initial : modal :=
  {| messages := []; chatAssistant := None; chatSession := None;
     isTestMode := false |}.

(** [assistant.id === this.plugin.settings.chatAssistantId], the right
    side being a text. *)
Definition same_id (listed : json) (chatAssistantId : jsstring) : bool :=
  match listed with
  | JStr s => eqb s chatAssistantId
  | _ => false
  end.

Definition welcome (a : ChatAssistant) : Message :=
  plain_message assistant
    (str "Hi! I am your RAGFlow assistant using **"
       ++ Markdown.or_else (assistant_name a) (str "default assistant")
       ++ str "**. How can I help you with your knowledge base today?").

(** [initializeConversation()], given the settings, what the request of
    [testConnection] and that of [listChatAssistants] yield, and the stamp
    of the welcome message.  ([loadChatAssistants] only fills the
    selector.) *)
Definition initializeConversation (settings : Markdown.Settings)
    (ragflowUrl apiKey : jsstring) (connection listing : res json)
    (stamp : jsstring) (st : modal) : modal * res unit :=
  if negb (Api.nonempty ragflowUrl) then
    (st, Throw (Error (str "RAGFlow URL is not set. Please set it in the settings.")))
  else if negb (Api.nonempty apiKey) then
    (st, Throw (Error (str "RAGFlow API key is not set. Please set it in the settings.")))
  else if negb (Api.nonempty (Markdown.chatAssistantId settings)) then
    (st, Throw (Error (str "No chat assistant selected. Please select a chat assistant in the settings.")))
  else if negb (Lists.testConnection connection) then
    (st, Throw (Error (str "Could not connect to RAGFlow API. Please check your settings.")))
  else if negb (existsb (fun a => same_id (fst a) (Markdown.chatAssistantId settings))
                  (Lists.listChatAssistants listing)) then
    (st, Throw (Error (str "Could not initialize conversation: "
                         ++ str "Selected chat assistant does not exist on the server. Please select a different assistant.")))
  else
    let a := {| assistant_id := Markdown.chatAssistantId settings;
                assistant_name :=
                  Markdown.or_else (Markdown.chatAssistantName settings)
                    (str "RAGFlow Assistant") |} in
    (snd (addMessage (welcome a) stamp
            {| messages := [];
               chatAssistant := Some a;
               chatSession := Some {| session_id := []; session_name := [];
                                      session_messages := [] |};
               isTestMode := false |}),
     Ok tt).

(** The stamps of the identifiers generated while the window opens. *)
Record opening := {
  for_first_warning : jsstring;
  for_first_welcome : jsstring;
  for_greeting : jsstring;
  for_late_warning : jsstring;
  for_late_welcome : jsstring
}.

(** What [onOpen()] does to the fields once the display is built. *)
Definition onOpen (settings : Markdown.Settings) (ragflowUrl apiKey : jsstring)
    (connection listing : res json) (g : opening) (st : modal) : modal :=
  let st1 := enterTestMode (str "Initializing...")
               (for_first_warning g) (for_first_welcome g) st in
  let (st2, initialized) :=
    initializeConversation settings ragflowUrl apiKey connection listing
      (for_greeting g) st1 in
  match initialized with
  | Ok _ => st2
  | Throw e =>
      if isTestMode st2 then st2
      else enterTestMode (message e) (for_late_warning g) (for_late_welcome g) st2
  end.

(** Whether the settings and the two answers let the window start. *)
Definition can_start (settings : Markdown.Settings) (ragflowUrl apiKey : jsstring)
    (connection listing : res json) : bool :=
  Api.nonempty ragflowUrl && Api.nonempty apiKey
  && Api.nonempty (Markdown.chatAssistantId settings)
  && Lists.testConnection connection
  && existsb (fun a => same_id (fst a) (Markdown.chatAssistantId settings))
       (Lists.listChatAssistants listing).

(** The stamps of the identifiers generated during one [sendMessage]. *)
Record stamps := {
  for_user : jsstring;
  for_waiting : jsstring;
  for_response : jsstring;
  for_mock : jsstring;
  for_error : jsstring;
  for_warning : jsstring;
  for_welcome : jsstring
}.

(** The placeholder shown while the answer is awaited. *)
Definition waiting_message : Message :=
  {| role := assistant;
     content := [27491; 22312; 24605; 32771; 20013]%N ++ str "...";
     reference := None; isTemporary := true; id := [] |}.

Definition response_message : Message :=
  {| role := assistant; content := []; reference := Some [];
     isTemporary := false; id := [] |}.

Definition mock_response : Message :=
  plain_message assistant
    (str "This is a mock response. The plugin is in test mode because it could not connect to RAGFlow. "
       ++ str "Please check your settings and try again.").

Definition error_message (e : exn) : Message :=
  plain_message assistant
    (warning_sign ++ str " **Error**: Failed to send message: " ++ message e
       ++ str ". Please check your connection and settings.").

(** The messages as they stand in the array once identified. *)
Definition user_message (message stamp : jsstring) : Message :=
  with_id (plain_message user message) (generated_id stamp).

Definition waiting (stamp : jsstring) : Message :=
  with_id waiting_message (generated_id stamp).

Definition reply (stamp text : jsstring) : Message :=
  with_content (with_id response_message (generated_id stamp)) text.

Definition renamed (s : ChatSession) (date : jsstring) : ChatSession :=
  match session_id s with
  | [] => s
  | sessionId => {| session_id := sessionId;
                    session_name := str "Obsidian Session " ++ date;
                    session_messages := [] |}
  end.

(** No message carries the identifier. *)
Definition unused (i : jsstring) (ms : list Message) : bool :=
  forallb (fun m => negb (eqb (id m) i)) ms.

(** The identifiers of the placeholder and of the reply are new to the
    array and differ from each other and from that of the question. *)
Definition fresh (g : stamps) (ms : list Message) : bool :=
  unused (generated_id (for_waiting g)) ms
  && unused (generated_id (for_response g)) ms
  && negb (eqb (for_waiting g) (for_user g))
  && negb (eqb (for_response g) (for_user g))
  && negb (eqb (for_response g) (for_waiting g)).

(** What [updateMessageContent] leaves alone in a message. *)
Definition kept_fields (m : Message)
  : jsstring * Role * bool * option (list Reference) :=
  (id m, role m, isTemporary m, reference m).

(** The [catch] of [sendMessage]. *)
Definition failed (e : exn) (g : stamps) (st : modal) : modal :=
  let st' := if isTestMode st then st
             else enterTestMode (message e) (for_warning g) (for_welcome g) st in
  snd (addMessage (error_message e) (for_error g) st').

Section Engine.

Variable JSON_parse : jsstring -> res json.
Variable string_gt_zero : jsstring -> bool.

(** What the exchange with the service yields: [sendOpenAICompatibleMessage]
    and then [processStream], whose calls reach the callback even when it
    rejects. *)
Definition exchange (assistantId question : jsstring) (fetched : res Api.response)
  : list Api.event * res Api.StreamResult :=
  match Api.sendOpenAICompatibleMessage JSON_parse string_gt_zero
          assistantId question fetched with
  | Ok response => Api.processStream response tt
  | Throw e => ([], Throw e)
  end.

(** [sendMessage()], given the text of the input box, the stamps of the
    identifiers it will generate, what [fetchWithAuth] yields and the text
    of the date.  (The input box, the loading indicator, the notices and
    the delayed automatic save are not part of the model.) *)
Definition sendMessage (input : jsstring) (g : stamps)
    (fetched : res Api.response) (date : jsstring) (st : modal) : modal :=
  match trim input with
  | [] => st
  | message =>
      match chatAssistant st, chatSession st with
      | Some theAssistant, Some session =>
          let (_, st1) := addMessage (plain_message user message) (for_user g) st in
          if isTestMode st1 then
            snd (addMessage mock_response (for_mock g) st1)
          else
            let (waitingMessageId, st2) :=
              addMessage waiting_message (for_waiting g) st1 in
            let (responseMessageId, st3) :=
              addMessage response_message (for_response g) st2 in
            let (calls, outcome) :=
              exchange (assistant_id theAssistant) message fetched in
            let st4 :=
              set_messages st3
                (Conversation.messages
                   (stream_into responseMessageId (messages st3) calls)) in
            match outcome with
            | Throw e => failed e g st4
            | Ok _ =>
                let st5 := removeMessage waitingMessageId st4 in
                match session_id session with
                | [] => st5
                | sessionId =>
                    {| messages := messages st5;
                       chatAssistant := chatAssistant st5;
                       chatSession :=
                         Some {| session_id := sessionId;
                                 session_name := str "Obsidian Session " ++ date;
                                 session_messages := [] |};
                       isTestMode := isTestMode st5 |}
                end
            end
      | _, _ => st
      end
  end.

End Engine.

End Controller.

(* ================================================================= *)
(** ** Saving to the vault: [RAGFlowPlugin] *)

(** [saveConversationToNote] and [ensureFolderExists] work on the vault of
    the host application.  The vault is a parameter: a type of vault states
    with the five operations the plugin calls, each returning the state it
    leaves and, where it can fail, its outcome. *)
Module Plugin.
Import JS Conversation Regex.

(** What [getAbstractFileByPath] can return besides [null]. *)
Inductive kind := TFile | TFolder.

Definition SLASH : N := 47.

(** [folderPath.split('/').filter(p => p.length > 0)] *)
Definition segments (folderPath : jsstring) : list jsstring :=
  filter (fun p => (0 <? length p)%nat) (split SLASH folderPath).

(** [currentPath ? `${currentPath}/${folder}` : folder] *)
Definition extend (currentPath folder : jsstring) : jsstring :=
  match currentPath with
  | [] => folder
  | _ => currentPath ++ [SLASH] ++ folder
  end.

(** The values [currentPath] takes in the loop. *)
Fixpoint paths_from (currentPath : jsstring) (folders : list jsstring)
  : list jsstring :=
  match folders with
  | [] => []
  | folder :: rest =>
      extend currentPath folder :: paths_from (extend currentPath folder) rest
  end.

Definition paths (folderPath : jsstring) : list jsstring :=
  paths_from [] (segments folderPath).

(** The class of the pattern that cleans a title: backslash, slash, colon,
    asterisk, question mark, double quote, angle brackets and bar. *)
Definition forbidden (c : N) : bool :=
  ((c =? 92) || (c =? 47) || (c =? 58) || (c =? 42) || (c =? 63)
   || (c =? 34) || (c =? 60) || (c =? 62) || (c =? 124))%N.

Definition is_user (r : Role) : bool :=
  match r with user => true | _ => false end.

(** The title: [firstUserMessage.content.substring(0, 50)] with every
    character of the class replaced by an underscore, or the default with
    the text of the date. *)
Definition title_of (messages : list Message) (date : jsstring) : jsstring :=
  match find (fun m => is_user (role m)) messages with
  | Some firstUserMessage =>
      replace_all [One forbidden] (by_text (str "_"))
        (firstn 50 (content firstUserMessage))
  | None => str "RAGFlow Conversation " ++ date
  end.

(** [`${this.settings.saveFolderPath}/${title}.md`] *)
Definition file_path (saveFolderPath title : jsstring) : jsstring :=
  saveFolderPath ++ [SLASH] ++ title ++ str ".md".

Definition is_folder (found : option kind) : bool :=
  match found with Some TFolder => true | _ => false end.

Definition is_file (found : option kind) : bool :=
  match found with Some TFile => true | _ => false end.

(** The title with each forbidden character replaced. *)
Definition underscored (s : jsstring) : jsstring :=
  map (fun c => if forbidden c then 95%N else c) s.

Section Vault.

Variable vault : Type.
Variable getAbstractFileByPath : vault -> jsstring -> option kind.
Variable createFolder : vault -> jsstring -> vault * res unit.
Variable read : vault -> jsstring -> res jsstring.
Variable modify : vault -> jsstring -> jsstring -> vault * res unit.
Variable create : vault -> jsstring -> jsstring -> vault * res unit.

(** The loop of [ensureFolderExists] from [currentPath] on. *)
Fixpoint ensure_from (v : vault) (currentPath : jsstring)
    (folders : list jsstring) : vault * res unit :=
  match folders with
  | [] => (v, Ok tt)
  | folder :: rest =>
      let currentPath := extend currentPath folder in
      match getAbstractFileByPath v currentPath with
      | None =>
          let (v', created) := createFolder v currentPath in
          match created with
          | Ok _ => ensure_from v' currentPath rest
          | Throw e => (v', Throw e)
          end
      | Some TFolder => ensure_from v currentPath rest
      | Some _ =>
          (v, Throw (Error (currentPath ++ str " exists but is not a folder")))
      end
  end.

(** [ensureFolderExists(folderPath)] *)
Definition ensureFolderExists (v : vault) (folderPath : jsstring)
  : vault * res unit :=
  ensure_from v [] (segments folderPath).

(** [saveConversationToNote(messages)], given the settings, the texts of
    the two dates it may read and the vault. *)
Definition saveConversationToNote (settings : Markdown.Settings)
    (saveFolderPath titleDate date : jsstring) (messages : list Message)
    (v : vault) : vault * res unit :=
  match messages with
  | [] => (v, Ok tt)
  | _ =>
      let (v1, ensured) := ensureFolderExists v saveFolderPath in
      match ensured with
      | Throw e => (v1, Throw e)
      | Ok _ =>
          let filePath := file_path saveFolderPath (title_of messages titleDate) in
          let content :=
            Markdown.formatConversationAsMarkdown settings date messages in
          match getAbstractFileByPath v1 filePath with
          | Some TFile =>
              match read v1 filePath with
              | Ok existingContent =>
                  modify v1 filePath (existingContent ++ [LF; LF] ++ content)
              | Throw e => (v1, Throw e)
              end
          | _ => create v1 filePath content
          end
      end
  end.

(** What the plugin relies on when it creates a folder at a path where
    there is nothing: the call succeeds, the path is a folder afterwards
    and no other path is affected. *)
Definition creates_folders : Prop :=
  forall v p,
    getAbstractFileByPath v p = None ->
    snd (createFolder v p) = Ok tt
    /\ getAbstractFileByPath (fst (createFolder v p)) p = Some TFolder
    /\ forall q, q <> p ->
         getAbstractFileByPath (fst (createFolder v p)) q
         = getAbstractFileByPath v q.

End Vault.

(** A vault in memory, to run the plugin on: the entries by path, the
    latest first. *)
Module Memory.

Inductive entry := File (content : jsstring) | Folder.

Definition vault := list (jsstring * entry).

Fixpoint entry_at (v : vault) (path : jsstring) : option entry :=
  match v with
  | [] => None
  | (p, e) :: v' => if eqb p path then Some e else entry_at v' path
  end.

Definition getAbstractFileByPath (v : vault) (path : jsstring) : option kind :=
  match entry_at v path with
  | Some (File _) => Some TFile
  | Some Folder => Some TFolder
  | None => None
  end.

Definition createFolder (v : vault) (path : jsstring) : vault * res unit :=
  ((path, Folder) :: v, Ok tt).

Definition read (v : vault) (path : jsstring) : res jsstring :=
  match entry_at v path with
  | Some (File c) => Ok c
  | _ => Throw (Error (str "File not found"))
  end.

Definition modify (v : vault) (path c : jsstring) : vault * res unit :=
  ((path, File c) :: v, Ok tt).

Definition create (v : vault) (path c : jsstring) : vault * res unit :=
  match entry_at v path with
  | Some _ => (v, Throw (Error (str "File already exists.")))
  | None => ((path, File c) :: v, Ok tt)
  end.

Definition ensure := ensureFolderExists getAbstractFileByPath createFolder.

Definition save :=
  saveConversationToNote getAbstractFileByPath createFolder read modify create.

End Memory.

End Plugin.

(* ================================================================= *)
(** ** Tags in the transcript *)

Module Tags.
Import JS Regex Markdown.

Definition LT : N := 60.
Definition GT : N := 62.

(** No [<] with a [>] somewhere after it: nothing [html_tag] can match. *)
Fixpoint tagless (s : jsstring) : bool :=
  match s with
  | [] => true
  | c :: s' => (negb (N.eqb c LT) || negb (existsb (N.eqb GT) s')) && tagless s'
  end.

(** Neither angle bracket. *)
Definition neutral (c : N) : bool := negb (N.eqb c LT) && negb (N.eqb c GT).

(** [thinned s t]: [t] is [s] with units taken out and neutral units put
    in, the order of what is kept unchanged. *)
Inductive thinned : jsstring -> jsstring -> Prop :=
| thinned_nil : thinned [] []
| thinned_keep c s t : thinned s t -> thinned (c :: s) (c :: t)
| thinned_drop c s t : thinned s t -> thinned (c :: s) t
| thinned_add c s t : neutral c = true -> thinned s t -> thinned s (c :: t).

(** No [<] at all. *)
Definition no_lt (s : jsstring) : bool := forallb (fun c => negb (N.eqb c LT)) s.

(** [<think>body</think>] *)
Definition think (body : jsstring) : jsstring :=
  str "<think>" ++ body ++ str "</think>".

(** The text of a reference as the transcript shows it. *)
Definition reference_text (r : Conversation.Reference) : jsstring :=
  firstn 200 (trim (remove_all html_tag (Conversation.ref_content r))).

End Tags.

(* ================================================================= *)
(** ** Sample data *)

Module Samples.
Import JS Conversation MiniEngine Controller Plugin.

(** The two frames of the scenario with CR LF line endings. *)
Definition crlf_reads : list (list byte) :=
  [ bytes "data: {'choices':[{'delta':{'content':'Hel'}}]}" ++ [x0d; x0a];
    bytes "data: {'choices':[{'delta':{'content':'lo'}}]}" ++ [x0d; x0a] ].

Definition lf_reads : list (list byte) :=
  [ line "data: {'choices':[{'delta':{'content':'Hel'}}]}";
    line "data: {'choices':[{'delta':{'content':'lo'}}]}" ].

(** A frame that is a number. *)
Definition scalar_line : jsstring := str "data: 42".

Definition librarian : ChatAssistant :=
  {| assistant_id := str "a1"; assistant_name := str "Library" |}.

Definition unnamed_session : ChatSession :=
  {| session_id := []; session_name := []; session_messages := [] |}.

Definition greeting : Message :=
  {| role := assistant; content := str "Hi!"; reference := None;
     isTemporary := false; id := generated_id (str "0_z") |}.

(** A window that has started. *)
Definition window : modal :=
  {| messages := [greeting];
     chatAssistant := Some librarian;
     chatSession := Some unnamed_session;
     isTestMode := false |}.

Definition test_window : modal :=
  {| messages := [greeting];
     chatAssistant := Some librarian;
     chatSession := Some unnamed_session;
     isTestMode := true |}.

Definition clock : stamps :=
  {| for_user := str "1_a"; for_waiting := str "2_b";
     for_response := str "3_c"; for_mock := str "4_d";
     for_error := str "5_e"; for_warning := str "6_f";
     for_welcome := str "7_g" |}.

Definition question : jsstring := str " What is new? ".

Definition today : jsstring := str "11/2/2026, 9:00:00 AM".

Definition send := Controller.sendMessage JSON_parse string_gt_zero.

Definition asked : Message :=
  {| role := user; content := str "What is new?"; reference := None;
     isTemporary := false; id := generated_id (str "1_a") |}.

Definition answered (text : jsstring) : Message :=
  {| role := assistant; content := text; reference := Some [];
     isTemporary := false; id := generated_id (str "3_c") |}.

(** A vault with a folder and a note in it. *)
Definition vault : Memory.vault :=
  [(str "Chats/note.md", Memory.File (str "old")); (str "Chats", Memory.Folder)].

Definition conversation : list Message := [greeting; asked; answered (str "Hello")].

(** An answer in the error format that also carries data. *)
Definition refused : list (jsstring * json) :=
  [(str "code", JNum (str "102"));
   (str "message", JStr (str "Authentication error"));
   (str "data", JObj [(str "id", JStr (str "s1"))])].

End Samples.

(* ================================================================= *)
(** * Properties *)

(** ** Strings and the decoder *)

Module JSFacts.
Import JS.

Lemma eqb_refl (s : jsstring) : eqb s s = true.
Proof.
  induction s as [|c s IH]; simpl; [reflexivity|].
  now rewrite N.eqb_refl, IH.
Qed.

Lemma eqb_eq (a b : jsstring) : eqb a b = true <-> a = b.
Proof.
  split; [|intros ->; apply eqb_refl].
  revert b; induction a as [|x a IH]; intros [|y b]; simpl; try easy.
  intros H; apply andb_true_iff in H as [Hx Hab].
  apply N.eqb_eq in Hx; subst; f_equal; now apply IH.
Qed.

Lemma split_aux_cons sep c s :
  split_aux sep (c :: s) =
    if N.eqb c sep then ([], fst (split_aux sep s) :: snd (split_aux sep s))
    else (c :: fst (split_aux sep s), snd (split_aux sep s)).
Proof. simpl; destruct (split_aux sep s); reflexivity. Qed.

Lemma split_cons sep c s :
  split sep (c :: s) =
    if N.eqb c sep then [] :: split sep s
    else match split sep s with
         | h :: t => (c :: h) :: t
         | [] => [[c]]
         end.
Proof.
  unfold split; rewrite split_aux_cons.
  destruct (split_aux sep s), (N.eqb c sep); reflexivity.
Qed.

Lemma split_not_nil sep s : split sep s <> [].
Proof. unfold split; destruct (split_aux sep s); discriminate. Qed.

(** No separator in [s]: a single segment. *)
Lemma split_no_sep sep s : ~ In sep s -> split sep s = [s].
Proof.
  induction s as [|c s IH]; intros H; [reflexivity|].
  rewrite split_cons.
  destruct (N.eqb_spec c sep) as [->|_]; [exfalso; apply H; now left|].
  rewrite IH; [reflexivity|]; intros Hin; apply H; now right.
Qed.

(** Appending text continues the last segment and leaves the others. *)
Lemma split_app sep s t :
  split sep (s ++ t) =
    removelast (split sep s) ++ split sep (last (split sep s) [] ++ t).
Proof.
  induction s as [|c s IH]; [reflexivity|].
  rewrite <- app_comm_cons, !split_cons, IH.
  pose proof (split_not_nil sep s) as Hne.
  destruct (N.eqb c sep) eqn:E.
  - destruct (split sep s) as [|h tl]; [easy|]. reflexivity.
  - destruct (split sep s) as [|h tl]; [easy|].
    destruct tl as [|h' tl]; simpl; [|reflexivity].
    rewrite split_cons, E.
    pose proof (split_not_nil sep (h ++ t)).
    destruct (split sep (h ++ t)); [easy|reflexivity].
Qed.

(** The last segment holds no separator. *)
Lemma last_split_no_sep sep s : ~ In sep (last (split sep s) []).
Proof.
  induction s as [|c s IH]; [simpl; tauto|].
  rewrite split_cons.
  pose proof (split_not_nil sep s) as Hne.
  destruct (N.eqb_spec c sep) as [->|Hc].
  - destruct (split sep s); [easy|exact IH].
  - destruct (split sep s) as [|h [|h' tl]]; [easy| |exact IH].
    simpl in *. intros [H|H]; [congruence|tauto].
Qed.

Lemma removelast_app_last (A : Type) (l : list A) (d : A) :
  l <> [] -> removelast l ++ [last l d] = l.
Proof. intros H; symmetry; now apply app_removelast_last. Qed.

Lemma last_app_not_nil (A : Type) (l1 l2 : list A) (d : A) :
  l2 <> [] -> last (l1 ++ l2) d = last l2 d.
Proof.
  intros H; induction l1 as [|x l1 IH]; [reflexivity|].
  simpl. destruct (l1 ++ l2) eqn:E; [|exact IH].
  apply app_eq_nil in E as [_ ->]; easy.
Qed.

Lemma decode_app d a b :
  TextDecoder.decode d (a ++ b) =
    let (d1, o1) := TextDecoder.decode d a in
    let (d2, o2) := TextDecoder.decode d1 b in
    (d2, o1 ++ o2).
Proof.
  revert d; induction a as [|x a IH]; intros d; simpl.
  - now destruct (TextDecoder.decode d b).
  - destruct (TextDecoder.feed d x) as [d1 o1].
    rewrite IH.
    destruct (TextDecoder.decode d1 a) as [d2 o2].
    destruct (TextDecoder.decode d2 b) as [d3 o3].
    now rewrite app_assoc.
Qed.

Lemma trimStart_keeps c s : is_space c = false -> trimStart (c :: s) = c :: s.
Proof. intros H; simpl; now rewrite H. Qed.

Lemma trimStart_app_last l c :
  is_space c = false -> trimStart (l ++ [c]) <> [].
Proof.
  intros H; induction l as [|x l IH]; simpl.
  - now rewrite H.
  - destruct (is_space x); [exact IH|discriminate].
Qed.

Lemma trim_not_empty c s : is_space c = false -> trim (c :: s) <> [].
Proof.
  intros H. unfold trim. rewrite trimStart_keeps by exact H.
  unfold trimEnd.
  destruct (rev (c :: s)) as [|y l] eqn:E using rev_ind.
  - apply (f_equal (@length N)) in E. rewrite length_rev in E. discriminate.
  - clear IHl.
    assert (Hy : y = c).
    { apply (f_equal (@rev N)) in E.
      rewrite rev_involutive, rev_unit in E. now injection E. }
    subst y.
    pose proof (@trimStart_app_last l c H) as Hne.
    destruct (trimStart (l ++ [c])) as [|z t] eqn:Et; [easy|].
    simpl. intros Hn. apply app_eq_nil in Hn as [_ Hn]. discriminate.
Qed.

End JSFacts.

(** ** The streaming decoder *)

Module ApiFacts.
Import JS JSFacts Api.

Section Engine.

Variable JSON_parse : jsstring -> res json.
Variable string_gt_zero : jsstring -> bool.

Local Abbreviation frame_content := (Api.frame_content JSON_parse string_gt_zero).
Local Abbreviation try_line := (Api.try_line JSON_parse string_gt_zero).
Local Abbreviation process_line := (Api.process_line JSON_parse string_gt_zero).
Local Abbreviation process_rest := (Api.process_rest JSON_parse string_gt_zero).
Local Abbreviation flush := (Api.flush JSON_parse string_gt_zero).
Local Abbreviation read_loop := (Api.read_loop JSON_parse string_gt_zero).
Local Abbreviation processStreamingResponse := (Api.processStreamingResponse JSON_parse string_gt_zero).
Local Abbreviation delivered := (Api.delivered JSON_parse string_gt_zero).

Lemma add_nil st : add st [] = st.
Proof. destruct st; unfold add; simpl; now rewrite !app_nil_r. Qed.

Lemma add_app st a b : add (add st a) b = add st (a ++ b).
Proof.
  unfold add, text_of, deltas; simpl.
  now rewrite !map_app, concat_app, !app_assoc.
Qed.

Lemma add_set_buffer st b ds :
  add (set_buffer st b) ds = set_buffer (add st ds) b.
Proof. reflexivity. Qed.

Lemma process_line_add st line : process_line st line = add st (delivered line).
Proof.
  unfold Api.process_line, Api.delivered, Api.try_line.
  destruct (is_data_line line); [|now rewrite add_nil].
  destruct (frame_content line) as [[c|]|e]; simpl; try now rewrite add_nil.
  unfold deliver; simpl.
  destruct (ToString c) as [text|e]; simpl; [|now rewrite add_nil].
  unfold add, text_of, deltas; simpl. now rewrite app_nil_r.
Qed.

Lemma fold_process_line lines st :
  fold_left process_line lines st = add st (flat_map delivered lines).
Proof.
  revert st; induction lines as [|l ls IH]; intros st; simpl.
  - now rewrite add_nil.
  - now rewrite IH, process_line_add, add_app.
Qed.

Lemma process_rest_single st line :
  process_rest [line] st = process_line st line.
Proof.
  unfold Api.process_line; simpl.
  destruct (is_data_line line); [|reflexivity].
  now destruct (try_line st line).
Qed.

Lemma trim_empty_not_data line :
  nonempty (trim line) = false -> is_data_line line = false.
Proof. unfold is_data_line; now intros ->. Qed.

(** The buffer never holds a line break, so the pass over what is left at
    the end of the stream sees one line. *)
Lemma flush_add st :
  ~ In LF (buffer st) -> flush st = add st (delivered (buffer st)).
Proof.
  intros H; unfold Api.flush.
  destruct (nonempty (trim (buffer st))) eqn:E.
  - rewrite split_no_sep by exact H.
    now rewrite process_rest_single, process_line_add.
  - unfold Api.delivered; rewrite trim_empty_not_data by exact E.
    now rewrite add_nil.
Qed.


Lemma set_buffer_same st : set_buffer st (buffer st) = st.
Proof. now destruct st. Qed.

(** The loop invariant: whatever the reads, the lines processed are the
    complete lines of the text decoded so far. *)
Lemma read_loop_spec reads : forall decoder st ending,
  ~ In LF (buffer st) ->
  read_loop decoder st reads ending
  = finish JSON_parse string_gt_zero
      (after_reads JSON_parse string_gt_zero decoder st reads) ending.
Proof.
  induction reads as [|value reads IH]; intros decoder st ending Hbuf.
  - unfold after_reads; simpl. rewrite app_nil_r.
    rewrite split_no_sep by exact Hbuf. simpl.
    rewrite set_buffer_same, add_nil. reflexivity.
  - simpl. unfold after_reads. simpl concat. rewrite decode_app.
    destruct (TextDecoder.decode decoder value) as [d1 o1].
    destruct (TextDecoder.decode d1 (concat reads)) as [d2 o2] eqn:E2.
    rewrite fold_process_line.
    rewrite IH by (simpl; apply last_split_no_sep).
    f_equal. unfold after_reads. rewrite E2. simpl.
    rewrite (app_assoc (buffer st) o1 o2), (split_app LF (buffer st ++ o1) o2).
    set (L1 := split LF (buffer st ++ o1)).
    set (L2 := split LF (last L1 [] ++ o2)).
    assert (HL2 : L2 <> []) by apply split_not_nil.
    rewrite last_app_not_nil by exact HL2.
    rewrite removelast_app by exact HL2.
    rewrite flat_map_app.
    unfold add, set_buffer, text_of, deltas; simpl.
    now rewrite !map_app, concat_app, !app_assoc.
Qed.


(** What stays buffered between two reads is the unfinished last line. *)
Lemma after_reads_buffer decoder st reads :
  ~ In LF (buffer (Api.after_reads JSON_parse string_gt_zero decoder st reads)).
Proof. unfold Api.after_reads. simpl. apply last_split_no_sep. Qed.

Local Abbreviation lines_of := Api.lines_of.
Local Abbreviation after_reads := (Api.after_reads JSON_parse string_gt_zero).

Lemma after_reads_init reads :
  after_reads TextDecoder.create init reads
  = add (set_buffer init (last (lines_of reads) []))
        (flat_map delivered (removelast (lines_of reads))).
Proof. reflexivity. Qed.

(** A stream that closes: every line of the decoded text is processed
    once, in order, and the completion call follows. *)
Lemma run_closed reads :
  processStreamingResponse (Streaming reads Closed)
  = streamed (flat_map delivered (lines_of reads)).
Proof.
  unfold Api.processStreamingResponse.
  rewrite read_loop_spec by (simpl; tauto).
  rewrite after_reads_init. unfold finish.
  rewrite flush_add by (simpl; apply last_split_no_sep).
  simpl buffer. rewrite add_app.
  assert (Hne : lines_of reads <> []) by apply split_not_nil.
  unfold streamed.
  replace (flat_map delivered (lines_of reads))
    with (flat_map delivered (removelast (lines_of reads))
            ++ delivered (last (lines_of reads) [])).
  - reflexivity.
  - rewrite <- (removelast_app_last [] Hne) at 3.
    rewrite flat_map_app. simpl flat_map. now rewrite app_nil_r.
Qed.

(** A stream whose read is rejected: the complete lines so far have been
    processed, the error is reported and thrown. *)
Lemma run_aborted reads e :
  processStreamingResponse (Streaming reads (Aborted e))
  = (deltas (flat_map delivered (removelast (lines_of reads)))
       ++ [Call (Some (JStr (str "Error: " ++ message e))) true],
     Throw e).
Proof.
  unfold Api.processStreamingResponse.
  rewrite read_loop_spec by (simpl; tauto).
  rewrite after_reads_init. reflexivity.
Qed.

Lemma lines_of_single reads : lines_of [concat reads] = lines_of reads.
Proof. unfold Api.lines_of, text_of_reads; simpl. now rewrite app_nil_r. Qed.

(** C1. However the bytes of the body are cut into reads, in the middle of
    a line or of a multi-byte character, the run is the one obtained when
    all the bytes come in a single read: same callbacks, same outcome, and
    so the same [fullContent]. *)
Theorem chunking_invariance reads ending :
  processStreamingResponse (Streaming reads ending)
  = processStreamingResponse (Streaming [concat reads] ending).
Proof.
  destruct ending as [|e].
  - now rewrite !run_closed, lines_of_single.
  - now rewrite !run_aborted, lines_of_single.
Qed.

Lemma deltas_not_final ds : existsb is_final (deltas ds) = false.
Proof. induction ds as [|d ds IH]; [reflexivity|exact IH]. Qed.

Lemma delivered_malformed line e :
  JSON_parse (payload line) = Throw e -> delivered line = [].
Proof.
  intros H. unfold Api.delivered, Api.frame_content.
  fold (payload line). rewrite H.
  destruct (is_data_line line); [|reflexivity].
  now destruct (eqb (payload line) (str "[DONE]")).
Qed.

(** C3. A line with the data prefix whose payload does not parse is
    skipped and nothing else is: wherever it stands among the lines of the
    stream, the last one included, the contents of the lines before and
    after it are all delivered as deltas and make up the final answer. *)
Theorem malformed_line_skipped reads before bad after e :
  lines_of reads = before ++ bad :: after ->
  startsWith (str "data:") bad = true ->
  JSON_parse (payload bad) = Throw e ->
  processStreamingResponse (Streaming reads Closed)
  = streamed (flat_map delivered before ++ flat_map delivered after).
Proof.
  intros Hlines _ Hbad.
  rewrite run_closed, Hlines, flat_map_app. simpl.
  now rewrite (delivered_malformed _ Hbad).
Qed.

Lemma startsWith_data_line line :
  startsWith (str "data:") line = false -> is_data_line line = false.
Proof. unfold is_data_line; intros ->; apply andb_false_r. Qed.

Lemma delivered_ignorable line : ignorable line = true -> delivered line = [].
Proof.
  unfold ignorable, Api.delivered. intros H.
  apply orb_true_iff in H as [H|H].
  - apply negb_true_iff in H. now rewrite startsWith_data_line.
  - unfold Api.frame_content. fold (payload line). rewrite H.
    now destruct (is_data_line line).
Qed.

(** C4. A line whose payload is the sentinel [[DONE]], and a line that does
    not start with the data prefix, contribute nothing: the deltas
    delivered and the answer returned are those of the other lines. *)
Theorem sentinel_and_foreign_lines_ignored reads before line after :
  lines_of reads = before ++ line :: after ->
  ignorable line = true ->
  delivered line = []
  /\ processStreamingResponse (Streaming reads Closed)
     = streamed (flat_map delivered before ++ flat_map delivered after).
Proof.
  intros Hlines Hign. split; [now apply delivered_ignorable|].
  rewrite run_closed, Hlines, flat_map_app. simpl.
  now rewrite (delivered_ignorable _ Hign).
Qed.

(** A line that starts with the data prefix is not blank: the guard of the
    loop is the prefix test. *)
Lemma is_data_line_prefix line :
  is_data_line line = startsWith (str "data:") line.
Proof.
  unfold is_data_line.
  destruct (startsWith (str "data:") line) eqn:E; [|apply andb_false_r].
  destruct line as [|c line]; [discriminate|].
  change (str "data:") with (100%N :: str "ata:") in E.
  cbn [startsWith] in E. apply andb_true_iff in E as [Hc _].
  apply N.eqb_eq in Hc. subst c.
  pose proof (@trim_not_empty 100%N line eq_refl) as Hne.
  now destruct (trim (100%N :: line)).
Qed.







Ltac thrown :=
  match goal with
  | |- exists e, (_, Throw ?x) = _ => exists x; reflexivity
  end.

(** C7. A document that lacks [choices[0].message.content] ([choices]
    missing, not an array or empty, the first choice without an object
    [message], the message without [content]) makes the run throw: the
    error is reported to the callback and no result is returned. *)
Theorem invalid_document_throws doc :
  message_content doc = None ->
  exists e,
    processStreamingResponse (Document doc)
    = ([Call (Some (JStr (str "Error: " ++ message e))) true], Throw e).
Proof.
  intros Hfield. unfold message_content in Hfield.
  unfold Api.processStreamingResponse, process_document.
  destruct doc as [| | | | |ps]; simpl; try thrown.
  destruct (lookup (str "choices") ps) as [[| | | |[|choice rest]|]|];
    simpl; try thrown.
  destruct choice as [| | | | |cps]; simpl; try thrown.
  destruct (lookup (str "message") cps) as [[|[|]|r|[|c t]|l|mps]|];
    simpl; try thrown.
  - destruct (eqb r (str "0")); simpl; thrown.
  - rewrite Hfield. simpl. thrown.
Qed.

(** C10. When [sendOpenAICompatibleMessage] resolves, the record it returns
    holds the placeholder answer, an empty session identifier and an empty
    reference list whatever the response was; the answer itself comes only
    from running [processStream], which is [processStreamingResponse] on
    that response. *)
Theorem send_returns_placeholder chatAssistantId question fetched r :
  sendOpenAICompatibleMessage JSON_parse string_gt_zero
    chatAssistantId question fetched = Ok r ->
  answer r = str "Streaming response..."
  /\ send_sessionId r = []
  /\ send_reference r = []
  /\ exists response,
       fetched = Ok response
       /\ processStream r = fun _ => processStreamingResponse response.
Proof.
  unfold sendOpenAICompatibleMessage.
  destruct (negb (nonempty chatAssistantId)); [discriminate|].
  destruct (negb (nonempty (trim question))); [discriminate|].
  destruct fetched as [response|e]; simpl; [|discriminate].
  destruct (negb (response_truthy response)); [discriminate|].
  destruct (check_error_format response); simpl; [|discriminate].
  intros H; injection H as <-. simpl. repeat split. now exists response.
Qed.

End Engine.

End ApiFacts.

(* ================================================================= *)
(** ** The run with a callback that may throw *)

Module CallbackFacts.
Import JS JSFacts Api ApiFacts.

Section Engine.

Variable JSON_parse : jsstring -> res json.
Variable string_gt_zero : jsstring -> bool.
Variable throws : list event -> event -> option exn.

Local Abbreviation delivered := (Api.delivered JSON_parse string_gt_zero).
Local Abbreviation run := (Callback.processStreamingResponse JSON_parse string_gt_zero throws).

Local Abbreviation caught := (Callback.caught throws).
Local Abbreviation report := Callback.report.

(** A delta that throws is caught with its line: the loop goes on as with
    a callback that returns. *)
Lemma process_line_any st line :
  Callback.process_line JSON_parse string_gt_zero throws st line
  = Api.process_line JSON_parse string_gt_zero st line.
Proof.
  unfold Callback.process_line, Api.process_line.
  destruct (is_data_line line); [|reflexivity].
  unfold Callback.try_line, Api.try_line.
  destruct (Api.frame_content JSON_parse string_gt_zero line) as [[c|]|e];
    simpl; try reflexivity.
  unfold Callback.deliver, Api.deliver. simpl.
  now destruct (ToString c).
Qed.

Lemma fold_process_line_any lines : forall st,
  fold_left (Callback.process_line JSON_parse string_gt_zero throws) lines st
  = fold_left (Api.process_line JSON_parse string_gt_zero) lines st.
Proof.
  induction lines as [|l ls IH]; intros st; simpl; [reflexivity|].
  now rewrite process_line_any, IH.
Qed.

Lemma process_rest_one st line :
  Callback.process_rest JSON_parse string_gt_zero throws [line] st
  = Callback.process_line JSON_parse string_gt_zero throws st line.
Proof.
  unfold Callback.process_line; simpl.
  destruct (is_data_line line); [|reflexivity].
  destruct (Callback.try_line JSON_parse string_gt_zero throws st line)
    as [st' [[]|e]]; reflexivity.
Qed.

Lemma flush_any st :
  ~ In LF (buffer st) ->
  Callback.flush JSON_parse string_gt_zero throws st
  = Api.flush JSON_parse string_gt_zero st.
Proof.
  intros H. unfold Callback.flush, Api.flush.
  destruct (nonempty (trim (buffer st))); [|reflexivity].
  rewrite split_no_sep by exact H.
  now rewrite process_rest_one, process_rest_single, process_line_any.
Qed.

(** The loop with any callback: the state is the one of the loop with a
    callback that returns; the completion call may throw. *)
Lemma read_loop_any reads : forall decoder st ending,
  ~ In LF (buffer st) ->
  Callback.read_loop JSON_parse string_gt_zero throws decoder st reads ending
  = let st' := Api.after_reads JSON_parse string_gt_zero decoder st reads in
    match ending with
    | Closed =>
        Callback.invoke throws (Api.flush JSON_parse string_gt_zero st') completion
    | Aborted e => (st', Throw e)
    end.
Proof.
  intros decoder st ending Hbuf.
  pose (E := Error []).
  assert (H : forall reads decoder st, ~ In LF (buffer st) ->
            Callback.read_loop JSON_parse string_gt_zero throws decoder st reads ending
            = let st' := fst (Api.read_loop JSON_parse string_gt_zero
                                decoder st reads (Aborted E)) in
              match ending with
              | Closed =>
                  Callback.invoke throws
                    (Api.flush JSON_parse string_gt_zero st') completion
              | Aborted e => (st', Throw e)
              end).
  { clear. induction reads as [|value reads IH]; intros decoder st Hbuf.
    - simpl. destruct ending; [|reflexivity].
      now rewrite flush_any.
    - simpl.
      destruct (TextDecoder.decode decoder value) as [d1 o1].
      rewrite fold_process_line_any.
      rewrite IH; [reflexivity|].
      rewrite fold_process_line. simpl. apply last_split_no_sep. }
  rewrite H by exact Hbuf.
  now rewrite read_loop_spec by exact Hbuf.
Qed.

Local Abbreviation lines_of := Api.lines_of.

(** A stream that closes, with any callback. *)
Lemma run_closed_any reads :
  let ds := flat_map delivered (lines_of reads) in
  run (Streaming reads Closed)
  = match throws (deltas ds) completion with
    | None => streamed ds
    | Some x => caught (deltas ds ++ [completion]) x
    end.
Proof.
  intros ds.
  pose proof (run_closed JSON_parse string_gt_zero reads) as HA.
  unfold Api.processStreamingResponse in HA.
  rewrite read_loop_spec in HA by (simpl; tauto).
  unfold Callback.processStreamingResponse.
  rewrite read_loop_any by (simpl; tauto).
  cbv zeta. unfold finish in HA.
  set (st := Api.flush JSON_parse string_gt_zero
               (after_reads JSON_parse string_gt_zero TextDecoder.create init reads)) in *.
  unfold Callback.invoke. simpl in HA |- *.
  unfold streamed in HA. fold ds in HA.
  injection HA as Hc Hf.
  apply app_inj_tail in Hc as [Hc _].
  rewrite Hc.
  destruct (throws (deltas ds) completion) as [x|]; simpl.
  - reflexivity.
  - unfold streamed. now rewrite Hf.
Qed.

(** A stream whose read is rejected, with any callback. *)
Lemma run_aborted_any reads e :
  run (Streaming reads (Aborted e))
  = caught (deltas (flat_map delivered (removelast (lines_of reads)))) e.
Proof.
  unfold Callback.processStreamingResponse.
  rewrite read_loop_any by (simpl; tauto).
  rewrite after_reads_init. reflexivity.
Qed.

(** A document, with any callback. *)
Lemma run_document_any doc :
  run (Document doc)
  = match Api.process_document doc with
    | (_, Ok v) =>
        match throws [] (Call (fullContent v) true) with
        | None => ([Call (fullContent v) true], Ok v)
        | Some x => caught [Call (fullContent v) true] x
        end
    | (_, Throw e) => caught [] e
    end.
Proof.
  unfold Callback.processStreamingResponse, Callback.process_document,
    Api.process_document.
  match goal with
  | |- context [match ?x with Ok _ => _ | Throw _ => _ end] => destruct x
  end; simpl.
  - now destruct (throws [] (Call a true)).
  - reflexivity.
Qed.

(** With a callback that returns from the first final call it gets, the
    run is the run of [Api.processStreamingResponse]. *)
Lemma run_returning r :
  (forall made e,
     is_final e = true -> existsb is_final made = false -> throws made e = None) ->
  run r = Api.processStreamingResponse JSON_parse string_gt_zero r.
Proof.
  intros H. destruct r as [reads [|e]|doc].
  - rewrite run_closed_any, run_closed. cbv zeta.
    now rewrite H by (reflexivity || apply deltas_not_final).
  - rewrite run_aborted_any, run_aborted. unfold Callback.caught.
    now rewrite H by (reflexivity || apply deltas_not_final).
  - rewrite run_document_any.
    unfold Api.processStreamingResponse, Api.process_document.
    match goal with
    | |- context [match ?x with Ok _ => _ | Throw _ => _ end] => destruct x
    end; simpl.
    + now rewrite H.
    + unfold Callback.caught. now rewrite H.
Qed.

(** C2, as amended.  In every run, streaming or not, ending well or in an
    error, whatever the callback does: no call before the first call with
    [done = true] is final; when a stream closes, that call carries the
    empty text; and it is the only final call and the last call of the
    run, unless it is the completion call and the callback throws from it:
    then the error report of the [catch] follows, a second final call and
    the last one. *)
Theorem one_final_call (r : response) :
  exists earlier final,
    existsb is_final earlier = false
    /\ is_final final = true
    /\ match r with
       | Streaming _ Closed => chunk_of final = Some (JStr [])
       | _ => True
       end
    /\ fst (run r)
       = earlier ++ final
           :: match throws earlier final with
              | Some x => if Callback.completes r then [report x] else []
              | None => []
              end.
Proof.
  destruct r as [reads [|e]|doc].
  - rewrite run_closed_any. cbv zeta.
    exists (deltas (flat_map delivered (lines_of reads))), completion.
    split; [apply deltas_not_final|]. split; [reflexivity|].
    split; [reflexivity|]. cbn [Callback.completes].
    destruct (throws _ completion) as [x|]; [|reflexivity].
    unfold Callback.caught. cbn [fst]. now rewrite <- app_assoc.
  - rewrite run_aborted_any.
    exists (deltas (flat_map delivered (removelast (lines_of reads)))), (report e).
    split; [apply deltas_not_final|]. split; [reflexivity|].
    split; [exact I|]. cbn [Callback.completes].
    now destruct (throws _ (report e)).
  - rewrite run_document_any. unfold Callback.completes.
    destruct (Api.process_document doc) as [made [v|e]]; cbn [snd].
    + exists [], (Call (fullContent v) true).
      split; [reflexivity|]. split; [reflexivity|]. split; [exact I|].
      now destruct (throws [] (Call (fullContent v) true)).
    + exists [], (report e).
      split; [reflexivity|]. split; [reflexivity|]. split; [exact I|].
      now destruct (throws [] (report e)).
Qed.

End Engine.
End CallbackFacts.

(** ** The reply message while it streams *)

Module ConversationFacts.
Import JS JSFacts Conversation.

Lemma startsWith_app (a t : jsstring) : startsWith a (a ++ t) = true.
Proof.
  induction a as [|x a IH]; [reflexivity|].
  simpl. now rewrite N.eqb_refl, IH.
Qed.

Lemma grows_running acc texts : grows (running acc texts) = true.
Proof.
  revert acc; induction texts as [|t ts IH]; intros acc; [reflexivity|].
  simpl. specialize (IH (acc ++ t)).
  destruct ts as [|t' ts]; [reflexivity|].
  simpl in *. now rewrite startsWith_app, IH.
Qed.

Lemma on_chunk_fold responseMessageId calls : forall st,
  let st' := fold_left (on_chunk responseMessageId) calls st in
  updates st' = updates st ++ running (fullAnswer st) (chunk_texts calls)
  /\ fullAnswer st' = fullAnswer st ++ concat (chunk_texts calls).
Proof.
  induction calls as [|[chunk done] calls IH]; intros st; simpl.
  - now rewrite !app_nil_r.
  - destruct done; simpl; [apply IH|].
    destruct (ToString_value chunk) as [text|e]; simpl; [|apply IH].
    destruct (IH {| fullAnswer := fullAnswer st ++ text;
                    messages := updateMessageContent (messages st)
                                  responseMessageId (fullAnswer st ++ text);
                    updates := updates st ++ [fullAnswer st ++ text] |})
      as [Hu Hf].
    simpl in Hu, Hf. split.
    + rewrite Hu, <- app_assoc. reflexivity.
    + rewrite Hf, <- app_assoc. reflexivity.
Qed.

(** C8. While a reply streams, the values passed to [updateMessageContent]
    for the reply message are the running concatenations of the delta
    texts, one more delta each time: every value has the one before it as
    a prefix. *)
Theorem content_grows responseMessageId msgs calls :
  let st := stream_into responseMessageId msgs calls in
  updates st = running [] (chunk_texts calls)
  /\ grows (updates st) = true
  /\ fullAnswer st = concat (chunk_texts calls).
Proof.
  destruct (on_chunk_fold responseMessageId calls
              {| fullAnswer := []; messages := msgs; updates := [] |})
    as [Hu Hf].
  simpl in Hu, Hf. unfold stream_into. cbv zeta.
  rewrite Hu, Hf. repeat split. apply grows_running.
Qed.

(** The message array follows: the first message with the identifier holds
    the value passed. *)
Lemma updateMessageContent_sets msgs messageId c :
  messageId <> [] ->
  (exists m, In m msgs /\ id m = messageId) ->
  exists before m after,
    updateMessageContent msgs messageId c = before ++ with_content m c :: after
    /\ msgs = before ++ m :: after
    /\ id m = messageId
    /\ Forall (fun m' => id m' <> messageId) before.
Proof.
  intros Hid Hex. unfold updateMessageContent.
  destruct messageId as [|x messageId]; [easy|]. clear Hid.
  induction msgs as [|m ms IH]; [destruct Hex as (? & [] & _)|].
  simpl. destruct (eqb (id m) (x :: messageId)) eqn:E.
  - apply eqb_eq in E. now exists [], m, ms.
  - assert (Hne : id m <> x :: messageId).
    { intros H. apply eqb_eq in H. congruence. }
    destruct IH as (before & m' & after & H1 & H2 & H3 & H4).
    + destruct Hex as (m0 & [->|Hin] & H0); [easy|]. now exists m0.
    + exists (m :: before), m', after. simpl. rewrite H1, H2.
      repeat split; auto.
Qed.

End ConversationFacts.

(** ** Matching and replacing *)

Module RegexFacts.
Import JS Regex.

Lemma greedy_le c k s n :
  (forall u m, k u = Some m -> m <= length u) ->
  greedy c k s = Some n -> n <= length s.
Proof.
  intros Hk; revert n; induction s as [|x s IH]; intros n; simpl.
  - apply Hk.
  - destruct (c x).
    + destruct (greedy c k s) as [m|] eqn:E.
      * intros [= <-]. specialize (IH m eq_refl). lia.
      * intros H. apply Hk in H. exact H.
    + intros H. apply Hk in H. exact H.
Qed.

Lemma lazy_le c k s n :
  (forall u m, k u = Some m -> m <= length u) ->
  lazy c k s = Some n -> n <= length s.
Proof.
  intros Hk; revert n; induction s as [|x s IH]; intros n; simpl.
  - destruct (k []) eqn:E; [intros [= <-]; now apply Hk in E|discriminate].
  - destruct (k (x :: s)) eqn:E; [intros [= <-]; now apply Hk in E|].
    destruct (c x); [|discriminate].
    destruct (lazy c k s) as [m|]; [|discriminate].
    intros [= <-]. specialize (IH m eq_refl). lia.
Qed.

(** A match is no longer than the text. *)
Lemma match_here_le p : forall s n, match_here p s = Some n -> n <= length s.
Proof.
  induction p as [|[c|c|c] p IH]; intros s n; simpl.
  - intros [= <-]. lia.
  - destruct s as [|x s]; [discriminate|].
    destruct (c x); [|discriminate].
    destruct (match_here p s) as [m|] eqn:E; [|discriminate].
    intros [= <-]. apply IH in E. simpl. lia.
  - apply greedy_le, IH.
  - apply lazy_le, IH.
Qed.

Lemma replace_from_skip p rep : forall s n,
  n <= length s ->
  replace_from p rep n s = replace_from p rep 0 (skipn n s).
Proof.
  induction s as [|c s IH]; intros [|n] H; try reflexivity.
  - simpl in H. lia.
  - simpl in H. cbn [replace_from skipn]. apply IH. lia.
Qed.

(** The scan at a position where the pattern matches [m]. *)
Lemma replace_all_match p rep m s :
  m <> [] ->
  match_here p (m ++ s) = Some (length m) ->
  replace_all p rep (m ++ s) = rep m ++ replace_all p rep s.
Proof.
  intros Hm H. destruct m as [|c m]; [easy|]. clear Hm.
  unfold replace_all. cbn [app replace_from]. cbn [app] in H. rewrite H.
  cbn [length]. rewrite replace_from_skip by (rewrite length_app; lia).
  rewrite skipn_app, Nat.sub_diag, skipn_all, skipn_O. cbn [app].
  change (c :: m ++ s) with ((c :: m) ++ s).
  rewrite firstn_app, Nat.sub_diag, firstn_O, app_nil_r.
  change (S (length m)) with (length (c :: m)). now rewrite firstn_all.
Qed.

(** The scan at a position where it does not match. *)
Lemma replace_all_no_match p rep c s :
  match_here p (c :: s) = None ->
  replace_all p rep (c :: s) = c :: replace_all p rep s.
Proof. intros H. unfold replace_all. cbn [replace_from]. now rewrite H. Qed.

(** A stretch of text with no match at any of its positions is copied. *)
Lemma replace_all_copy p rep a s :
  (forall a1 a2, a = a1 ++ a2 -> a2 <> [] -> match_here p (a2 ++ s) = None) ->
  replace_all p rep (a ++ s) = a ++ replace_all p rep s.
Proof.
  induction a as [|c a IH]; intros H; [reflexivity|].
  cbn [app]. rewrite replace_all_no_match.
  - rewrite IH; [reflexivity|].
    intros a1 a2 E Hne. apply (H (c :: a1) a2); [now rewrite E|exact Hne].
  - apply (H [] (c :: a)); [reflexivity|discriminate].
Qed.

(** A pattern that starts with a unit of class [f] matches only there. *)
Lemma match_here_first f p c s :
  f c = false -> match_here (One f :: p) (c :: s) = None.
Proof. intros H; simpl; now rewrite H. Qed.

Lemma replace_all_copy_first f p rep a s :
  Forall (fun c => f c = false) a ->
  replace_all (One f :: p) rep (a ++ s) = a ++ replace_all (One f :: p) rep s.
Proof.
  intros H. apply replace_all_copy. intros a1 a2 E Hne.
  destruct a2 as [|c a2]; [easy|]. cbn [app]. apply match_here_first.
  rewrite E in H. apply Forall_app in H as [_ H]. now inversion H.
Qed.

Lemma remove_all_nil p : remove_all p [] = [].
Proof.
  unfold remove_all, replace_all, by_text; simpl.
  now destruct (match_here p []).
Qed.

(** Replacing keeps a property of the units that the replacements keep. *)
Lemma replace_from_Forall (P : N -> Prop) p rep :
  (forall m, Forall P m -> Forall P (rep m)) ->
  forall s n, Forall P s -> Forall P (replace_from p rep n s).
Proof.
  intros Hrep. induction s as [|c s IH]; intros n Hs.
  - destruct n; simpl; [|constructor].
    destruct (match_here p []); [apply Hrep|]; constructor.
  - inversion Hs as [|? ? Hc Hs']; subst.
    destruct n as [|n]; cbn [replace_from]; [|now apply IH].
    destruct (match_here p (c :: s)) as [[|n]|].
    + apply Forall_app; split; [apply Hrep; constructor|].
      constructor; [exact Hc|now apply IH].
    + apply Forall_app; split; [|now apply IH].
      apply Hrep. rewrite <- (firstn_skipn (S n) (c :: s)) in Hs.
      now apply Forall_app in Hs.
    + constructor; [exact Hc|now apply IH].
Qed.

(** [c*] over a run of [c] that ends before [u], when the rest matches
    there: the whole run is taken. *)
Lemma greedy_run c k r u n :
  Forall (fun x => c x = true) r ->
  match u with x :: _ => c x = false | [] => True end ->
  k u = Some n ->
  greedy c k (r ++ u) = Some (length r + n).
Proof.
  intros Hr Hu Hk. induction Hr as [|x r Hx Hr IH]; simpl.
  - destruct u as [|y u]; simpl; [exact Hk|]. now rewrite Hu.
  - now rewrite Hx, IH.
Qed.

(** The same run when the rest matches neither after it nor, backing off,
    inside it. *)
Lemma greedy_run_none c k r u :
  Forall (fun x => c x = true) r ->
  match u with x :: _ => c x = false | [] => True end ->
  k u = None ->
  (forall x s, c x = true -> k (x :: s) = None) ->
  greedy c k (r ++ u) = None.
Proof.
  intros Hr Hu Hk Hback. induction Hr as [|x r Hx Hr IH]; simpl.
  - destruct u as [|y u]; simpl; [exact Hk|]. now rewrite Hu.
  - rewrite Hx, IH. now apply Hback.
Qed.

(** A pattern that starts with a unit does not match the empty text. *)
Lemma match_One_positive f p s n : match_here (One f :: p) s = Some n -> n <> 0.
Proof.
  destruct s as [|x s]; simpl; [discriminate|].
  destruct (f x); [|discriminate].
  destruct (match_here p s); simpl; [intros [= <-]|]; discriminate.
Qed.

(** What [c*] took: a run of [c], then what the rest matched. *)
Lemma greedy_sound c k s n :
  greedy c k s = Some n ->
  exists r u m, s = r ++ u /\ Forall (fun x => c x = true) r
                /\ k u = Some m /\ n = length r + m.
Proof.
  revert n; induction s as [|x s IH]; intros n; simpl.
  - intros H. now exists [], [], n.
  - destruct (c x) eqn:Hx.
    + destruct (greedy c k s) as [m|] eqn:E.
      * intros [= <-]. destruct (IH m eq_refl) as (r & u & m' & -> & Hr & Hk & ->).
        exists (x :: r), u, m'. repeat split; auto.
      * intros H. now exists [], (x :: s), n.
    + intros H. now exists [], (x :: s), n.
Qed.

End RegexFacts.

(** ** The transcript writer *)

Module MarkdownFacts.
Import JS JSFacts Regex RegexFacts Conversation Markdown.


(** *** Temporary messages *)

Lemma format_fold (f : Message -> jsstring) msgs : forall acc,
  fold_left (fun markdown m => markdown ++ f m) msgs acc
  = acc ++ concat (map f msgs).
Proof.
  induction msgs as [|m msgs IH]; intros acc; simpl.
  - now rewrite app_nil_r.
  - now rewrite IH, app_assoc.
Qed.

Lemma format_as_blocks settings date msgs :
  formatConversationAsMarkdown settings date msgs
  = header settings date ++ concat (map format_message msgs).
Proof. apply format_fold. Qed.

Lemma format_temporary m : isTemporary m = true -> format_message m = [].
Proof. unfold format_message; now intros ->. Qed.

Lemma blocks_without_temporary msgs :
  concat (map format_message msgs)
  = concat (map format_message (filter (fun m => negb (isTemporary m)) msgs)).
Proof.
  induction msgs as [|m msgs IH]; [reflexivity|].
  simpl. destruct (isTemporary m) eqn:E; simpl.
  - now rewrite format_temporary.
  - now rewrite IH.
Qed.

(** *** Characters *)

Lemma opener_cases c :
  opener c = true ->
  c = 60%N \/ c = 35%N \/ c = 36%N \/ c = 91%N \/ c = 40%N \/ c = 123%N.
Proof.
  unfold opener.
  change (str "<#$[({") with [60; 35; 36; 91; 40; 123]%N.
  cbn [existsb]. rewrite !orb_true_iff, !N.eqb_eq. intuition discriminate.
Qed.

Lemma class_not_opener (f : N -> bool) c :
  f 60%N = false -> f 35%N = false -> f 36%N = false ->
  f 91%N = false -> f 40%N = false -> f 123%N = false ->
  f c = true -> opener c = false.
Proof.
  intros H1 H2 H3 H4 H5 H6 Hc. destruct (opener c) eqn:E; [|reflexivity].
  apply opener_cases in E. 
  destruct E as [-> | [-> | [-> | [-> | [-> | ->]]]]]; congruence.
Qed.

Lemma digit_not_opener c : digit c = true -> opener c = false.
Proof. now apply class_not_opener. Qed.

Lemma space_not_opener c : space c = true -> opener c = false.
Proof. now apply class_not_opener. Qed.

Lemma letter_not_opener l c :
  (l = 114 \/ l = 101 \/ l = 102)%N -> letter_i l c = true -> opener c = false.
Proof. intros [-> | [-> | ->]]; now apply class_not_opener. Qed.


Lemma digit_cases c :
  digit c = true -> In c [48; 49; 50; 51; 52; 53; 54; 55; 56; 57]%N.
Proof.
  unfold digit. rewrite andb_true_iff, !N.leb_le. intros [H1 H2].
  assert (c = 48 \/ c = 49 \/ c = 50 \/ c = 51 \/ c = 52 \/ c = 53 \/ c = 54
          \/ c = 55 \/ c = 56 \/ c = 57)%N by lia.
  simpl. intuition.
Qed.

(** A class that holds no digit. *)
Lemma not_digit (f : N -> bool) c :
  forallb (fun d => negb (f d)) [48; 49; 50; 51; 52; 53; 54; 55; 56; 57]%N = true ->
  digit c = true -> f c = false.
Proof.
  intros H Hc. apply digit_cases in Hc.
  rewrite forallb_forall in H. apply H in Hc. now apply negb_true_iff.
Qed.

Lemma digit_not_space c : digit c = true -> space c = false.
Proof. now apply not_digit. Qed.

Lemma space_not_digit c : space c = true -> digit c = false.
Proof.
  intros H. destruct (digit c) eqn:E; [|reflexivity].
  apply digit_not_space in E. congruence.
Qed.

Lemma letter_cases l c : letter_i l c = true -> c = l \/ c = (l - 32)%N.
Proof. unfold letter_i. rewrite orb_true_iff, !N.eqb_eq. tauto. Qed.

(** *** Tokens *)

Lemma number_spec ds :
  number ds = true ->
  exists d ds', ds = d :: ds' /\ digit d = true
                /\ Forall (fun c => digit c = true) ds'.
Proof.
  destruct ds as [|d ds]; [discriminate|]. simpl.
  rewrite andb_true_iff, forallb_forall. intros [Hd Hds].
  exists d, ds. repeat split; auto. now apply Forall_forall.
Qed.

Lemma number_digits ds : number ds = true -> Forall (fun c => digit c = true) ds.
Proof.
  intros H. apply number_spec in H as (d & ds' & -> & Hd & Hds).
  now constructor.
Qed.

Lemma blanks_spec ws : blanks ws = true -> Forall (fun c => space c = true) ws.
Proof. unfold blanks. rewrite forallb_forall. apply Forall_forall. Qed.

Lemma ref_word_spec w :
  ref_word w = true ->
  exists r e f, w = [r; e; f] /\ letter_i 114 r = true
                /\ letter_i 101 e = true /\ letter_i 102 f = true.
Proof.
  destruct w as [|r [|e [|f [|? ?]]]]; try discriminate. simpl.
  rewrite !andb_true_iff. intros [[Hr He] Hf]. now exists r, e, f.
Qed.

Lemma tame_digits own ds :
  Forall (fun c => digit c = true) ds -> Forall (tame own) ds.
Proof.
  intros H. eapply Forall_impl; [|exact H].
  intros c Hc. left. now apply digit_not_opener.
Qed.

Lemma tame_blanks own ws :
  Forall (fun c => space c = true) ws -> Forall (tame own) ws.
Proof.
  intros H. eapply Forall_impl; [|exact H].
  intros c Hc. left. now apply space_not_opener.
Qed.

Ltac tame_literal := first [left; reflexivity | right; simpl; tauto].

Lemma text_tame t :
  well_formed t = true -> Forall (tame (own_openers t)) (text t).
Proof.
  destruct t as [c|ds|ds|w ws ds|ws1 w ws2 ws3 ds ws4|ds| |w]; simpl; intros H.
  - constructor; [|constructor]. left. now apply negb_true_iff.
  - apply number_digits in H.
    repeat (constructor; [tame_literal|]).
    apply Forall_app; split; [now apply tame_digits|].
    repeat (constructor; [tame_literal|]). constructor.
  - apply number_digits in H.
    repeat (constructor; [tame_literal|]).
    apply Forall_app; split; [now apply tame_digits|].
    repeat (constructor; [tame_literal|]). constructor.
  - rewrite !andb_true_iff in H. destruct H as [[Hw Hws] Hds].
    apply ref_word_spec in Hw as (r & e & f & -> & Hr & He & Hf).
    apply blanks_spec in Hws. apply number_digits in Hds.
    constructor; [tame_literal|].
    constructor; [left; eapply letter_not_opener; [|exact Hr]; tauto|].
    constructor; [left; eapply letter_not_opener; [|exact He]; tauto|].
    constructor; [left; eapply letter_not_opener; [|exact Hf]; tauto|].
    constructor; [tame_literal|].
    apply Forall_app; split; [now apply tame_blanks|].
    apply Forall_app; split; [now apply tame_digits|].
    repeat (constructor; [tame_literal|]). constructor.
  - rewrite !andb_true_iff in H.
    destruct H as [[[[[H1 Hw] H2] H3] Hds] H4].
    apply ref_word_spec in Hw as (r & e & f & -> & Hr & He & Hf).
    apply blanks_spec in H1, H2, H3, H4. apply number_digits in Hds.
    constructor; [tame_literal|].
    apply Forall_app; split; [now apply tame_blanks|].
    constructor; [left; eapply letter_not_opener; [|exact Hr]; tauto|].
    constructor; [left; eapply letter_not_opener; [|exact He]; tauto|].
    constructor; [left; eapply letter_not_opener; [|exact Hf]; tauto|].
    apply Forall_app; split; [now apply tame_blanks|].
    constructor; [tame_literal|].
    apply Forall_app; split; [now apply tame_blanks|].
    apply Forall_app; split; [now apply tame_digits|].
    apply Forall_app; split; [now apply tame_blanks|].
    repeat (constructor; [tame_literal|]). constructor.
  - apply number_digits in H.
    repeat (constructor; [tame_literal|]). now apply tame_digits.
  - repeat (constructor; [tame_literal|]). constructor.
  - apply Forall_forall. intros c _.
    destruct (opener c) eqn:E; [right|now left].
    apply opener_cases in E. simpl. intuition.
Qed.

(** A token that does not own the opener [x] does not hold it. *)
Lemma text_lacks x t :
  well_formed t = true -> opener x = true -> ~ In x (own_openers t) ->
  Forall (fun c => N.eqb x c = false) (text t).
Proof.
  intros Hwf Hx Hown. eapply Forall_impl; [|apply text_tame, Hwf].
  intros c [Hc|Hc]; apply N.eqb_neq; intros ->; [congruence|tauto].
Qed.


Lemma texts_cons t ts : texts (t :: ts) = text t ++ texts ts.
Proof. reflexivity. Qed.

Lemma texts_app a b : texts (a ++ b) = texts a ++ texts b.
Proof. apply flat_map_app. Qed.

(** *** One pass over a sequence of tokens *)

Section Pass.

Variable p : pattern.
Variable Inv : token -> Prop.
Variable target : token -> bool.

(** The text that ends the content; the pass copies it. *)
Variable tail : jsstring.
Hypothesis stop : remove_all p tail = tail.

(** At a token the pass either copies it and goes on, or deletes it
    together with some of the tokens that follow. *)
Hypothesis step : forall t rest,
  Inv t -> Forall Inv rest ->
  (target t = false
   /\ remove_all p (text t ++ texts rest ++ tail)
      = text t ++ remove_all p (texts rest ++ tail))
  \/ (exists eaten rest',
        rest = eaten ++ rest'
        /\ remove_all p (text t ++ texts rest ++ tail)
           = remove_all p (texts rest' ++ tail)).

Lemma pass_bounded n : forall ts,
  length ts <= n -> Forall Inv ts ->
  exists ts', remove_all p (texts ts ++ tail) = texts ts' ++ tail
              /\ incl ts' ts
              /\ Forall (fun t => target t = false) ts'.
Proof.
  induction n as [|n IH]; intros ts Hlen Hinv.
  - destruct ts; [|simpl in Hlen; lia].
    exists []. simpl. rewrite stop. repeat split; [easy|constructor].
  - destruct ts as [|t rest].
    { exists []. simpl. rewrite stop. repeat split; [easy|constructor]. }
    inversion Hinv as [|? ? Ht Hrest]; subst. simpl in Hlen.
    rewrite texts_cons, <- app_assoc.
    destruct (step Ht Hrest) as [[Htarget Heq]|(eaten & rest' & -> & Heq)].
    + destruct (IH rest ltac:(lia) Hrest) as (ts' & E & Hincl & Hno).
      exists (t :: ts'). rewrite Heq, E, texts_cons, <- app_assoc.
      repeat split.
      * intros x [->|Hx]; [now left|right; now apply Hincl].
      * now constructor.
    + apply Forall_app in Hrest as [_ Hrest'].
      rewrite length_app in Hlen.
      destruct (IH rest' ltac:(lia) Hrest') as (ts' & E & Hincl & Hno).
      exists ts'. rewrite Heq, E. repeat split; [|exact Hno].
      intros x Hx. right. apply in_or_app. right. now apply Hincl.
Qed.

Lemma pass_tokens ts :
  Forall Inv ts ->
  exists ts', remove_all p (texts ts ++ tail) = texts ts' ++ tail
              /\ incl ts' ts
              /\ Forall (fun t => target t = false) ts'.
Proof. now apply (pass_bounded (n := length ts)). Qed.

End Pass.

(** Copying a token that lacks the unit a pattern starts with. *)
Lemma copy_token x p t u :
  well_formed t = true -> opener x = true -> ~ In x (own_openers t) ->
  remove_all (One (N.eqb x) :: p) (text t ++ u)
  = text t ++ remove_all (One (N.eqb x) :: p) u.
Proof.
  intros Hwf Hx Hown. apply replace_all_copy_first.
  now apply text_lacks.
Qed.

(** Deleting a match that is a token and the tokens [eaten]. *)
Lemma text_not_nil t : marker t = true -> text t <> [].
Proof. destruct t; discriminate. Qed.

Lemma eat_tokens p t eaten rest' u :
  marker t = true ->
  match_here p (text t ++ texts (eaten ++ rest') ++ u)
  = Some (length (text t ++ texts eaten)) ->
  remove_all p (text t ++ texts (eaten ++ rest') ++ u)
  = remove_all p (texts rest' ++ u).
Proof.
  intros Hne%text_not_nil H. unfold remove_all.
  rewrite texts_app, <- app_assoc, app_assoc in *.
  rewrite replace_all_match; [reflexivity| |exact H].
  destruct (text t); [easy|discriminate].
Qed.


(** *** The marker patterns on their tokens *)

Lemma match_One f p x s :
  match_here (One f :: p) (x :: s)
  = if f x then option_map S (match_here p s) else None.
Proof. reflexivity. Qed.

Lemma match_Star c p s :
  match_here (Star c :: p) s = greedy c (match_here p) s.
Proof. reflexivity. Qed.

Lemma match_nil s : match_here [] s = Some 0.
Proof. reflexivity. Qed.

Ltac lengths :=
  unfold text;
  repeat (progress (cbn [str list_ascii_of_string map app length option_map];
                    rewrite ?length_app));
  try reflexivity; f_equal; lia.

Lemma bracket_match ds u :
  number ds = true ->
  match_here bracket_ref (text (BracketRef ds) ++ u)
  = Some (length (text (BracketRef ds))).
Proof.
  intros H. apply number_spec in H as (d & ds' & -> & Hd & Hds).
  change bracket_ref with [One (N.eqb 91); One digit; Star digit; One (N.eqb 93)].
  change (text (BracketRef (d :: ds')) ++ u) with (91%N :: d :: (ds' ++ [93%N]) ++ u).
  rewrite <- app_assoc.
  rewrite !match_One, Hd, match_Star. cbn [N.eqb Pos.eqb].
  erewrite greedy_run; [| exact Hds | reflexivity | reflexivity].
  lengths.
Qed.

Lemma hash_dollar_match ds u :
  number ds = true ->
  match_here hash_dollar_ref (text (HashDollarRef ds) ++ u)
  = Some (length (text (HashDollarRef ds))).
Proof.
  intros H. apply number_spec in H as (d & ds' & -> & Hd & Hds).
  change hash_dollar_ref
    with [One (N.eqb 35); One (N.eqb 35); One digit; Star digit;
          One (N.eqb 36); One (N.eqb 36)].
  change (text (HashDollarRef (d :: ds')) ++ u)
    with (35%N :: 35%N :: d :: (ds' ++ [36%N; 36%N]) ++ u).
  rewrite <- app_assoc.
  rewrite !match_One, Hd, match_Star. cbn [N.eqb Pos.eqb].
  erewrite greedy_run; [| exact Hds | reflexivity | reflexivity].
  lengths.
Qed.

Lemma dollars_match u :
  match_here dollars (text Dollars ++ u) = Some (length (text Dollars)).
Proof. reflexivity. Qed.

(** The blanks of a marker end where its next part begins. *)
Lemma blanks_then c k ws x u n :
  blanks ws = true -> c = space -> space x = false ->
  k (x :: u) = Some n ->
  greedy c k (ws ++ x :: u) = Some (length ws + n).
Proof.
  intros Hws -> Hx Hk. apply greedy_run; [now apply blanks_spec|exact Hx|exact Hk].
Qed.

Lemma letter_not_space l c :
  (l = 114 \/ l = 101 \/ l = 102)%N -> letter_i l c = true -> space c = false.
Proof.
  intros Hl Hc. apply letter_cases in Hc.
  destruct Hl as [-> | [-> | ->]]; destruct Hc as [-> | ->]; reflexivity.
Qed.

Lemma paren_match w ws ds u :
  well_formed (ParenRef w ws ds) = true ->
  match_here paren_ref (text (ParenRef w ws ds) ++ u)
  = Some (length (text (ParenRef w ws ds))).
Proof.
  intros H. simpl in H. rewrite !andb_true_iff in H.
  destruct H as [[Hw Hws] Hds].
  apply ref_word_spec in Hw as (r & e & f & -> & Hr & He & Hf).
  apply number_spec in Hds as (d & ds' & -> & Hd & Hds).
  change paren_ref
    with [One (N.eqb 40); One (letter_i 114); One (letter_i 101);
          One (letter_i 102); One (N.eqb 58); Star space;
          One digit; Star digit; One (N.eqb 41)].
  change (text (ParenRef [r; e; f] ws (d :: ds')) ++ u)
    with (40%N :: r :: e :: f :: 58%N :: (ws ++ (d :: ds') ++ [41%N]) ++ u).
  rewrite <- !app_assoc. cbn [app].
  rewrite !match_One, Hr, He, Hf, match_Star. cbn [N.eqb Pos.eqb].
  erewrite blanks_then;
    [| exact Hws | reflexivity | now apply digit_not_space |].
  2:{ rewrite match_One, Hd, match_Star.
      erewrite greedy_run; [| exact Hds | reflexivity | reflexivity].
      reflexivity. }
  lengths.
Qed.

Lemma brace_match ws1 w ws2 ws3 ds ws4 u :
  well_formed (BraceRef ws1 w ws2 ws3 ds ws4) = true ->
  match_here brace_ref (text (BraceRef ws1 w ws2 ws3 ds ws4) ++ u)
  = Some (length (text (BraceRef ws1 w ws2 ws3 ds ws4))).
Proof.
  intros H. simpl in H. rewrite !andb_true_iff in H.
  destruct H as [[[[[H1 Hw] H2] H3] Hds] H4].
  apply ref_word_spec in Hw as (r & e & f & -> & Hr & He & Hf).
  apply number_spec in Hds as (d & ds' & -> & Hd & Hds).
  change brace_ref
    with [One (N.eqb 123); Star space; One (letter_i 114); One (letter_i 101);
          One (letter_i 102); Star space; One (N.eqb 58); Star space;
          One digit; Star digit; Star space; One (N.eqb 125)].
  change (text (BraceRef ws1 [r; e; f] ws2 ws3 (d :: ds') ws4) ++ u)
    with (123%N :: (ws1 ++ [r; e; f] ++ ws2 ++ [58%N] ++ ws3 ++ (d :: ds')
                      ++ ws4 ++ [125%N]) ++ u).
  rewrite <- !app_assoc. cbn [app].
  rewrite match_One, match_Star. cbn [N.eqb Pos.eqb].
  assert (K4 : forall v, match_here [Star space; One (N.eqb 125)] (ws4 ++ 125%N :: v)
                         = Some (length ws4 + 1)).
  { intros v. rewrite match_Star.
    erewrite blanks_then; [reflexivity| exact H4 | reflexivity | reflexivity |].
    reflexivity. }
  assert (K3 : forall v,
             match_here [Star digit; Star space; One (N.eqb 125)]
               (ds' ++ ws4 ++ 125%N :: v)
             = Some (length ds' + (length ws4 + 1))).
  { intros v. rewrite match_Star.
    apply greedy_run; [exact Hds| |apply K4].
    destruct ws4 as [|x ws4]; [reflexivity|].
    simpl in H4. apply andb_true_iff in H4 as [Hx _].
    now apply space_not_digit. }
  erewrite blanks_then;
    [| exact H1 | reflexivity | eapply letter_not_space; [|exact Hr]; tauto |].
  2:{ rewrite !match_One, Hr, He, Hf, match_Star.
      erewrite blanks_then; [| exact H2 | reflexivity | reflexivity |].
      2:{ rewrite match_One, match_Star. cbn [N.eqb Pos.eqb].
          erewrite blanks_then;
            [| exact H3 | reflexivity | now apply digit_not_space |].
          2:{ rewrite match_One, Hd, K3. reflexivity. }
          reflexivity. }
      reflexivity. }
  lengths.
Qed.


(** *** Text in which no marker begins *)

Lemma fails_Star c p v :
  fails (Star c :: p) v
  = fails p v
    && match v with
       | x :: v' => if c x then fails (Star c :: p) v' else true
       | [] => false
       end.
Proof. now destruct v. Qed.

Lemma fails_nil p : fails p [] = false.
Proof.
  destruct p as [|[c|c|c] p]; try reflexivity.
  rewrite fails_Star. apply andb_false_r.
Qed.

(** A match that fails within [v] fails on every text that starts with
    [v]. *)
Lemma fails_sound p : forall v u,
  fails p v = true -> match_here p (v ++ u) = None.
Proof.
  induction p as [|[c|c|c] p IH]; intros v u; try discriminate.
  - destruct v as [|x v]; [discriminate|]. cbn [fails app].
    rewrite match_One. destruct (c x); [|reflexivity].
    intros H. now rewrite IH.
  - rewrite match_Star. induction v as [|x v IHv]; rewrite fails_Star.
    + now rewrite andb_false_r.
    + intros [Hk Hx]%andb_true_iff. cbn [app greedy].
      destruct (c x).
      * rewrite IHv by exact Hx. now apply (IH (x :: v)).
      * now apply (IH (x :: v)).
Qed.

(** [c*] finds a match when the rest matches after a run of [c]. *)
Lemma greedy_complete c k r u m :
  Forall (fun x => c x = true) r -> k u = Some m ->
  exists n, greedy c k (r ++ u) = Some n.
Proof.
  intros Hr Hk. induction Hr as [|x r Hx Hr [n IH]].
  - destruct u as [|y u]; simpl; [now exists m|].
    destruct (c y); [|now exists m].
    destruct (greedy c k u) as [n|]; [now exists (S n)|now exists m].
  - exists (S n). simpl. now rewrite Hx, IH.
Qed.

(** And only then: a match that does not fail within [v] succeeds on some
    text that starts with [v], when each unit of the pattern can be
    taken. *)
Lemma fails_complete p :
  Forall (fun a => match a with
                   | One c => exists x, c x = true
                   | Star _ => True
                   | LazyStar _ => False
                   end) p ->
  forall v, fails p v = false -> exists u n, match_here p (v ++ u) = Some n.
Proof.
  induction 1 as [|[c|c|c] p Ha Hp IH]; intros v H.
  - now exists [], 0.
  - destruct v as [|x v].
    + destruct Ha as [x Hx].
      pose proof (fails_nil p) as H0.
      destruct (IH _ H0) as (u & n & E). exists (x :: u), (S n).
      cbn [app] in *. now rewrite match_One, Hx, E.
    + cbn [fails] in H. destruct (c x) eqn:Hx; [|discriminate].
      destruct (IH _ H) as (u & n & E). exists u, (S n).
      cbn [app]. now rewrite match_One, Hx, E.
  - induction v as [|x v IHv].
    + pose proof (fails_nil p) as H0.
      destruct (IH _ H0) as (u & n & E). cbn [app] in E.
      destruct (@greedy_complete c (match_here p) [] u n (Forall_nil _) E)
        as [m Hm].
      exists u, m. now rewrite match_Star.
    + rewrite fails_Star in H. apply andb_false_iff in H as [H|H].
      * destruct (IH _ H) as (u & n & E).
        destruct (@greedy_complete c (match_here p) [] _ n (Forall_nil _) E)
          as [m Hm].
        exists u, m. now rewrite match_Star.
      * destruct (c x) eqn:Hx; [|discriminate].
        destruct (IHv H) as (u & n & E). rewrite match_Star in E.
        exists u, (S n). rewrite match_Star. cbn [app greedy].
        now rewrite Hx, E.
  - destruct Ha.
Qed.

Ltac in_watched := unfold watched, marker_patterns; cbn [app];
                   auto 10 using in_eq, in_cons.

Lemma marker_watched p : In p marker_patterns -> In p watched.
Proof. intros H. unfold watched. apply in_or_app. now left. Qed.

Ltac takes_units :=
  repeat (constructor;
          [try match goal with
               | |- exists x, N.eqb ?k x = true => exists k; reflexivity
               | |- exists x, digit x = true => exists 48%N; reflexivity
               | |- exists x, letter_i ?l x = true => exists l; reflexivity
               end; try exact I|]);
  try constructor.

(** For the watched patterns [fails] is exact: the match fails within [v]
    just when it fails on every text that starts with [v]. *)
Lemma watched_fails p v :
  In p watched ->
  fails p v = true <-> forall u, match_here p (v ++ u) = None.
Proof.
  intros Hp. split; [intros H u; now apply fails_sound|].
  intros H. destruct (fails p v) eqn:E; [reflexivity|exfalso].
  apply fails_complete in E as (u & n & E); [now rewrite H in E|].
  destruct Hp as [<-|[<-|[<-|[<-|[<-|[<-|[<-|[]]]]]]]].
  - change hash_dollar_ref
      with [One (N.eqb 35); One (N.eqb 35); One digit; Star digit;
            One (N.eqb 36); One (N.eqb 36)].
    takes_units.
  - change bracket_ref with [One (N.eqb 91); One digit; Star digit; One (N.eqb 93)].
    takes_units.
  - change paren_ref
      with [One (N.eqb 40); One (letter_i 114); One (letter_i 101);
            One (letter_i 102); One (N.eqb 58); Star space;
            One digit; Star digit; One (N.eqb 41)].
    takes_units.
  - change brace_ref
      with [One (N.eqb 123); Star space; One (letter_i 114); One (letter_i 101);
            One (letter_i 102); Star space; One (N.eqb 58); Star space;
            One digit; Star digit; Star space; One (N.eqb 125)].
    takes_units.
  - change hash_ref with [One (N.eqb 35); One (N.eqb 35); One digit; Star digit].
    takes_units.
  - change dollars with [One (N.eqb 36); One (N.eqb 36)].
    takes_units.
  - change loose_paren_ref
      with [One (N.eqb 40); One (letter_i 114); One (letter_i 101);
            One (letter_i 102); Star space; One (N.eqb 58); Star space;
            One digit; Star digit; One (N.eqb 41)].
    takes_units.
Qed.

Lemma dead_ends_suffix a b : dead_ends (a ++ b) = true -> dead_ends b = true.
Proof.
  induction a as [|c a IH]; [easy|]. cbn [app dead_ends].
  intros [_ H]%andb_true_iff. now apply IH.
Qed.

Lemma dead_ends_fails p x v :
  In p watched -> dead_ends (x :: v) = true -> fails p (x :: v) = true.
Proof.
  intros Hp H. cbn [dead_ends] in H. apply andb_true_iff in H as [H _].
  rewrite forallb_forall in H. now apply H.
Qed.

(** No watched pattern matches at a position of text in which no marker
    begins, whatever follows. *)
Lemma dead_no_match p w a1 a2 u :
  In p watched -> dead_ends w = true ->
  w = a1 ++ a2 -> a2 <> [] ->
  match_here p (a2 ++ u) = None.
Proof.
  intros Hp Hw -> Hne. apply dead_ends_suffix in Hw.
  destruct a2 as [|x a2]; [easy|].
  apply fails_sound. now apply dead_ends_fails.
Qed.

Lemma inert_dead w : well_formed (Inert w) = true -> dead_ends w = true.
Proof.
  simpl. destruct w as [|c w]; [discriminate|].
  now intros [_ H]%andb_true_iff.
Qed.

Lemma inert_head w :
  well_formed (Inert w) = true -> exists x v, w = x :: v /\ digit x = false.
Proof.
  simpl. destruct w as [|c w]; [discriminate|].
  intros [H _]%andb_true_iff. exists c, w. split; [reflexivity|].
  now apply negb_true_iff.
Qed.

(** Every pass for a marker copies such a text. *)
Lemma copy_inert p w u :
  In p marker_patterns -> well_formed (Inert w) = true ->
  remove_all p (w ++ u) = w ++ remove_all p u.
Proof.
  intros Hp Hw. apply replace_all_copy. intros a1 a2 E Hne.
  eapply dead_no_match; eauto using inert_dead, marker_watched.
Qed.

Lemma occurs_here p s n : match_here p s = Some n -> occurs p s = true.
Proof. intros H. destruct s; cbn [occurs]; now rewrite H. Qed.

Lemma occurs_cons p c s : occurs p s = true -> occurs p (c :: s) = true.
Proof. intros H. cbn [occurs]. now destruct (match_here p (c :: s)). Qed.

Lemma occurs_app_r p a b : occurs p b = true -> occurs p (a ++ b) = true.
Proof.
  intros H. induction a as [|c a IH]; [exact H|]. now apply occurs_cons.
Qed.

Lemma settled_spec p tail :
  In p watched -> settled tail = true -> occurs p tail = false.
Proof.
  intros Hp [_ H]%andb_true_iff. rewrite forallb_forall in H.
  apply H in Hp. now apply negb_true_iff.
Qed.

(** No watched pattern matches at a position of the text that ends the
    content. *)
Lemma settled_no_match p tail a1 a2 :
  In p watched -> settled tail = true ->
  tail = a1 ++ a2 -> match_here p a2 = None.
Proof.
  intros Hp Ht ->.
  destruct (match_here p a2) as [n|] eqn:E; [exfalso|reflexivity].
  apply occurs_here in E. apply (@occurs_app_r p a1) in E.
  rewrite (@settled_spec p _ Hp Ht) in E. discriminate.
Qed.

Lemma settled_head tail :
  settled tail = true ->
  match tail with x :: _ => digit x = false | [] => True end.
Proof.
  intros [H _]%andb_true_iff. destruct tail as [|x tail]; [exact I|].
  now apply negb_true_iff.
Qed.

(** Every pass for a marker copies the text that ends the content. *)
Lemma copy_tail p tail :
  In p marker_patterns -> settled tail = true -> remove_all p tail = tail.
Proof.
  intros Hp Ht. unfold remove_all.
  rewrite <- (app_nil_r tail) at 1. rewrite replace_all_copy.
  - fold (remove_all p []). now rewrite remove_all_nil, app_nil_r.
  - intros a1 a2 E _. rewrite app_nil_r.
    eapply settled_no_match; eauto using marker_watched.
Qed.

Lemma dollar_not_digit x : digit x = true -> N.eqb 36 x = false.
Proof. now apply (not_digit (N.eqb 36)). Qed.

Lemma hash_not_digit x : digit x = true -> N.eqb 35 x = false.
Proof. now apply (not_digit (N.eqb 35)). Qed.

Lemma plain_not x c : opener x = true -> wf (Plain c) -> N.eqb x c = false.
Proof.
  unfold wf; simpl. intros Hx Hc. apply negb_true_iff in Hc.
  apply N.eqb_neq. intros ->. congruence.
Qed.

Ltac in_markers := unfold marker_patterns; auto 10 using in_eq, in_cons.

Lemma dollars_first x s :
  N.eqb 36 x = false -> match_here dollars (x :: s) = None.
Proof.
  intros H. change dollars with [One (N.eqb 36); One (N.eqb 36)].
  now rewrite match_One, H.
Qed.

(** After [##] and digits, the pattern [##\d+\$\$] goes on through plain
    digits and then needs [$$]. *)
Lemma digits_then_dollars tail rest : forall run,
  settled tail = true ->
  Forall wf rest -> Forall (fun c => digit c = true) run ->
  greedy digit (match_here dollars) (run ++ texts rest ++ tail) = None
  \/ exists eaten rest',
       rest = eaten ++ rest'
       /\ greedy digit (match_here dollars) (run ++ texts rest ++ tail)
          = Some (length (run ++ texts eaten)).
Proof.
  intros run Htail; revert run.
  induction rest as [|t rest IH]; intros run Hrest Hrun.
  - left. apply greedy_run_none; [exact Hrun|now apply settled_head| |].
    + apply (@settled_no_match dollars tail [] tail); [in_watched|exact Htail|reflexivity].
    + intros x s Hx. apply dollars_first. now apply dollar_not_digit.
  - inversion Hrest as [|? ? Ht Hrest']; subst.
    assert (Hstop : forall x v,
               text t = x :: v -> digit x = false ->
               match_here dollars (text t ++ texts rest ++ tail) = None ->
               greedy digit (match_here dollars)
                 (run ++ texts (t :: rest) ++ tail) = None).
    { intros x v E Hx Hd. rewrite texts_cons, <- app_assoc.
      rewrite E in *. cbn [app] in *.
      apply greedy_run_none; [exact Hrun|exact Hx|exact Hd|].
      intros y s Hy. apply dollars_first. now apply dollar_not_digit. }
    destruct t as [c|ds|ds|w ws ds|ws1 w ws2 ws3 ds ws4|ds| |w].
    + destruct (digit c) eqn:Hc.
      * destruct (IH (run ++ [c]) Hrest') as [H|(eaten & rest' & -> & H)].
        { apply Forall_app; split; [exact Hrun|now constructor]. }
        { left. rewrite texts_cons. cbn [text app].
          now rewrite <- app_assoc in H. }
        { right. exists (Plain c :: eaten), rest'. split; [reflexivity|].
          rewrite texts_cons. cbn [text app].
          rewrite <- !app_assoc in H. cbn [app] in H. exact H. }
      * left. eapply Hstop; [reflexivity|exact Hc|].
        apply dollars_first. now apply plain_not.
    + left. now eapply Hstop.
    + left. now eapply Hstop.
    + left. now eapply Hstop.
    + left. now eapply Hstop.
    + left. now eapply Hstop.
    + right. exists [Dollars], rest. split; [reflexivity|].
      rewrite texts_cons.
      change (text Dollars ++ texts rest) with (36%N :: 36%N :: texts rest).
      cbn [app].
      erewrite greedy_run; [|exact Hrun|reflexivity|reflexivity].
      lengths.
    + left. destruct (@inert_head w Ht) as (x & v & E & Hx).
      eapply Hstop; [exact E|exact Hx|].
      eapply dead_no_match with (a1 := []);
        [in_watched|exact (@inert_dead w Ht)|reflexivity|].
      cbn [text]. rewrite E. discriminate.
Qed.

(** After [##] and digits, the pattern [##\d+] goes on through plain
    digits. *)
Lemma digits_run tail rest : forall run,
  settled tail = true ->
  Forall wf rest -> Forall (fun c => digit c = true) run ->
  exists eaten rest',
    rest = eaten ++ rest'
    /\ greedy digit (match_here []) (run ++ texts rest ++ tail)
       = Some (length (run ++ texts eaten)).
Proof.
  intros run Htail; revert run.
  induction rest as [|t rest IH]; intros run Hrest Hrun.
  - exists [], []. split; [reflexivity|]. cbn [texts flat_map app].
    erewrite greedy_run; [|exact Hrun|now apply settled_head|reflexivity].
    lengths.
  - inversion Hrest as [|? ? Ht Hrest']; subst.
    assert (Hstop : forall x v,
               text t = x :: v -> digit x = false ->
               exists eaten rest',
                 t :: rest = eaten ++ rest'
                 /\ greedy digit (match_here [])
                      (run ++ texts (t :: rest) ++ tail)
                    = Some (length (run ++ texts eaten))).
    { intros x v E Hx. exists [], (t :: rest). split; [reflexivity|].
      rewrite texts_cons, <- app_assoc, E. cbn [app].
      erewrite greedy_run; [|exact Hrun|exact Hx|reflexivity]. lengths. }
    destruct t as [c|ds|ds|w ws ds|ws1 w ws2 ws3 ds ws4|ds| |w];
      try (now eapply Hstop).
    + destruct (digit c) eqn:Hc; [|now eapply Hstop].
      destruct (IH (run ++ [c]) Hrest') as (eaten & rest' & -> & H).
      { apply Forall_app; split; [exact Hrun|now constructor]. }
      exists (Plain c :: eaten), rest'. split; [reflexivity|].
      rewrite texts_cons. cbn [text app].
      rewrite <- !app_assoc in H. cbn [app] in H. exact H.
    + destruct (@inert_head w Ht) as (x & v & E & Hx).
      eapply Hstop; [exact E|exact Hx].
Qed.


(** *** The six passes *)

Ltac copy_with x pat :=
  left; split; [reflexivity|];
  change pat with (One (N.eqb x) :: tl pat);
  apply copy_token; [assumption|reflexivity|simpl; intuition discriminate].

Ltac copy_text :=
  left; split; [reflexivity|]; apply copy_inert; [in_markers|assumption].

Ltac eat_alone H :=
  right; eexists [], _; split; [reflexivity|];
  apply (@eat_tokens _ _ []); [reflexivity|];
  cbn [texts flat_map app]; rewrite app_nil_r; apply H; assumption.

Section Steps.

Variable tail : jsstring.
Hypothesis tail_settled : settled tail = true.

Lemma step_hash_dollar t rest :
  wf t -> Forall wf rest ->
  (is_hash_dollar t = false
   /\ remove_all hash_dollar_ref (text t ++ texts rest ++ tail)
      = text t ++ remove_all hash_dollar_ref (texts rest ++ tail))
  \/ (exists eaten rest',
        rest = eaten ++ rest'
        /\ remove_all hash_dollar_ref (text t ++ texts rest ++ tail)
           = remove_all hash_dollar_ref (texts rest' ++ tail)).
Proof.
  intros Ht Hrest. unfold wf in Ht.
  destruct t as [c|ds|ds|w ws ds|ws1 w ws2 ws3 ds ws4|ds| |w];
    try (copy_with 35%N hash_dollar_ref).
  - eat_alone hash_dollar_match.
  - pose proof Ht as Hds. apply number_spec in Hds as (d & ds' & -> & Hd & Hds).
    assert (E : forall u,
               match_here hash_dollar_ref (text (HashRef (d :: ds')) ++ u)
               = option_map (fun n => S (S (S n)))
                   (greedy digit (match_here dollars) (ds' ++ u))).
    { intros u.
      change hash_dollar_ref
        with [One (N.eqb 35); One (N.eqb 35); One digit; Star digit;
              One (N.eqb 36); One (N.eqb 36)].
      change (text (HashRef (d :: ds')) ++ u) with (35%N :: 35%N :: d :: ds' ++ u).
      rewrite !match_One, Hd, match_Star. cbn [N.eqb Pos.eqb].
      change (match_here [One (N.eqb 36); One (N.eqb 36)])
        with (match_here dollars).
      now destruct (greedy _ _ _). }
    destruct (@digits_then_dollars tail rest ds' tail_settled Hrest Hds)
      as [H|(eaten & rest' & -> & H)].
    + left. split; [reflexivity|].
      change (text (HashRef (d :: ds')) ++ texts rest ++ tail)
        with (35%N :: (35%N :: (d :: ds') ++ texts rest ++ tail)).
      unfold remove_all. rewrite replace_all_no_match.
      2:{ change (35%N :: 35%N :: (d :: ds') ++ texts rest ++ tail)
            with (text (HashRef (d :: ds')) ++ texts rest ++ tail).
          now rewrite E, H. }
      rewrite replace_all_no_match.
      2:{ change hash_dollar_ref
            with [One (N.eqb 35); One (N.eqb 35); One digit; Star digit;
                  One (N.eqb 36); One (N.eqb 36)].
          cbn [app]. rewrite !match_One.
          now rewrite (hash_not_digit _ Hd). }
      change hash_dollar_ref with (One (N.eqb 35) :: tl hash_dollar_ref).
      rewrite replace_all_copy_first; [reflexivity|].
      eapply Forall_impl; [|exact (number_digits _ Ht)].
      intros c Hc. now apply hash_not_digit.
    + right. exists eaten, rest'. split; [reflexivity|].
      apply eat_tokens; [reflexivity|].
      rewrite E, H. lengths.
  - copy_text.
Qed.

Lemma step_bracket t rest :
  wf t -> Forall wf rest ->
  (is_bracket t = false
   /\ remove_all bracket_ref (text t ++ texts rest ++ tail)
      = text t ++ remove_all bracket_ref (texts rest ++ tail))
  \/ (exists eaten rest',
        rest = eaten ++ rest'
        /\ remove_all bracket_ref (text t ++ texts rest ++ tail)
           = remove_all bracket_ref (texts rest' ++ tail)).
Proof.
  intros Ht Hrest. unfold wf in Ht.
  destruct t as [c|ds|ds|w ws ds|ws1 w ws2 ws3 ds ws4|ds| |w];
    try (copy_with 91%N bracket_ref).
  - eat_alone bracket_match.
  - copy_text.
Qed.

Lemma step_paren t rest :
  wf t -> Forall wf rest ->
  (is_paren t = false
   /\ remove_all paren_ref (text t ++ texts rest ++ tail)
      = text t ++ remove_all paren_ref (texts rest ++ tail))
  \/ (exists eaten rest',
        rest = eaten ++ rest'
        /\ remove_all paren_ref (text t ++ texts rest ++ tail)
           = remove_all paren_ref (texts rest' ++ tail)).
Proof.
  intros Ht Hrest. unfold wf in Ht.
  destruct t as [c|ds|ds|w ws ds|ws1 w ws2 ws3 ds ws4|ds| |w];
    try (copy_with 40%N paren_ref).
  - eat_alone paren_match.
  - copy_text.
Qed.

Lemma step_brace t rest :
  wf t -> Forall wf rest ->
  (is_brace t = false
   /\ remove_all brace_ref (text t ++ texts rest ++ tail)
      = text t ++ remove_all brace_ref (texts rest ++ tail))
  \/ (exists eaten rest',
        rest = eaten ++ rest'
        /\ remove_all brace_ref (text t ++ texts rest ++ tail)
           = remove_all brace_ref (texts rest' ++ tail)).
Proof.
  intros Ht Hrest. unfold wf in Ht.
  destruct t as [c|ds|ds|w ws ds|ws1 w ws2 ws3 ds ws4|ds| |w];
    try (copy_with 123%N brace_ref).
  - eat_alone brace_match.
  - copy_text.
Qed.

Lemma later_wf rest : Forall later rest -> Forall wf rest.
Proof. apply Forall_impl. now intros t [H _]. Qed.

Lemma step_hash t rest :
  later t -> Forall later rest ->
  (is_hash t = false
   /\ remove_all hash_ref (text t ++ texts rest ++ tail)
      = text t ++ remove_all hash_ref (texts rest ++ tail))
  \/ (exists eaten rest',
        rest = eaten ++ rest'
        /\ remove_all hash_ref (text t ++ texts rest ++ tail)
           = remove_all hash_ref (texts rest' ++ tail)).
Proof.
  intros [Ht Hno] Hrest. apply later_wf in Hrest. unfold wf in Ht.
  destruct t as [c|ds|ds|w ws ds|ws1 w ws2 ws3 ds ws4|ds| |w];
    try discriminate; try (copy_with 35%N hash_ref).
  - pose proof Ht as Hds. apply number_spec in Hds as (d & ds' & -> & Hd & Hds).
    destruct (@digits_run tail rest ds' tail_settled Hrest Hds) as (eaten & rest' & -> & H).
    right. exists eaten, rest'. split; [reflexivity|].
    apply eat_tokens; [reflexivity|].
    change hash_ref with [One (N.eqb 35); One (N.eqb 35); One digit; Star digit].
    change (text (HashRef (d :: ds')) ++ texts (eaten ++ rest') ++ tail)
      with (35%N :: 35%N :: d :: ds' ++ texts (eaten ++ rest') ++ tail).
    rewrite !match_One, Hd, match_Star. cbn [N.eqb Pos.eqb].
    rewrite H. lengths.
  - copy_text.
Qed.

Lemma step_dollars t rest :
  later t -> Forall later rest ->
  (is_dollars t = false
   /\ remove_all dollars (text t ++ texts rest ++ tail)
      = text t ++ remove_all dollars (texts rest ++ tail))
  \/ (exists eaten rest',
        rest = eaten ++ rest'
        /\ remove_all dollars (text t ++ texts rest ++ tail)
           = remove_all dollars (texts rest' ++ tail)).
Proof.
  intros [Ht Hno] Hrest. unfold wf in Ht.
  destruct t as [c|ds|ds|w ws ds|ws1 w ws2 ws3 ds ws4|ds| |w];
    try discriminate; try (copy_with 36%N dollars).
  - right. exists [], rest. split; [reflexivity|].
    apply (@eat_tokens _ _ []); reflexivity.
  - copy_text.
Qed.

(** The deleting passes leave a content of markers and other text with
    its other text only, less the digits that followed a [##N]. *)
Lemma marker_passes ts :
  Forall wf ts ->
  exists ts',
    remove_all dollars
      (remove_all hash_ref
         (remove_all brace_ref
            (remove_all paren_ref
               (remove_all bracket_ref
                  (remove_all hash_dollar_ref (texts ts ++ tail))))))
    = texts ts' ++ tail
    /\ incl ts' ts
    /\ Forall (fun t => marker t = false) ts'.
Proof.
  intros Hwf.
  assert (Hstop : forall p, In p marker_patterns -> remove_all p tail = tail).
  { intros p Hp. now apply copy_tail. }
  destruct (@pass_tokens _ _ is_hash_dollar tail
              (Hstop hash_dollar_ref ltac:(in_markers)) step_hash_dollar _ Hwf)
    as (t3 & -> & I3 & N3).
  pose proof (incl_Forall I3 Hwf) as W3.
  destruct (@pass_tokens _ _ is_bracket tail
              (Hstop bracket_ref ltac:(in_markers)) step_bracket _ W3)
    as (t4 & -> & I4 & N4).
  pose proof (incl_Forall I4 W3) as W4.
  pose proof (incl_Forall I4 N3) as N34.
  destruct (@pass_tokens _ _ is_paren tail
              (Hstop paren_ref ltac:(in_markers)) step_paren _ W4)
    as (t5 & -> & I5 & N5).
  pose proof (incl_Forall I5 W4) as W5.
  destruct (@pass_tokens _ _ is_brace tail
              (Hstop brace_ref ltac:(in_markers)) step_brace _ W5)
    as (t6 & -> & I6 & N6).
  pose proof (incl_Forall I6 W5) as W6.
  assert (L6 : Forall later t6).
  { apply Forall_forall. intros t Ht. split.
    - now apply (proj1 (Forall_forall _ _) W6).
    - apply (proj1 (Forall_forall _ _) N3). apply I4, I5, I6, Ht. }
  destruct (@pass_tokens _ _ is_hash tail
              (Hstop hash_ref ltac:(in_markers)) step_hash _ L6)
    as (t7 & -> & I7 & N7).
  pose proof (incl_Forall I7 L6) as L7.
  destruct (@pass_tokens _ _ is_dollars tail
              (Hstop dollars ltac:(in_markers)) step_dollars _ L7)
    as (t8 & -> & I8 & N8).
  exists t8. split; [reflexivity|]. split.
  - intros t Ht. apply I3, I4, I5, I6, I7, I8, Ht.
  - apply Forall_forall. intros t Ht.
    pose proof (proj1 (Forall_forall _ _) N8 t Ht) as P8.
    pose proof (proj1 (Forall_forall _ _) N7 t (I8 t Ht)) as P7.
    pose proof (proj1 (Forall_forall _ _) N6 t (I7 t (I8 t Ht))) as P6.
    pose proof (proj1 (Forall_forall _ _) N5 t (I6 t (I7 t (I8 t Ht)))) as P5.
    pose proof (proj1 (Forall_forall _ _) N4 t (I5 t (I6 t (I7 t (I8 t Ht))))) as P4.
    pose proof (proj1 (Forall_forall _ _) N3 t
                  (I4 t (I5 t (I6 t (I7 t (I8 t Ht)))))) as P3.
    destruct t; simpl in *; congruence.
Qed.

End Steps.

(** *** No two [$] in a row *)


Lemma ndd_cons c s :
  no_double_dollar (c :: s)
  = negb (N.eqb c 36 && starts_dollar s) && no_double_dollar s.
Proof. destruct s; simpl; [now rewrite andb_false_r|reflexivity]. Qed.

Lemma ndd_tail c s : no_double_dollar (c :: s) = true -> no_double_dollar s = true.
Proof. rewrite ndd_cons. now intros [_ H]%andb_true_iff. Qed.

Lemma ndd_suffix a b : no_double_dollar (a ++ b) = true -> no_double_dollar b = true.
Proof. induction a as [|c a IH]; [easy|]. intros H. apply IH. now apply ndd_tail in H. Qed.

Lemma starts_dollar_app a b :
  starts_dollar a = true -> starts_dollar (a ++ b) = true.
Proof. now destruct a. Qed.

Lemma ndd_prefix a b : no_double_dollar (a ++ b) = true -> no_double_dollar a = true.
Proof.
  induction a as [|c a IH]; [easy|].
  cbn [app]. rewrite !ndd_cons, !andb_true_iff, !negb_true_iff.
  intros [H1 H2]. split; [|now apply IH].
  destruct (N.eqb c 36); [|reflexivity]. simpl in *.
  destruct (starts_dollar a) eqn:E; [|reflexivity].
  now rewrite (starts_dollar_app a b E) in H1.
Qed.

(** Text free of [$] in front of text free of [$$]. *)
Lemma ndd_app_clean a o :
  Forall (fun c => N.eqb c 36 = false) a ->
  no_double_dollar o = true -> no_double_dollar (a ++ o) = true.
Proof.
  induction 1 as [|c a Hc Ha IH]; intros Ho; [exact Ho|].
  cbn [app]. rewrite ndd_cons, Hc. simpl. now apply IH.
Qed.

Lemma ndd_app_sep a c b :
  N.eqb c 36 = false ->
  no_double_dollar a = true -> no_double_dollar b = true ->
  no_double_dollar (a ++ c :: b) = true.
Proof.
  intros Hc Ha Hb. induction a as [|x a IH].
  - simpl app. rewrite ndd_cons, Hc. exact Hb.
  - cbn [app]. rewrite ndd_cons in *. apply andb_true_iff in Ha as [H1 H2].
    rewrite IH by exact H2. rewrite andb_true_r.
    destruct a as [|y a]; [simpl; rewrite Hc; now rewrite andb_false_r|exact H1].
Qed.

(** *** The pass that deletes [$$] *)

Lemma dollars_no_match c s :
  N.eqb c 36 = false -> match_here dollars (c :: s) = None.
Proof.
  intros H. change dollars with [One (N.eqb 36); One (N.eqb 36)].
  cbn [match_here]. rewrite N.eqb_sym, H. reflexivity.
Qed.

Lemma dollars_single c s :
  N.eqb c 36 = false -> match_here dollars (36%N :: c :: s) = None.
Proof.
  intros H. change dollars with [One (N.eqb 36); One (N.eqb 36)].
  cbn [match_here]. rewrite (N.eqb_sym 36 c), H. reflexivity.
Qed.

Lemma remove_dollars_bounded n : forall s,
  length s <= n -> no_double_dollar (remove_all dollars s) = true.
Proof.
  induction n as [|n IH]; intros s Hlen.
  - destruct s; [reflexivity|simpl in Hlen; lia].
  - destruct s as [|c s]; [reflexivity|]. simpl in Hlen.
    unfold remove_all in *.
    destruct (N.eqb c 36) eqn:Hc.
    + apply N.eqb_eq in Hc. subst c.
      destruct s as [|c' s].
      * reflexivity.
      * destruct (N.eqb c' 36) eqn:Hc'.
        -- apply N.eqb_eq in Hc'. subst c'.
           change (36%N :: 36%N :: s) with ([36%N; 36%N] ++ s).
           rewrite replace_all_match; [|discriminate|reflexivity].
           apply IH. simpl in Hlen. lia.
        -- rewrite replace_all_no_match by now apply dollars_single.
           rewrite replace_all_no_match by now apply dollars_no_match.
           rewrite ndd_cons. cbn [starts_dollar]. rewrite Hc'.
           cbn [N.eqb Pos.eqb andb negb].
           specialize (IH (c' :: s) ltac:(lia)).
           now rewrite replace_all_no_match in IH by now apply dollars_no_match.
    + rewrite replace_all_no_match by now apply dollars_no_match.
      rewrite ndd_cons, Hc. cbn [andb negb]. apply IH. lia.
Qed.

Lemma remove_dollars_clean s : no_double_dollar (remove_all dollars s) = true.
Proof. now apply (remove_dollars_bounded (n := length s)). Qed.


(** *** Replacing without bringing two [$] together *)

Lemma starts_dollar_clean a o :
  a <> [] -> Forall (fun c => N.eqb c 36 = false) a ->
  starts_dollar (a ++ o) = false.
Proof. intros Hne Ha. destruct a as [|c a]; [easy|]. now inversion Ha. Qed.

Section Replace.

Variable p : pattern.
Variable rep : jsstring -> jsstring.

(** Every match is replaced by a text that is not empty and holds no [$]. *)
Hypothesis matches : forall s n,
  match_here p s = Some n ->
  n <> 0 /\ rep (firstn n s) <> []
  /\ Forall (fun c => N.eqb c 36 = false) (rep (firstn n s)).

Lemma replace_from_ndd : forall s k,
  no_double_dollar s = true ->
  no_double_dollar (replace_from p rep k s) = true
  /\ (k = 0 -> starts_dollar (replace_from p rep 0 s) = true ->
      starts_dollar s = true).
Proof.
  induction s as [|c s IH]; intros k Hs.
  - destruct k; simpl; [|now split].
    destruct (match_here p []) as [n|] eqn:E; [|now split].
    destruct (matches _ E) as [Hn _]. apply match_here_le in E.
    simpl in E. lia.
  - pose proof (ndd_tail _ _ Hs) as Hs'.
    destruct k as [|k]; cbn [replace_from].
    2:{ split; [now apply IH|discriminate]. }
    destruct (match_here p (c :: s)) as [[|n]|] eqn:E.
    + destruct (matches _ E) as [Hn _]. easy.
    + destruct (matches _ E) as (_ & Hne & Hclean).
      destruct (IH n Hs') as [Hout _]. split.
      * now apply ndd_app_clean.
      * intros _ H. now rewrite starts_dollar_clean in H.
    + destruct (IH 0 Hs') as [Hout Hhead]. split.
      * rewrite ndd_cons, Hout, andb_true_r. apply negb_true_iff.
        destruct (N.eqb c 36) eqn:Hc; [|reflexivity].
        destruct (starts_dollar (replace_from p rep 0 s)) eqn:Hd; [|reflexivity].
        specialize (Hhead eq_refl eq_refl).
        rewrite ndd_cons, Hc, Hhead in Hs. discriminate.
      * intros _ H. exact H.
Qed.

Lemma replace_all_ndd s :
  no_double_dollar s = true -> no_double_dollar (replace_all p rep s) = true.
Proof. intros H. now apply replace_from_ndd. Qed.

End Replace.

Lemma punctuation_not_dollar c : punctuation c = true -> N.eqb c 36 = false.
Proof.
  unfold punctuation. change (str ".,;:!?") with [46; 44; 59; 58; 33; 63]%N.
  cbn [existsb]. rewrite !orb_true_iff, !N.eqb_eq.
  intros H. apply N.eqb_neq. intros ->.
  intuition discriminate.
Qed.

(** What [\s+([.,;:!?])] matches: white space, then the mark. *)
Lemma space_before_punctuation_shape s n :
  match_here space_before_punctuation s = Some n ->
  exists ws c, firstn n s = ws ++ [c]
               /\ Forall (fun x => space x = true) ws
               /\ punctuation c = true.
Proof.
  intros H.
  change space_before_punctuation
    with [One space; Star space; One punctuation] in H.
  destruct s as [|x s]; [discriminate|].
  cbn [match_here] in H. destruct (space x) eqn:Hx; [|discriminate].
  destruct (greedy space _ s) as [m|] eqn:E; [|discriminate].
  injection H as <-.
  apply greedy_sound in E as (r & u & m' & -> & Hr & Hk & ->).
  destruct u as [|c u]; [discriminate|].
  destruct (punctuation c) eqn:Hc; [|discriminate].
  injection Hk as <-.
  exists (x :: r), c. split; [|split; [now constructor|exact Hc]].
  change (x :: r ++ c :: u) with ((x :: r) ++ c :: u).
  replace (S (length r + 1)) with (length (x :: r) + 1) by reflexivity.
  now rewrite firstn_app_2.
Qed.

Lemma space_before_punctuation_matches s n :
  match_here space_before_punctuation s = Some n ->
  n <> 0 /\ group1 (firstn n s) <> []
  /\ Forall (fun c => N.eqb c 36 = false) (group1 (firstn n s)).
Proof.
  intros H. split; [now apply match_One_positive in H|].
  apply space_before_punctuation_shape in H as (ws & c & -> & _ & Hc).
  unfold group1. rewrite rev_app_distr. simpl.
  split; [discriminate|]. constructor; [|constructor].
  now apply punctuation_not_dollar.
Qed.

Lemma constant_matches f p t s n :
  t <> [] -> Forall (fun c => N.eqb c 36 = false) t ->
  match_here (One f :: p) s = Some n ->
  n <> 0 /\ by_text t (firstn n s) <> []
  /\ Forall (fun c => N.eqb c 36 = false) (by_text t (firstn n s)).
Proof. intros Ht Hc H. split; [now apply match_One_positive in H|now split]. Qed.


(** *** Trimming, splitting, joining *)

Lemma trimStart_suffix s : exists pre, s = pre ++ trimStart s.
Proof.
  induction s as [|c s [pre IH]]; [now exists []|].
  simpl. destruct (is_space c); [|now exists []].
  exists (c :: pre). simpl. now rewrite <- IH.
Qed.

Lemma trimEnd_prefix s : exists post, s = trimEnd s ++ post.
Proof.
  unfold trimEnd. destruct (trimStart_suffix (rev s)) as [pre E].
  exists (rev pre). rewrite <- rev_app_distr, <- E. now rewrite rev_involutive.
Qed.

Lemma trim_ndd s : no_double_dollar s = true -> no_double_dollar (trim s) = true.
Proof.
  intros H. unfold trim.
  destruct (trimStart_suffix s) as [pre E]. rewrite E in H.
  apply ndd_suffix in H.
  destruct (trimEnd_prefix (trimStart s)) as [post E']. rewrite E' in H.
  now apply ndd_prefix in H.
Qed.

Lemma split_ndd s :
  no_double_dollar s = true ->
  Forall (fun l => no_double_dollar l = true) (split LF s).
Proof.
  induction s as [|c s IH]; intros H; [repeat constructor|].
  pose proof (ndd_tail _ _ H) as Hs. specialize (IH Hs).
  rewrite split_cons. destruct (N.eqb c LF) eqn:Hc.
  - now constructor.
  - destruct (split LF s) as [|h t] eqn:E; [now repeat constructor|].
    inversion IH as [|? ? Hh Ht]; subst. constructor; [|exact Ht].
    rewrite ndd_cons, Hh, andb_true_r. apply negb_true_iff.
    destruct (N.eqb c 36) eqn:Hd; [|reflexivity].
    destruct h as [|x h]; [reflexivity|]. simpl.
    destruct s as [|y s]; [discriminate|].
    rewrite split_cons in E. destruct (N.eqb y LF).
    + discriminate.
    + assert (x = y) as ->.
      { destruct (split LF s); now injection E. }
      rewrite ndd_cons, Hd in H. simpl in H.
      now destruct (N.eqb y 36).
Qed.

Lemma join_ndd l :
  Forall (fun x => no_double_dollar x = true) l ->
  no_double_dollar (join [LF] l) = true.
Proof.
  induction 1 as [|x l Hx Hl IH]; [reflexivity|].
  simpl. destruct l as [|y l]; [exact Hx|].
  cbn [app]. now apply ndd_app_sep.
Qed.

Lemma tidy_ndd s : no_double_dollar s = true -> no_double_dollar (tidy s) = true.
Proof.
  intros H. unfold tidy.
  apply replace_all_ndd.
  { intros u n. apply constant_matches; [discriminate|now repeat constructor]. }
  apply join_ndd. apply Forall_map.
  eapply Forall_impl; [|apply split_ndd].
  - intros line Hline. apply trim_ndd. apply replace_all_ndd; [|exact Hline].
    intros u n. apply constant_matches; [discriminate|now repeat constructor].
  - apply replace_all_ndd; [apply space_before_punctuation_matches|].
    now apply trim_ndd.
Qed.

(** No cleaned content holds [$$]. *)
Lemma clean_content_ndd c : no_double_dollar (clean_content c) = true.
Proof. apply tidy_ndd. unfold strip_markup. apply remove_dollars_clean. Qed.

(** *** The white-space passes *)

Lemma tidied_refl s : forall b, tidied b s s.
Proof. induction s as [|c s IH]; intros b; now constructor. Qed.

(** Any white space may go when nothing is kept after it. *)
Lemma tidied_blank b ws :
  Forall (fun c => is_space c = true) ws -> tidied b ws [].
Proof.
  induction 1 as [|w ws Hw Hws IH]; [constructor|].
  apply tidied_drop; [exact Hw| |exact IH].
  unfold droppable. apply orb_true_r.
Qed.

Lemma tidied_nothing b s : tidied b s [] -> forall b', tidied b' s [].
Proof.
  intros H. remember [] as t eqn:E.
  induction H as [b|b c s t H IH|b w w' s t Hw Hw' H IH|b w s t Hw Hd H IH];
    intros b'; try discriminate.
  - constructor.
  - subst. apply tidied_drop; [exact Hw|apply orb_true_r|now apply IH].
Qed.

(** What is kept may go on with white space, or end. *)
Lemma tidied_app b s t s' t' :
  tidied b s t -> droppable false t' = true ->
  (forall b', tidied b' s' t') ->
  tidied b (s ++ s') (t ++ t').
Proof.
  intros H Ht' Hs'.
  induction H as [b|b c s t H IH|b w w' s t Hw Hw' H IH|b w s t Hw Hd H IH];
    cbn [app].
  - apply Hs'.
  - now apply tidied_keep.
  - now apply tidied_swap.
  - apply tidied_drop; [exact Hw| |exact IH].
    unfold droppable in *. destruct b; [reflexivity|]. cbn [orb] in *.
    destruct t as [|y t]; [exact Ht'|exact Hd].
Qed.

Lemma tidied_trimStart s t : tidied true s t -> tidied true s (trimStart t).
Proof.
  intros H. remember true as b eqn:E.
  induction H as [b|b c s t H IH|b w w' s t Hw Hw' H IH|b w s t Hw Hd H IH];
    subst.
  - constructor.
  - cbn [trimStart]. destruct (is_space c) eqn:Hc.
    + apply tidied_drop; [exact Hc|reflexivity|now apply IH].
    + apply tidied_keep. now rewrite Hc.
  - cbn [trimStart]. rewrite Hw'.
    apply tidied_drop; [exact Hw|reflexivity|now apply IH].
  - apply tidied_drop; [exact Hw|reflexivity|now apply IH].
Qed.

Lemma tidied_cut b s t :
  tidied b s t ->
  forall u ws, t = u ++ ws -> Forall (fun c => is_space c = true) ws ->
  tidied b s u.
Proof.
  induction 1 as [b|b c s t H IH|b w w' s t Hw Hw' H IH|b w s t Hw Hd H IH];
    intros u ws E Hws.
  - destruct u; [constructor|discriminate].
  - destruct u as [|x u]; cbn [app] in E.
    + subst ws. inversion Hws as [|? ? Hc Hws']; subst.
      apply tidied_drop; [exact Hc|apply orb_true_r|].
      apply (@tidied_nothing (is_space c)). now apply (IH [] t).
    + injection E as <- ->. apply tidied_keep. now apply (IH u ws).
  - destruct u as [|x u]; cbn [app] in E.
    + subst ws. inversion Hws as [|? ? Hc Hws']; subst.
      apply tidied_drop; [exact Hw|apply orb_true_r|].
      apply (@tidied_nothing true). now apply (IH [] t).
    + injection E as <- ->. apply tidied_swap; auto. now apply (IH u ws).
  - apply tidied_drop; [exact Hw| |now apply (IH u ws)].
    unfold droppable in *. destruct b; [reflexivity|]. cbn [orb] in *.
    subst t. destruct u as [|y u]; [reflexivity|exact Hd].
Qed.

Lemma trimStart_blank s :
  exists pre, s = pre ++ trimStart s /\ Forall (fun c => is_space c = true) pre.
Proof.
  induction s as [|c s (pre & E & Hpre)]; [now exists []|].
  cbn [trimStart]. destruct (is_space c) eqn:Hc; [|now exists []].
  exists (c :: pre). split; [cbn [app]; now rewrite <- E|now constructor].
Qed.

Lemma trimEnd_blank s :
  exists post, s = trimEnd s ++ post /\ Forall (fun c => is_space c = true) post.
Proof.
  unfold trimEnd. destruct (trimStart_blank (rev s)) as (pre & E & Hpre).
  exists (rev pre). split.
  - rewrite <- rev_app_distr, <- E. now rewrite rev_involutive.
  - now apply Forall_rev.
Qed.

Lemma tidied_trimEnd b s t : tidied b s t -> tidied b s (trimEnd t).
Proof.
  intros H. destruct (trimEnd_blank t) as (post & E & Hpost).
  exact (tidied_cut H _ E Hpost).
Qed.

Lemma tidied_trim s t : tidied true s t -> tidied true s (trim t).
Proof. intros H. unfold trim. now apply tidied_trimEnd, tidied_trimStart. Qed.

(** Replacing where every match is tidied. *)
Lemma tidied_replace_bounded p rep :
  (forall s n, match_here p s = Some n ->
     n <> 0
     /\ forall b rest t', (forall b', tidied b' rest t') ->
                          tidied b (firstn n s ++ rest) (rep (firstn n s) ++ t')) ->
  forall k s, length s <= k -> forall b, tidied b s (replace_all p rep s).
Proof.
  intros Hrep. induction k as [|k IH]; intros s Hlen b.
  - destruct s; [|simpl in Hlen; lia].
    unfold replace_all. simpl.
    destruct (match_here p []) as [n|] eqn:E; [|constructor].
    destruct (Hrep _ _ E) as [Hn _]. apply match_here_le in E.
    simpl in E. lia.
  - destruct s as [|c s].
    { apply (IH []). simpl. lia. }
    simpl in Hlen.
    destruct (match_here p (c :: s)) as [n|] eqn:E.
    + destruct (Hrep _ _ E) as [Hn Hm]. pose proof (match_here_le _ _ E) as Hle.
      rewrite <- (firstn_skipn n (c :: s)) at 1 2.
      rewrite replace_all_match.
      * apply Hm. intros b'. apply IH.
        rewrite length_skipn. cbn [length]. lia.
      * destruct n; [easy|]. discriminate.
      * rewrite firstn_skipn, length_firstn, Nat.min_l by exact Hle. exact E.
    + rewrite replace_all_no_match by exact E.
      apply tidied_keep. apply IH. lia.
Qed.

Lemma tidied_replace_all p rep s b :
  (forall s n, match_here p s = Some n ->
     n <> 0
     /\ forall b rest t', (forall b', tidied b' rest t') ->
                          tidied b (firstn n s ++ rest) (rep (firstn n s) ++ t')) ->
  tidied b s (replace_all p rep s).
Proof. intros H. now apply (@tidied_replace_bounded p rep H (length s)). Qed.

Lemma punctuation_not_space c : punctuation c = true -> is_space c = false.
Proof.
  unfold punctuation. change (str ".,;:!?") with [46; 44; 59; 58; 33; 63]%N.
  cbn [existsb]. rewrite !orb_true_iff, !N.eqb_eq.
  intros [->|[->|[->|[->|[->|[->|H]]]]]]; try reflexivity. discriminate.
Qed.

(** White space goes before a punctuation mark. *)
Lemma tidied_before_mark b ws c rest t' :
  Forall (fun x => is_space x = true) ws -> punctuation c = true ->
  tidied false rest t' ->
  tidied b (ws ++ c :: rest) (c :: t').
Proof.
  intros Hws Hc H. induction Hws as [|w ws Hw Hws IH]; cbn [app].
  - apply tidied_keep. now rewrite punctuation_not_space.
  - apply tidied_drop; [exact Hw| |exact IH].
    unfold droppable. rewrite Hc. now rewrite !orb_true_r.
Qed.

(** A run of white space goes after white space. *)
Lemma tidied_after_space ws rest t' :
  Forall (fun x => is_space x = true) ws ->
  tidied true rest t' -> tidied true (ws ++ rest) t'.
Proof.
  intros Hws H. induction Hws as [|w ws Hw Hws IH]; [exact H|].
  cbn [app]. apply tidied_drop; [exact Hw|reflexivity|exact IH].
Qed.

(** What a pattern made of one class matches is made of this class. *)
Lemma uniform_match c p :
  Forall (fun a => a = One c \/ a = Star c) p ->
  forall s n, match_here p s = Some n ->
  Forall (fun x => c x = true) (firstn n s).
Proof.
  induction 1 as [|a p [->| ->] Hp IH]; intros s n H.
  - injection H as <-. constructor.
  - destruct s as [|x s]; [discriminate|]. rewrite match_One in H.
    destruct (c x) eqn:Hx; [|discriminate].
    destruct (match_here p s) as [m|] eqn:E; [|discriminate].
    injection H as <-. cbn [firstn]. constructor; [exact Hx|now apply IH].
  - rewrite match_Star in H.
    apply greedy_sound in H as (r & u & m & -> & Hr & Hk & ->).
    rewrite firstn_app_2. apply Forall_app; split; [exact Hr|now apply IH].
Qed.

Lemma line_feed_space x : N.eqb LF x = true -> is_space x = true.
Proof. intros H. apply N.eqb_eq in H. now subst. Qed.

Lemma tidied_space_before_punctuation s b :
  tidied b s (replace_all space_before_punctuation group1 s).
Proof.
  apply tidied_replace_all. intros u n H.
  split; [now apply match_One_positive in H|].
  apply space_before_punctuation_shape in H as (ws & c & -> & Hws & Hc).
  intros b' rest t' Hrest.
  unfold group1. rewrite rev_app_distr. cbn [rev app].
  rewrite <- app_assoc. cbn [app].
  now apply tidied_before_mark.
Qed.

Lemma tidied_spaces s b :
  tidied b s (replace_all spaces (by_text (str " ")) s).
Proof.
  apply tidied_replace_all. intros u n H.
  split; [now apply match_One_positive in H|].
  pose proof H as Hn. apply match_One_positive in Hn.
  destruct u as [|w u]; [discriminate H|].
  destruct n as [|n]; [easy|].
  apply (@uniform_match space) in H; [|repeat constructor; tauto].
  intros b' rest t' Hrest. unfold by_text. cbn [firstn] in *.
  inversion H as [|? ? Hw Hws]; subst.
  change (str " " ++ t') with (32%N :: t'). cbn [app].
  apply tidied_swap; [exact Hw|reflexivity|].
  apply tidied_after_space; [exact Hws|apply Hrest].
Qed.

Lemma tidied_blank_lines s b :
  tidied b s (replace_all blank_lines (by_text [LF; LF]) s).
Proof.
  apply tidied_replace_all. intros u n H.
  split; [now apply match_One_positive in H|].
  pose proof H as Hu.
  apply (@uniform_match (N.eqb LF)) in Hu; [|repeat constructor; tauto].
  change blank_lines
    with [One (N.eqb LF); One (N.eqb LF); One (N.eqb LF); Star (N.eqb LF)] in H.
  destruct u as [|x [|y u]]; try discriminate.
  { cbn [match_here] in H. now destruct (N.eqb LF x). }
  rewrite !match_One in H.
  destruct (N.eqb LF x) eqn:Hx; [|discriminate].
  destruct (N.eqb LF y) eqn:Hy; [|discriminate].
  destruct (match_here _ u) as [m|]; [|discriminate].
  injection H as <-. cbn [firstn] in *.
  inversion Hu as [|? ? _ Hu']; subst. inversion Hu' as [|? ? _ Hu'']; subst.
  apply N.eqb_eq in Hx, Hy. subst x y.
  intros b' rest t' Hrest. unfold by_text. cbn [app].
  apply tidied_keep, tidied_keep. change (is_space LF) with true.
  apply tidied_after_space; [|apply Hrest].
  eapply Forall_impl; [|exact Hu'']. exact line_feed_space.
Qed.

Lemma join_split sep s : join [sep] (split sep s) = s.
Proof.
  induction s as [|c s IH]; [reflexivity|].
  rewrite split_cons. pose proof (split_not_nil sep s) as Hne.
  destruct (N.eqb_spec c sep) as [->|Hc].
  - destruct (split sep s) as [|h t]; [easy|].
    change (join [sep] ([] :: h :: t)) with ([] ++ [sep] ++ join [sep] (h :: t)).
    now rewrite IH.
  - destruct (split sep s) as [|h t]; [easy|].
    rewrite <- IH. destruct t; reflexivity.
Qed.

Lemma tidied_join f ls :
  (forall l, tidied true l (f l)) ->
  tidied true (join [LF] ls) (join [LF] (map f ls)).
Proof.
  intros Hf. induction ls as [|l ls IH]; [constructor|].
  destruct ls as [|l' ls]; [apply Hf|].
  change (join [LF] (l :: l' :: ls)) with (l ++ LF :: join [LF] (l' :: ls)).
  change (join [LF] (map f (l :: l' :: ls)))
    with (f l ++ LF :: join [LF] (map f (l' :: ls))).
  apply tidied_app; [apply Hf|reflexivity|].
  intros b'. apply tidied_keep. exact IH.
Qed.

(** *** Matches in tidied text *)

Lemma tidied_head b s y t' :
  tidied b s (y :: t') -> is_space y = false ->
  exists ws s', s = ws ++ y :: s'
                /\ Forall (fun x => is_space x = true) ws
                /\ tidied false s' t'.
Proof.
  intros H Hy. remember (y :: t') as t eqn:E.
  induction H as [b|b c s t H IH|b w w' s t Hw Hw' H IH|b w s t Hw Hd H IH].
  - discriminate.
  - injection E as -> ->. exists [], s. rewrite Hy in H. now repeat split.
  - injection E as -> ->. congruence.
  - destruct (IH E) as (ws & s' & -> & Hws & Hs').
    exists (w :: ws), s'. repeat split; [|exact Hs']. now constructor.
Qed.

Lemma tidied_firm s y t' :
  tidied false s (y :: t') -> is_space y = false -> punctuation y = false ->
  exists s', s = y :: s' /\ tidied false s' t'.
Proof.
  intros H Hy Hp. inversion H as [|? c ? ? H'|? w w' ? ? Hw Hw'|? w ? ? Hw Hd H'];
    subst.
  - exists s0. rewrite Hy in H'. now split.
  - congruence.
  - unfold droppable in Hd. rewrite Hy, Hp in Hd. discriminate.
Qed.

Lemma tidied_run c r : firm c -> Forall (fun x => c x = true) r ->
  forall s u, tidied false s (r ++ u) ->
  exists s', s = r ++ s' /\ tidied false s' u.
Proof.
  intros Hc. induction 1 as [|x r Hx Hr IH]; intros s u H.
  - now exists s.
  - cbn [app] in H. destruct (Hc _ Hx) as [H1 H2].
    apply tidied_firm in H as (s' & -> & H); [|exact H1|exact H2].
    destruct (IH _ _ H) as (s'' & -> & H'). now exists s''.
Qed.

Lemma tidied_gap b s t :
  tidied b s t ->
  forall r y u', t = r ++ y :: u' ->
  Forall (fun x => is_space x = true) r -> is_space y = false ->
  exists ws s', s = ws ++ y :: s'
                /\ Forall (fun x => is_space x = true) ws
                /\ tidied false s' u'.
Proof.
  induction 1 as [b|b c s t H IH|b w w' s t Hw Hw' H IH|b w s t Hw Hd H IH];
    intros r y u' E Hr Hy.
  - destruct r; discriminate.
  - destruct r as [|x r]; cbn [app] in E.
    + injection E as -> ->. exists [], s. rewrite Hy in H. now repeat split.
    + injection E as -> ->. inversion Hr as [|? ? Hx Hr']; subst.
      destruct (IH _ _ _ eq_refl Hr' Hy) as (ws & s' & -> & Hws & Hs').
      exists (x :: ws), s'. repeat split; [|exact Hs']. now constructor.
  - destruct r as [|x r]; cbn [app] in E.
    + injection E as -> ->. congruence.
    + injection E as -> ->. inversion Hr as [|? ? Hx Hr']; subst.
      destruct (IH _ _ _ eq_refl Hr' Hy) as (ws & s' & -> & Hws & Hs').
      exists (w :: ws), s'. repeat split; [|exact Hs']. now constructor.
  - destruct (IH _ _ _ E Hr Hy) as (ws & s' & -> & Hws & Hs').
    exists (w :: ws), s'. repeat split; [|exact Hs']. now constructor.
Qed.

(** The rest of a match in tidied text is the rest of a match in the text
    it comes from. *)
Lemma steady_match p :
  steady p ->
  forall s t n, tidied false s t -> match_here p t = Some n ->
  exists m, match_here p s = Some m.
Proof.
  induction 1 as [|c p Hc Hp IH|c p Hc Hp IH|c p Hc Hp IH]; intros s t n Hst H.
  - now exists 0.
  - destruct t as [|y t]; [discriminate|]. rewrite match_One in H.
    destruct (c y) eqn:Hy; [|discriminate].
    destruct (match_here p t) as [n'|] eqn:E; [|discriminate].
    destruct (Hc _ Hy) as [H1 H2].
    apply tidied_firm in Hst as (s' & -> & Hst); [|exact H1|exact H2].
    destruct (IH _ _ _ Hst E) as [m Hm].
    exists (S m). now rewrite match_One, Hy, Hm.
  - rewrite match_Star in H.
    apply greedy_sound in H as (r & u & m & -> & Hr & Hk & _).
    destruct (@tidied_run c r Hc Hr s u Hst) as (s' & -> & Hst').
    destruct (IH _ _ _ Hst' Hk) as [m' Hm].
    rewrite match_Star. eapply greedy_complete; [exact Hr|exact Hm].
  - rewrite match_Star in H.
    apply greedy_sound in H as (r & u & m & -> & Hr & Hk & _).
    destruct u as [|y u]; [discriminate|]. rewrite match_One in Hk.
    destruct (c y) eqn:Hy; [|discriminate].
    destruct (match_here p u) as [n'|] eqn:E; [|discriminate].
    destruct (@tidied_gap false s (r ++ y :: u) Hst r y u eq_refl Hr (Hc _ Hy))
      as (ws & s' & -> & Hws & Hst').
    destruct (IH _ _ _ Hst' E) as [m' Hm].
    rewrite match_Star. eapply greedy_complete; [exact Hws|].
    rewrite match_One, Hy, Hm. reflexivity.
Qed.

(** A match in tidied text comes from a match in the text. *)
Lemma tidied_occurs p b s t :
  stable p -> tidied b s t -> occurs p t = true -> occurs p s = true.
Proof.
  intros (c & p' & -> & Hc & Hp').
  induction 1 as [b|b x s t H IH|b w w' s t Hw Hw' H IH|b w s t Hw Hd H IH];
    intros Ho.
  - discriminate.
  - cbn [occurs] in Ho.
    destruct (match_here (One c :: p') (x :: t)) as [n|] eqn:E.
    + rewrite match_One in E. destruct (c x) eqn:Hx; [|discriminate].
      destruct (match_here p' t) as [n'|] eqn:E'; [|discriminate].
      rewrite (Hc _ Hx) in H.
      destruct (steady_match Hp' H E') as [m Hm].
      eapply occurs_here. rewrite match_One, Hx, Hm. reflexivity.
    + apply occurs_cons. now apply IH.
  - cbn [occurs] in Ho. rewrite match_One in Ho.
    destruct (c w') eqn:Hx; [apply Hc in Hx; congruence|].
    apply occurs_cons. now apply IH.
  - apply occurs_cons. now apply IH.
Qed.

Lemma tidied_tidy p s : stable p -> occurs p (tidy s) = true -> occurs p s = true.
Proof.
  intros Hp. unfold tidy.
  set (a := trim s).
  set (b := replace_all space_before_punctuation group1 a).
  set (f := fun line => trim (replace_all spaces (by_text (str " ")) line)).
  set (c := join [LF] (map f (split LF b))).
  intros H.
  apply (tidied_occurs Hp (@tidied_blank_lines c true)) in H.
  assert (Hc : tidied true b c).
  { unfold c. rewrite <- (join_split LF b) at 1.
    apply tidied_join. intros l. unfold f. apply tidied_trim, tidied_spaces. }
  apply (tidied_occurs Hp Hc) in H.
  apply (tidied_occurs Hp (@tidied_space_before_punctuation a true)) in H.
  apply (tidied_occurs Hp (tidied_trim (tidied_refl s true))) in H.
  exact H.
Qed.

Lemma literal_firm k x :
  is_space k = false -> punctuation k = false ->
  N.eqb k x = true -> is_space x = false /\ punctuation x = false.
Proof. intros H1 H2 H. apply N.eqb_eq in H. now subst. Qed.

Lemma digit_firm : firm digit.
Proof.
  intros x Hx. split; [now apply digit_not_space|].
  now apply (not_digit punctuation).
Qed.

Lemma letter_firm l :
  (l = 114 \/ l = 101 \/ l = 102)%N -> firm (letter_i l).
Proof.
  intros Hl x Hx. apply letter_cases in Hx.
  destruct Hl as [-> | [-> | ->]]; destruct Hx as [-> | ->]; now split.
Qed.

Lemma literal_solid k x :
  is_space k = false -> N.eqb k x = true -> is_space x = false.
Proof. intros Hk H. apply N.eqb_eq in H. now subst. Qed.

Ltac steady_rest :=
  repeat first
    [ apply steady_nil
    | apply steady_gap;
      [first [ intros x; apply literal_solid; reflexivity
             | exact digit_not_space
             | intros x Hx; eapply letter_not_space; [|exact Hx]; tauto ] |]
    | apply steady_one;
      [first [ intros x; apply literal_firm; reflexivity
             | exact digit_firm
             | apply letter_firm; tauto ] |]
    | apply steady_star; [exact digit_firm|] ].

Ltac stable_pattern :=
  eexists _, _; split; [reflexivity|];
  split; [intros x; apply literal_solid; reflexivity|steady_rest].

(** The watched patterns, [(ref: N)] in its loose form, are patterns that
    tidying cannot bring into being. *)
Lemma watched_stable p :
  In p watched -> p = paren_ref \/ stable p.
Proof.
  intros [<-|[<-|[<-|[<-|[<-|[<-|[<-|[]]]]]]]]; [right|right|now left|right..].
  - change hash_dollar_ref
      with [One (N.eqb 35); One (N.eqb 35); One digit; Star digit;
            One (N.eqb 36); One (N.eqb 36)].
    stable_pattern.
  - change bracket_ref with [One (N.eqb 91); One digit; Star digit; One (N.eqb 93)].
    stable_pattern.
  - change brace_ref
      with [One (N.eqb 123); Star space; One (letter_i 114); One (letter_i 101);
            One (letter_i 102); Star space; One (N.eqb 58); Star space;
            One digit; Star digit; Star space; One (N.eqb 125)].
    stable_pattern.
  - change hash_ref with [One (N.eqb 35); One (N.eqb 35); One digit; Star digit].
    stable_pattern.
  - change dollars with [One (N.eqb 36); One (N.eqb 36)].
    stable_pattern.
  - change loose_paren_ref
      with [One (N.eqb 40); One (letter_i 114); One (letter_i 101);
            One (letter_i 102); Star space; One (N.eqb 58); Star space;
            One digit; Star digit; One (N.eqb 41)].
    stable_pattern.
Qed.

(** A [(ref: N)] is a [(ref: N)] in the loose form. *)
Lemma paren_loose s n :
  match_here paren_ref s = Some n ->
  exists m, match_here loose_paren_ref s = Some m.
Proof.
  change paren_ref
    with ([One (N.eqb 40); One (letter_i 114); One (letter_i 101);
           One (letter_i 102)]
            ++ [One (N.eqb 58); Star space; One digit; Star digit; One (N.eqb 41)]).
  change loose_paren_ref
    with ([One (N.eqb 40); One (letter_i 114); One (letter_i 101);
           One (letter_i 102)]
            ++ Star space
               :: [One (N.eqb 58); Star space; One digit; Star digit;
                   One (N.eqb 41)]).
  generalize [One (N.eqb 58); Star space; One digit; Star digit; One (N.eqb 41)].
  intros q.
  destruct s as [|a [|b [|c [|d s]]]]; cbn [app match_here];
    try discriminate;
    repeat match goal with
           | |- context [if ?x then _ else _] => destruct x; try discriminate
           end;
    try (intros H; discriminate H).
  destruct (match_here q s) as [m|] eqn:E; [|discriminate]. intros _.
  destruct (@greedy_complete space (match_here q) [] s m (Forall_nil _) E)
    as [k Hk].
  cbn [app] in Hk. rewrite Hk. now eexists.
Qed.

Lemma paren_loose_occurs s :
  occurs paren_ref s = true -> occurs loose_paren_ref s = true.
Proof.
  induction s as [|c s IH]; cbn [occurs].
  - destruct (match_here paren_ref []) eqn:E; [|discriminate]. discriminate E.
  - destruct (match_here paren_ref (c :: s)) as [n|] eqn:E.
    + intros _. apply paren_loose in E as [m E]. now rewrite E.
    + intros H. apply IH in H.
      now destruct (match_here loose_paren_ref (c :: s)).
Qed.

(** *** Markers in the cleaned content *)

Lemma plain_dead c : opener c = false -> dead_ends [c] = true.
Proof.
  intros H. unfold opener in H.
  change (str "<#$[({") with [60; 35; 36; 91; 40; 123]%N in H.
  cbn [existsb] in H. rewrite !orb_false_iff in H.
  destruct H as (_ & H1 & H2 & H3 & H4 & H5 & _).
  rewrite N.eqb_sym in H1, H2, H3, H4, H5.
  cbn [dead_ends forallb watched marker_patterns app].
  change hash_dollar_ref with (One (N.eqb 35) :: tl hash_dollar_ref).
  change bracket_ref with (One (N.eqb 91) :: tl bracket_ref).
  change paren_ref with (One (N.eqb 40) :: tl paren_ref).
  change brace_ref with (One (N.eqb 123) :: tl brace_ref).
  change hash_ref with (One (N.eqb 35) :: tl hash_ref).
  change dollars with (One (N.eqb 36) :: tl dollars).
  change loose_paren_ref with (One (N.eqb 40) :: tl loose_paren_ref).
  cbn [fails]. now rewrite H1, H2, H3, H4, H5.
Qed.

(** Text in which no marker begins, in front of a text without markers. *)
Lemma dead_then_free p v s :
  In p watched -> dead_ends v = true ->
  occurs p s = false -> occurs p (v ++ s) = false.
Proof.
  intros Hp Hv Hs. induction v as [|x v IH]; [exact Hs|].
  cbn [app occurs].
  change (x :: v ++ s) with ((x :: v) ++ s).
  rewrite fails_sound by now apply dead_ends_fails.
  apply IH. cbn [dead_ends] in Hv. now apply andb_true_iff in Hv.
Qed.

Lemma token_dead t :
  wf t -> marker t = false -> dead_ends (text t) = true.
Proof.
  unfold wf. destruct t; try discriminate; intros H _.
  - simpl in H. apply negb_true_iff in H. now apply plain_dead.
  - now apply inert_dead.
Qed.

(** In a content of text in which no marker begins, none is. *)
Lemma quiet_content p ts tail :
  In p watched ->
  Forall wf ts -> Forall (fun t => marker t = false) ts ->
  settled tail = true ->
  occurs p (texts ts ++ tail) = false.
Proof.
  intros Hp Hwf Hm Htail.
  induction Hwf as [|t ts Ht Hts IH].
  - now apply settled_spec.
  - inversion Hm as [|? ? Hp' Hm']; subst.
    rewrite texts_cons, <- app_assoc.
    apply dead_then_free; [exact Hp|now apply token_dead|now apply IH].
Qed.

(** A cleaned content holds no marker when, with its tags deleted, the
    content is made of whole markers and of text in which no marker
    begins. *)
Lemma clean_content_marker_free c ts tail :
  without_tags c = texts ts ++ tail ->
  forallb well_formed ts = true ->
  settled tail = true ->
  marker_free (clean_content c) = true.
Proof.
  intros Hc Hts Htail.
  assert (Hwf : Forall wf ts).
  { apply Forall_forall. intros t Ht.
    rewrite forallb_forall in Hts. now apply Hts. }
  destruct (@marker_passes tail Htail ts Hwf) as (ts' & E & Hincl & Hplain).
  assert (Hclean : clean_content c = tidy (texts ts' ++ tail)).
  { unfold clean_content, strip_markup. fold (without_tags c).
    now rewrite Hc, E. }
  rewrite Hclean.
  assert (Hquiet : forall p, In p watched ->
                             occurs p (texts ts' ++ tail) = false).
  { intros p Hp. apply quiet_content; [exact Hp| |exact Hplain|exact Htail].
    exact (incl_Forall Hincl Hwf). }
  assert (Hstable : forall p, stable p -> In p watched ->
                              occurs p (tidy (texts ts' ++ tail)) = false).
  { intros p Hs Hp.
    destruct (occurs p (tidy (texts ts' ++ tail))) eqn:Ho; [|reflexivity].
    apply (@tidied_tidy p _ Hs) in Ho. now rewrite Hquiet in Ho. }
  unfold marker_free. apply forallb_forall. intros p Hp.
  apply negb_true_iff.
  destruct (@watched_stable p (marker_watched Hp)) as [->|Hs].
  - destruct (occurs paren_ref (tidy (texts ts' ++ tail))) eqn:Ho; [|reflexivity].
    apply paren_loose_occurs in Ho.
    rewrite Hstable in Ho; [discriminate| |in_watched].
    destruct (@watched_stable loose_paren_ref ltac:(in_watched)) as [E'|Hs];
      [discriminate E'|exact Hs].
  - now apply Hstable; [|apply marker_watched].
Qed.

Lemma ndd_dollars a b : no_double_dollar (a ++ 36%N :: 36%N :: b) = false.
Proof.
  destruct (no_double_dollar (a ++ 36%N :: 36%N :: b)) eqn:E; [|reflexivity].
  apply ndd_suffix in E. rewrite ndd_cons in E. discriminate.
Qed.

Lemma occurs_inside p s :
  (forall u n, match_here p u = Some n -> no_double_dollar u = false) ->
  no_double_dollar s = true -> occurs p s = false.
Proof.
  intros Hp. induction s as [|c s IH]; intros Hs; cbn [occurs].
  - destruct (match_here p []) eqn:E; [|reflexivity].
    apply Hp in E. discriminate.
  - destruct (match_here p (c :: s)) eqn:E.
    + apply Hp in E. congruence.
    + apply IH. now apply ndd_tail in Hs.
Qed.

Lemma dollars_found u n :
  match_here dollars u = Some n -> no_double_dollar u = false.
Proof.
  change dollars with [One (N.eqb 36); One (N.eqb 36)].
  destruct u as [|a [|b u]]; cbn [match_here]; try discriminate.
  - now destruct (N.eqb 36 a).
  - destruct (N.eqb_spec 36 a) as [<-|]; [|discriminate].
    destruct (N.eqb_spec 36 b) as [<-|]; [|discriminate].
    intros _. apply (ndd_dollars [] u).
Qed.

Lemma hash_dollar_found u n :
  match_here hash_dollar_ref u = Some n -> no_double_dollar u = false.
Proof.
  change hash_dollar_ref
    with [One (N.eqb 35); One (N.eqb 35); One digit; Star digit;
          One (N.eqb 36); One (N.eqb 36)].
  destruct u as [|a [|b [|d u]]]; cbn [match_here]; try discriminate.
  - now destruct (N.eqb 35 a).
  - destruct (N.eqb 35 a); [|discriminate]. now destruct (N.eqb 35 b).
  - destruct (N.eqb 35 a); [|discriminate].
    destruct (N.eqb 35 b); [|discriminate].
    destruct (digit d); [|discriminate].
    destruct (greedy digit _ u) as [m|] eqn:E; [|discriminate].
    intros _. apply greedy_sound in E as (r & v & m' & -> & _ & Hk & _).
    apply dollars_found in Hk.
    destruct (no_double_dollar (a :: b :: d :: r ++ v)) eqn:Hn; [|reflexivity].
    change (a :: b :: d :: r ++ v) with ((a :: b :: d :: r) ++ v) in Hn.
    apply ndd_suffix in Hn. congruence.
Qed.

(** C9, as amended.  The document is the header and the blocks of the
    messages that are not temporary; no cleaned content holds [$$], so
    none holds a stray [$$] or a [##N$$] marker; and the cleaned content
    holds no marker of any of the six forms when the content, once its
    tags are deleted, is made of whole markers and of other text, side by
    side, and no marker begins in the other text: from none of its
    positions can one of the six patterns, or [(ref: N)] with white space
    before its colon, be matched, whatever follows the text (as it
    stands, for the text that ends the content). *)
Theorem transcript_clean settings date msgs :
  formatConversationAsMarkdown settings date msgs
  = header settings date
      ++ concat (map format_message
                   (filter (fun m => negb (isTemporary m)) msgs))
  /\ (forall c,
        occurs dollars (clean_content c) = false
        /\ occurs hash_dollar_ref (clean_content c) = false)
  /\ (forall c ts tail,
        without_tags c = texts ts ++ tail ->
        forallb well_formed ts = true ->
        settled tail = true ->
        marker_free (clean_content c) = true).
Proof.
  split; [|split].
  - now rewrite format_as_blocks, blocks_without_temporary.
  - intros c. pose proof (clean_content_ndd c) as H. split.
    + apply occurs_inside; [apply dollars_found|exact H].
    + apply occurs_inside; [apply hash_dollar_found|exact H].
  - apply clean_content_marker_free.
Qed.

End MarkdownFacts.

(** ** The decoder on concrete streams *)

Module ApiExamples.
Import JS Api MiniEngine ApiFacts.

(** The scenario of the specification: two frames and the sentinel. *)
Example hello_run :
  run (Streaming hello_reads Closed)
  = ([Call (Some (JStr (str "Hel"))) false;
      Call (Some (JStr (str "lo"))) false;
      Call (Some (JStr [])) true],
     Ok {| fullContent := Some (JStr (str "Hello"));
           sessionId := []; reference := [] |}).
Proof. vm_compute. reflexivity. Qed.

(** A read boundary inside a line and inside a two-byte character. *)
Example split_run :
  run (Streaming split_reads Closed)
  = ([Call (Some (JStr (str "caf" ++ [233%N]))) false;
      Call (Some (JStr [])) true],
     Ok {| fullContent := Some (JStr (str "caf" ++ [233%N]));
           sessionId := []; reference := [] |}).
Proof. vm_compute. reflexivity. Qed.

(** A read that is rejected after the first frame: the delta stays
    delivered, the error is reported and thrown. *)
Example aborted_run :
  run (Streaming [line "data: {'choices':[{'delta':{'content':'Hel'}}]}"]
         (Aborted (Error (str "network error"))))
  = ([Call (Some (JStr (str "Hel"))) false;
      Call (Some (JStr (str "Error: network error"))) true],
     Throw (Error (str "network error"))).
Proof. vm_compute. reflexivity. Qed.

(** The reply message during the scenario: two updates, the second
    extending the first. *)
Example hello_updates :
  Conversation.updates
    (Conversation.stream_into (str "msg_1") []
       (fst (run (Streaming hello_reads Closed))))
  = [str "Hel"; str "Hello"].
Proof. vm_compute. reflexivity. Qed.

Example hi_there :
  run (Document (completion_of (JStr (str "Hi there"))))
  = ([Call (Some (JStr (str "Hi there"))) true],
     Ok {| fullContent := Some (JStr (str "Hi there"));
           sessionId := []; reference := [] |}).
Proof. vm_compute. reflexivity. Qed.

Lemma malformed_line_skipped_witness :
  lines_of damaged_reads = [hel] ++ str "data: {bad json" :: [lo]
  /\ startsWith (str "data:") (str "data: {bad json") = true
  /\ JSON_parse (payload (str "data: {bad json"))
     = Throw (SyntaxError (str "Unexpected token in JSON"))
  /\ run (Streaming damaged_reads Closed) = hello_result.
Proof.
  assert (H1 : lines_of damaged_reads = [hel] ++ str "data: {bad json" :: [lo])
    by (vm_compute; reflexivity).
  assert (H2 : startsWith (str "data:") (str "data: {bad json") = true)
    by reflexivity.
  assert (H3 : JSON_parse (payload (str "data: {bad json"))
               = Throw (SyntaxError (str "Unexpected token in JSON")))
    by (vm_compute; reflexivity).
  split; [exact H1|]. split; [exact H2|]. split; [exact H3|].
  unfold run.
  rewrite (@malformed_line_skipped JSON_parse string_gt_zero damaged_reads
             _ _ _ _ H1 H2 H3).
  vm_compute. reflexivity.
Defined.

Lemma sentinel_and_foreign_lines_ignored_witness :
  lines_of hello_reads = [hel; lo] ++ str "data: [DONE]" :: [[]]
  /\ ignorable (str "data: [DONE]") = true
  /\ delivered JSON_parse string_gt_zero (str "data: [DONE]") = []
  /\ run (Streaming hello_reads Closed) = hello_result.
Proof.
  assert (H1 : lines_of hello_reads = [hel; lo] ++ str "data: [DONE]" :: [[]])
    by (vm_compute; reflexivity).
  assert (H2 : ignorable (str "data: [DONE]") = true) by (vm_compute; reflexivity).
  destruct (@sentinel_and_foreign_lines_ignored JSON_parse string_gt_zero
              hello_reads _ _ _ H1 H2) as [H3 H4].
  split; [exact H1|]. split; [exact H2|]. split; [exact H3|].
  unfold run. rewrite H4. vm_compute. reflexivity.
Defined.




Lemma invalid_document_throws_witness :
  message_content (JObj [(str "choices", JArr [])]) = None
  /\ exists e,
       run (Document (JObj [(str "choices", JArr [])]))
       = ([Call (Some (JStr (str "Error: " ++ JS.message e))) true], Throw e).
Proof.
  assert (H : message_content (JObj [(str "choices", JArr [])]) = None)
    by reflexivity.
  split; [exact H|].
  exact (@invalid_document_throws JSON_parse string_gt_zero _ H).
Defined.

Lemma send_returns_placeholder_witness :
  exists r,
    sent = Ok r
    /\ answer r = str "Streaming response..."
    /\ send_sessionId r = []
    /\ send_reference r = []
    /\ processStream r tt = hello_result.
Proof.
  eexists. split; [reflexivity|].
  destruct (@send_returns_placeholder JSON_parse string_gt_zero
              (str "assistant-1") (str "Hello?")
              (Ok (Streaming hello_reads Closed)) _ eq_refl)
    as (H1 & H2 & H3 & response & H4 & H5).
  split; [exact H1|]. split; [exact H2|]. split; [exact H3|].
  vm_compute. reflexivity.
Defined.

End ApiExamples.

Module CallbackExamples.
Import JS Api MiniEngine Callback CallbackFacts.

Lemma one_final_call_witness :
  exists earlier final,
    existsb is_final earlier = false
    /\ is_final final = true
    /\ chunk_of final = Some (JStr [])
    /\ fst (run_with deaf (Streaming hello_reads Closed))
       = earlier ++ final
           :: match deaf earlier final with
              | Some x => if completes (Streaming hello_reads Closed)
                          then [report x] else []
              | None => []
              end.
Proof.
  exact (one_final_call JSON_parse string_gt_zero deaf
           (Streaming hello_reads Closed)).
Defined.

(** With a callback that throws on every delta, the scenario still ends
    with its one final call. *)
Example deaf_run :
  run_with deaf (Streaming hello_reads Closed)
  = run (Streaming hello_reads Closed).
Proof. vm_compute. reflexivity. Qed.

(** A callback that throws on the completion call gets two final calls. *)
Lemma final_call_twice :
  fst (run_with closing (Streaming hello_reads Closed))
  = [Call (Some (JStr (str "Hel"))) false;
     Call (Some (JStr (str "lo"))) false;
     Call (Some (JStr [])) true;
     Call (Some (JStr (str "Error: view closed"))) true]
  /\ ~ (exists earlier final,
          fst (run_with closing (Streaming hello_reads Closed)) = earlier ++ [final]
          /\ existsb is_final earlier = false
          /\ is_final final = true
          /\ chunk_of final = Some (JStr [])).
Proof.
  assert (H : fst (run_with closing (Streaming hello_reads Closed))
              = [Call (Some (JStr (str "Hel"))) false;
                 Call (Some (JStr (str "lo"))) false;
                 Call (Some (JStr [])) true;
                 Call (Some (JStr (str "Error: view closed"))) true])
    by (vm_compute; reflexivity).
  split; [exact H|].
  intros (earlier & final & Heq & Hnone & _).
  rewrite H in Heq.
  change [Call (Some (JStr (str "Hel"))) false;
          Call (Some (JStr (str "lo"))) false;
          Call (Some (JStr [])) true;
          Call (Some (JStr (str "Error: view closed"))) true]
    with ([Call (Some (JStr (str "Hel"))) false;
           Call (Some (JStr (str "lo"))) false;
           Call (Some (JStr [])) true]
            ++ [Call (Some (JStr (str "Error: view closed"))) true]) in Heq.
  apply app_inj_tail in Heq as [Heq _].
  rewrite <- Heq in Hnone. discriminate Hnone.
Qed.

End CallbackExamples.

(** ** The transcript writer on concrete messages *)

Module MarkdownExamples.
Import JS Regex Conversation Markdown MarkdownFacts.

Lemma transcript_clean_witness :
  (without_tags paris = texts paris_tokens ++ paris_tail
   /\ forallb well_formed paris_tokens = true
   /\ settled paris_tail = true)
  /\ marker_free (clean_content paris) = true
  /\ clean_content paris
     = str "## 1. Paris" ++ [LF] ++ str "Paris (France) is the capital. I like C#"
  /\ (without_tags (texts cited) = texts cited ++ []
      /\ forallb well_formed cited = true
      /\ texts cited = str "Cited [12] and {ref: 3}.")
  /\ marker_free (clean_content (texts cited)) = true
  /\ formatConversationAsMarkdown demo_settings demo_date
       [reply (str "...") true; reply (texts cited) false]
     = header demo_settings demo_date
         ++ str "### **RAGFlow**" ++ [LF; LF] ++ str "Cited and." ++ [LF; LF].
Proof.
  destruct (transcript_clean demo_settings demo_date
              [reply (str "...") true; reply (texts cited) false])
    as (H1 & _ & H3).
  assert (P1 : without_tags paris = texts paris_tokens ++ paris_tail)
    by (vm_compute; reflexivity).
  assert (P2 : forallb well_formed paris_tokens = true) by (vm_compute; reflexivity).
  assert (P3 : settled paris_tail = true) by (vm_compute; reflexivity).
  assert (Q1 : without_tags (texts cited) = texts cited ++ [])
    by (vm_compute; reflexivity).
  assert (Q2 : forallb well_formed cited = true) by (vm_compute; reflexivity).
  split; [now repeat split|].
  split; [exact (H3 paris paris_tokens paris_tail P1 P2 P3)|].
  split; [vm_compute; reflexivity|].
  split; [split; [exact Q1|split; [exact Q2|reflexivity]]|].
  split; [exact (H3 (texts cited) cited [] Q1 Q2 eq_refl)|].
  rewrite H1. vm_compute. reflexivity.
Defined.

(** C9, as stated, fails on a marker nested in another: deleting [[2]]
    from [[1[2]]] leaves [[1]], which the pass, already beyond it, does not
    see again. *)
Lemma nested_marker_survives :
  formatConversationAsMarkdown demo_settings demo_date
    [reply (str "See [1[2]]") false]
  = header demo_settings demo_date
      ++ str "### **RAGFlow**" ++ [LF; LF] ++ str "See [1]" ++ [LF; LF]
  /\ occurs bracket_ref (clean_content (str "See [1[2]]")) = true
  /\ occurs bracket_ref
       (formatConversationAsMarkdown demo_settings demo_date
          [reply (str "See [1[2]]") false]) = true.
Proof. split; [|split]; vm_compute; reflexivity. Qed.

(** Why no marker may begin in the text beside the markers, whatever
    follows, nor a [(ref: N)] with white space before its colon: a pass
    does not see what a later pass or the white-space passes bring
    together.  A later pass may also delete what an earlier one brought
    together. *)
Example markers_brought_together :
  clean_content (str "[1{ref: 2}]") = str "[1]"
  /\ clean_content (str "(re##15f: 1)") = str "(ref: 1)"
  /\ clean_content (str "see (ref :1) here") = str "see (ref:1) here"
  /\ clean_content (str "[1##2$$]") = [].
Proof. repeat split; vm_compute; reflexivity. Qed.

End MarkdownExamples.

(* ================================================================= *)
(** * Further properties *)

Module StreamFacts.
Import JS JSFacts Api ApiFacts Frame.

Lemma trimStart_blank_all s :
  forallb is_space s = true -> trimStart s = [].
Proof. induction s as [|c s IH]; simpl; [easy|]. intros [-> H]%andb_true_iff. auto. Qed.

Lemma trimStart_app_space s c :
  is_space c = true ->
  trimStart (s ++ [c]) = match trimStart s with [] => [] | t => t ++ [c] end.
Proof.
  intros Hc. induction s as [|x s IH]; simpl.
  - now rewrite Hc.
  - destruct (is_space x); [exact IH|reflexivity].
Qed.

Lemma trimEnd_app_space s c : is_space c = true -> trimEnd (s ++ [c]) = trimEnd s.
Proof.
  intros Hc. unfold trimEnd. rewrite rev_app_distr. simpl. now rewrite Hc.
Qed.

(** Trailing white space does not change the trimmed text. *)
Lemma trim_app_space s c : is_space c = true -> trim (s ++ [c]) = trim s.
Proof.
  intros Hc. unfold trim. rewrite trimStart_app_space by exact Hc.
  destruct (trimStart s) as [|x t] eqn:E; [reflexivity|].
  now rewrite trimEnd_app_space.
Qed.

Lemma startsWith_app_r p s t : startsWith p s = true -> startsWith p (s ++ t) = true.
Proof.
  revert s; induction p as [|x p IH]; intros [|y s]; simpl; try easy.
  intros [-> H]%andb_true_iff. simpl. now apply IH.
Qed.

Lemma startsWith_length p s : startsWith p s = true -> length p <= length s.
Proof.
  revert s; induction p as [|x p IH]; intros [|y s]; simpl; try easy; try lia.
  intros [_ H]%andb_true_iff. apply IH in H. lia.
Qed.

Section Engine.
Variable JSON_parse : jsstring -> res json.
Variable string_gt_zero : jsstring -> bool.
Local Abbreviation processStreamingResponse := (Api.processStreamingResponse JSON_parse string_gt_zero).
Local Abbreviation delivered := (Api.delivered JSON_parse string_gt_zero).

(** [line.replace('data:', '')] on a data line takes the prefix off and
    nothing else. *)
Lemma payload_data_line line :
  startsWith (str "data:") line = true -> payload line = trim (skipn 5 line).
Proof.
  intros H. unfold payload. destruct line as [|c line]; [discriminate|].
  cbn [replace_first]. now rewrite H.
Qed.

Lemma startsWith_app_space p s c :
  forallb (fun x => negb (is_space x)) p = true -> is_space c = true ->
  startsWith p (s ++ [c]) = startsWith p s.
Proof.
  intros Hp Hc. revert s; induction p as [|x p IH]; intros s; [reflexivity|].
  cbn [forallb] in Hp. apply andb_true_iff in Hp as [Hx Hp].
  destruct s as [|y s]; cbn [app startsWith].
  - destruct (N.eqb_spec x c) as [->|]; [|reflexivity].
    rewrite Hc in Hx. discriminate.
  - now rewrite IH.
Qed.

Lemma frame_content_same_payload l1 l2 :
  payload l1 = payload l2 ->
  Api.frame_content JSON_parse string_gt_zero l1
  = Api.frame_content JSON_parse string_gt_zero l2.
Proof.
  intros H. unfold Api.frame_content.
  fold (payload l1). fold (payload l2). now rewrite H.
Qed.

(** White space at the end of a line does not change what it delivers. *)
Lemma delivered_app_space line c :
  is_space c = true -> delivered (line ++ [c]) = delivered line.
Proof.
  intros Hc. unfold Api.delivered.
  rewrite !is_data_line_prefix.
  rewrite startsWith_app_space by (exact Hc || reflexivity).
  destruct (startsWith (str "data:") line) eqn:E; [|reflexivity].
  rewrite (@frame_content_same_payload (line ++ [c]) line); [reflexivity|].
  rewrite !payload_data_line by (exact E || now apply startsWith_app_r).
  apply startsWith_length in E. cbn [length str list_ascii_of_string map] in E.
  rewrite skipn_app.
  replace (5 - length line) with 0 by lia. cbn [skipn].
  now apply trim_app_space.
Qed.

Lemma startsWith_split p s : startsWith p s = true -> s = p ++ skipn (length p) s.
Proof.
  revert s; induction p as [|x p IH]; intros [|y s]; simpl; try easy.
  intros [Hx H]%andb_true_iff. apply N.eqb_eq in Hx. subst y.
  f_equal. now apply IH.
Qed.

Lemma delivered_app_spaces line ws :
  forallb is_space ws = true -> delivered (line ++ ws) = delivered line.
Proof.
  induction ws as [|c ws IH] using rev_ind; intros H.
  - now rewrite app_nil_r.
  - rewrite forallb_app in H. apply andb_true_iff in H as [Hws Hc].
    simpl in Hc. rewrite andb_true_r in Hc.
    rewrite app_assoc, delivered_app_space by exact Hc. now apply IH.
Qed.

Lemma delivered_padded a b : padded a b = true -> delivered a = delivered b.
Proof.
  unfold padded. intros [Hp Hs]%andb_true_iff.
  rewrite (startsWith_split _ _ Hp). now apply delivered_app_spaces.
Qed.

Lemma delivered_all_padded la : forall lb,
  all_padded la lb = true ->
  flat_map delivered la = flat_map delivered lb
  /\ flat_map delivered (removelast la) = flat_map delivered (removelast lb).
Proof.
  induction la as [|a la IH]; intros [|b lb] H; try discriminate; [easy|].
  cbn [all_padded] in H. apply andb_true_iff in H as [Hab H].
  destruct (IH lb H) as [H1 H2]. split.
  - cbn [flat_map]. now rewrite H1, (delivered_padded _ _ Hab).
  - destruct la as [|a' la], lb as [|b' lb]; try discriminate; [reflexivity|].
    change (removelast (a :: a' :: la)) with (a :: removelast (a' :: la)).
    change (removelast (b :: b' :: lb)) with (b :: removelast (b' :: lb)).
    cbn [flat_map]. now rewrite H2, (delivered_padded _ _ Hab).
Qed.

(** X1. White space at the end of a line is ignored, the carriage return
    of a CR LF line ending in particular: a body whose lines are those of
    another followed by white space runs as that other body. *)
Theorem trailing_space_ignored padded_reads reads ending :
  all_padded (lines_of padded_reads) (lines_of reads) = true ->
  processStreamingResponse (Streaming padded_reads ending)
  = processStreamingResponse (Streaming reads ending).
Proof.
  intros H. destruct (delivered_all_padded _ _ H) as [H1 H2].
  destruct ending as [|e].
  - now rewrite !run_closed, H1.
  - now rewrite !run_aborted, H2.
Qed.


(** X3. Whatever JSON value a data line parses to, provided its [choices]
    is not itself a plain object, the line delivers its truthy
    [choices[0].delta.content] and nothing else: a frame of another shape
    (a scalar, [null], no choices, a choice without delta) is passed over
    without stopping the stream. *)
Theorem frame_delivers_delta_content line frame :
  startsWith (str "data:") line = true ->
  eqb (payload line) (str "[DONE]") = false ->
  JSON_parse (payload line) = Ok frame ->
  choices_is_object frame = false ->
  delivered line = frame_delivery frame.
Proof.
  intros Hdata Hdone Hparse Hshape.
  unfold Api.delivered, Api.frame_content, frame_delivery, delta_content.
  fold (payload line).
  rewrite is_data_line_prefix, Hdata, Hdone, Hparse. cbn [bind].
  destruct frame as [| | | | |ps]; try reflexivity. cbn [get bind].
  unfold choices_is_object in Hshape.
  destruct (lookup (str "choices") ps) as [[|[|]|r|[|c s]|[|x l]|cps]|];
    try discriminate; try reflexivity.
  - cbn [truthy length_gt_zero bind]. now destruct (negb (eqb r (str "0"))).
  - cbn [truthy length_gt_zero length Nat.ltb Nat.leb bind get0 nth_error].
    destruct x as [| | | | |choice]; try reflexivity.
    cbn [get bind].
    destruct (lookup (str "delta") choice) as [[|[|]|r|[|c s]|l'|delta]|];
      try reflexivity.
    + cbn [truthy]. now destruct (negb (eqb r (str "0"))).
    + change (truthy (Some (JObj delta))) with true. cbn iota. cbn [get bind].
      destruct (lookup (str "content") delta) as [c|]; [|reflexivity].
      destruct c as [|[|]|r|[|a t]|l0|o]; try reflexivity.
      cbn [truthy]. now destruct (negb (eqb r (str "0"))).
Qed.

End Engine.
End StreamFacts.

Module ListsFacts.
Import JS Api Lists.

Lemma entry_of_entry unnamed item :
  is_null item = false -> entry_of unnamed item = Ok (entry unnamed item).
Proof. destruct item; try discriminate; reflexivity. Qed.

Lemma map_res_entries unnamed items :
  map_res (entry_of unnamed) items
  = if existsb is_null items
    then Throw (TypeError (str "Cannot read properties of null or undefined"))
    else Ok (map (entry unnamed) items).
Proof.
  induction items as [|x items IH]; [reflexivity|].
  cbn [map_res existsb map]. destruct (is_null x) eqn:E.
  - now destruct x.
  - rewrite entry_of_entry by exact E. cbn [bind orb]. rewrite IH.
    now destruct (existsb is_null items).
Qed.

Lemma or_default_truthy v d :
  d <> [] -> truthy (Some (or_default v d)) = true.
Proof.
  intros Hd. unfold or_default. destruct v as [j|]; [|now destruct d].
  destruct (truthy (Some j)) eqn:E; [exact E|now destruct d].
Qed.

Lemma or_default_empty v :
  or_default v [] = JStr [] \/ truthy (Some (or_default v [])) = true.
Proof.
  unfold or_default. destruct v as [j|]; [|now left].
  destruct (truthy (Some j)) eqn:E; [now right|now left].
Qed.

(** The listing in closed form. *)
Lemma list_entries_spec unnamed fetched :
  list_entries unnamed fetched
  = match data_items fetched with
    | Some items =>
        if existsb is_null items then [] else map (entry unnamed) items
    | None => []
    end.
Proof.
  unfold list_entries, data_items.
  destruct fetched as [response|e]; [|reflexivity].
  destruct response as [|[|]|r|[|c s]|l|ps]; try reflexivity.
  - cbn [truthy]. now destruct (negb (eqb r (str "0"))).
  - cbn [truthy negb get].
    destruct (lookup (str "data") ps) as [[|[|]|r|s|items|o]|]; try reflexivity.
    rewrite map_res_entries. now destruct (existsb is_null items).
Qed.

(** X4. The listing is all or nothing.  When the answer is an object whose
    [data] is an array, every element gives an entry, in order, with the
    defaults filled in, unless one element is [null], which empties the
    whole list; any other answer, and any exception, gives the empty
    list. *)
Theorem listing_all_or_nothing fetched :
  listChatAssistants fetched
  = match data_items fetched with
    | Some items =>
        if existsb is_null items then []
        else map (entry (str "Unnamed Assistant")) items
    | None => []
    end
  /\ listDatasets fetched
     = match data_items fetched with
       | Some items =>
           if existsb is_null items then []
           else map (entry (str "Unnamed Dataset")) items
       | None => []
       end.
Proof. split; apply list_entries_spec. Qed.

Lemma entry_defaults unnamed item :
  unnamed <> [] ->
  (fst (entry unnamed item) = JStr []
   \/ truthy (Some (fst (entry unnamed item))) = true)
  /\ truthy (Some (snd (entry unnamed item))) = true.
Proof.
  intros Hd. destruct item; simpl;
    try (split; [now left|now destruct unnamed]).
  split; [apply or_default_empty|now apply or_default_truthy].
Qed.

Lemma list_entries_defaults unnamed fetched :
  unnamed <> [] ->
  Forall (fun e => (fst e = JStr [] \/ truthy (Some (fst e)) = true)
                   /\ truthy (Some (snd e)) = true)
    (list_entries unnamed fetched).
Proof.
  intros Hd. rewrite list_entries_spec.
  destruct (data_items fetched) as [items|]; [|constructor].
  destruct (existsb is_null items); [constructor|].
  apply Forall_forall. intros e [item [<- _]]%in_map_iff.
  now apply entry_defaults.
Qed.

(** X5. Whatever the server answers, a listed identifier is the empty text
    or a truthy value, and a listed name is truthy: no entry carries
    [undefined], [null], [0], [false] or, for its name, the empty text. *)
Theorem listed_entries_have_defaults fetched :
  Forall (fun e => (fst e = JStr [] \/ truthy (Some (fst e)) = true)
                   /\ truthy (Some (snd e)) = true)
    (listChatAssistants fetched ++ listDatasets fetched).
Proof.
  apply Forall_app. split; now apply list_entries_defaults.
Qed.

End ListsFacts.

Module ControllerFacts.
Import JS JSFacts Conversation ConversationFacts Controller.

(** *** Trimming *)

Lemma trimStart_idem s : trimStart (trimStart s) = trimStart s.
Proof.
  induction s as [|c s IH]; [reflexivity|].
  simpl. destruct (is_space c) eqn:E; [exact IH|]. simpl. now rewrite E.
Qed.

Lemma trimStart_head s :
  trimStart s = [] \/ exists c t, trimStart s = c :: t /\ is_space c = false.
Proof.
  induction s as [|c s IH]; [now left|].
  simpl. destruct (is_space c) eqn:E; [exact IH|]. right. now exists c, s.
Qed.

Lemma trimEnd_idem s : trimEnd (trimEnd s) = trimEnd s.
Proof. unfold trimEnd. now rewrite rev_involutive, trimStart_idem. Qed.

Lemma trimEnd_head c t :
  is_space c = false -> exists t', trimEnd (c :: t) = c :: t'.
Proof.
  intros Hc. unfold trimEnd.
  assert (H : forall l, exists l', trimStart (l ++ [c]) = l' ++ [c]).
  { induction l as [|x l [l' IH]]; simpl.
    - rewrite Hc. now exists [].
    - destruct (is_space x); [now exists l'|]. now exists (x :: l). }
  simpl rev. destruct (H (rev t)) as [l' ->].
  rewrite rev_app_distr. simpl. now exists (rev l').
Qed.

(** [s.trim().trim()] is [s.trim()]. *)
Lemma trim_idem s : trim (trim s) = trim s.
Proof.
  unfold trim. destruct (trimStart_head s) as [->|(c & t & -> & Hc)]; [reflexivity|].
  destruct (@trimEnd_head c t Hc) as [t' E].
  rewrite E, trimStart_keeps by exact Hc. rewrite <- E. apply trimEnd_idem.
Qed.

Lemma trim_blank s : forallb is_space s = true -> trim s = [].
Proof.
  intros H. unfold trim.
  assert (E : trimStart s = []).
  { induction s as [|c s IH]; [reflexivity|].
    simpl in *. apply andb_true_iff in H as [-> H]. auto. }
  now rewrite E.
Qed.

(** *** The message array *)

Lemma set_content_shape ms i c :
  map id (set_content ms i c) = map id ms
  /\ map role (set_content ms i c) = map role ms
  /\ map isTemporary (set_content ms i c) = map isTemporary ms
  /\ map reference (set_content ms i c) = map reference ms.
Proof.
  induction ms as [|m ms (H1 & H2 & H3 & H4)]; simpl; [easy|].
  destruct (eqb (id m) i); simpl; [easy|].
  now rewrite H1, H2, H3, H4.
Qed.

Lemma eqb_neq a b : a <> b -> eqb a b = false.
Proof.
  intros H. destruct (eqb a b) eqn:E; [|reflexivity].
  apply eqb_eq in E. contradiction.
Qed.

Lemma set_content_miss ms i c :
  ~ In i (map id ms) -> set_content ms i c = ms.
Proof.
  induction ms as [|m ms IH]; simpl; [easy|]. intros H.
  rewrite eqb_neq by (intros E; apply H; now left).
  f_equal. apply IH. intros E; apply H; now right.
Qed.

Lemma set_content_hit pre m post i c :
  ~ In i (map id pre) -> id m = i ->
  set_content (pre ++ m :: post) i c = pre ++ with_content m c :: post.
Proof.
  intros Hpre Hm. induction pre as [|p pre IH]; simpl.
  - now rewrite Hm, eqb_refl.
  - rewrite eqb_neq by (intros E; apply Hpre; now left).
    f_equal. apply IH. intros E; apply Hpre; now right.
Qed.

Lemma remove_first_hit pre m post i :
  ~ In i (map id pre) -> id m = i ->
  remove_first (pre ++ m :: post) i = pre ++ post.
Proof.
  intros Hpre Hm. induction pre as [|p pre IH]; simpl.
  - now rewrite Hm, eqb_refl.
  - rewrite eqb_neq by (intros E; apply Hpre; now left).
    f_equal. apply IH. intros E; apply Hpre; now right.
Qed.

Lemma remove_first_miss ms i :
  ~ In i (map id ms) -> remove_first ms i = ms.
Proof.
  induction ms as [|m ms IH]; simpl; [easy|]. intros H.
  rewrite eqb_neq by (intros E; apply H; now left).
  f_equal. apply IH. intros E; apply H; now right.
Qed.

Lemma remove_first_length ms i :
  length ms <= S (length (remove_first ms i)).
Proof.
  induction ms as [|m ms IH]; simpl; [lia|].
  destruct (eqb (id m) i); simpl; lia.
Qed.

(** While the reply streams, the message that carries the identifier
    holds the answer so far; the others are not touched. *)
Lemma stream_messages rid pre m post calls : forall st,
  rid <> [] ->
  ~ In rid (map id pre) -> id m = rid ->
  Conversation.messages st = pre ++ m :: post ->
  content m = fullAnswer st ->
  Conversation.messages (fold_left (on_chunk rid) calls st)
  = pre ++ with_content m (fullAnswer st ++ concat (chunk_texts calls)) :: post.
Proof.
  intros st Hrid Hpre Hm. revert st m Hm.
  induction calls as [|[chunk done] calls IH]; intros st m Hm Hst Hc; simpl.
  - rewrite app_nil_r, Hst, <- Hc. now destruct m.
  - destruct done; simpl; [now apply IH|].
    destruct (ToString_value chunk) as [text|e]; simpl; [|now apply IH].
    rewrite app_assoc.
    rewrite (IH _ (with_content m (fullAnswer st ++ text))); simpl; auto.
    unfold updateMessageContent. destruct rid as [|x rid]; [easy|].
    rewrite Hst. now apply set_content_hit.
Qed.

Lemma generated_id_inj a b : generated_id a = generated_id b -> a = b.
Proof. unfold generated_id. apply app_inv_head. Qed.

Lemma generated_id_not_nil a : generated_id a <> [].
Proof. discriminate. Qed.

Lemma addMessage_fresh m stamp st :
  id m = [] ->
  addMessage m stamp st
  = (generated_id stamp,
     set_messages st (messages st ++ [with_id m (generated_id stamp)])).
Proof. unfold addMessage. now intros ->. Qed.

Lemma removeMessage_generated stamp st :
  removeMessage (generated_id stamp) st
  = set_messages st (remove_first (messages st) (generated_id stamp)).
Proof. reflexivity. Qed.

(** [enterTestMode] in closed form. *)
Lemma enterTestMode_spec e g1 g2 st :
  enterTestMode e g1 g2 st
  = {| messages :=
         match messages st with
         | [] =>
             [with_id
                (plain_message assistant
                   (warning_sign
                      ++ str " **Warning**: Could not connect to RAGFlow API. "
                      ++ str "This is running in test mode and will not use your knowledge base. "
                      ++ str "Please check your settings and try again." ++ [LF; LF]
                      ++ str "Error: " ++ e))
                (generated_id g1);
              with_id
                (plain_message assistant
                   (str "This is a mock conversation for testing. Your messages will not be sent to RAGFlow."))
                (generated_id g2)]
         | ms => ms
         end;
       chatAssistant := or_some (chatAssistant st) mock_assistant;
       chatSession := or_some (chatSession st) mock_session;
       isTestMode := true |}.
Proof.
  unfold enterTestMode. cbn [messages].
  destruct (messages st); [|reflexivity].
  rewrite !addMessage_fresh by reflexivity. reflexivity.
Qed.

Lemma chunk_texts_app a b : chunk_texts (a ++ b) = chunk_texts a ++ chunk_texts b.
Proof. unfold chunk_texts. apply flat_map_app. Qed.

Lemma chunk_texts_final c : chunk_texts [Api.Call c true] = [].
Proof. reflexivity. Qed.

Lemma unused_spec i ms : unused i ms = true -> ~ In i (map id ms).
Proof.
  unfold unused. induction ms as [|m ms IH]; simpl; [tauto|].
  intros [Hm H]%andb_true_iff [E|E]; [|now apply IH].
  apply negb_true_iff in Hm. rewrite E, eqb_refl in Hm. discriminate.
Qed.

Lemma negb_eqb_spec (a b : jsstring) : negb (eqb a b) = true -> a <> b.
Proof.
  intros H E. apply negb_true_iff in H. rewrite E, eqb_refl in H. discriminate.
Qed.

Lemma nonempty_spec s : Api.nonempty s = true -> s <> [].
Proof. now destruct s. Qed.

Section Engine.

Variable JSON_parse : jsstring -> res json.
Variable string_gt_zero : jsstring -> bool.

Local Abbreviation sendMessage := (Controller.sendMessage JSON_parse string_gt_zero).
Local Abbreviation exchange := (Controller.exchange JSON_parse string_gt_zero).
Local Abbreviation delivered := (Api.delivered JSON_parse string_gt_zero).

(** A message that goes out: what the window holds afterwards, from the
    calls the exchange made and its outcome. *)
Lemma sendMessage_sent input g fetched date st a s :
  trim input <> [] ->
  chatAssistant st = Some a ->
  chatSession st = Some s ->
  isTestMode st = false ->
  ~ In (generated_id (for_waiting g)) (map id (messages st)) ->
  ~ In (generated_id (for_response g)) (map id (messages st)) ->
  for_waiting g <> for_user g ->
  for_response g <> for_user g ->
  for_response g <> for_waiting g ->
  sendMessage input g fetched date st
  = let (calls, outcome) := exchange (assistant_id a) (trim input) fetched in
    let text := concat (chunk_texts calls) in
    match outcome with
    | Ok _ =>
        {| messages := messages st
                         ++ [user_message (trim input) (for_user g);
                             reply (for_response g) text];
           chatAssistant := Some a;
           chatSession := Some (renamed s date);
           isTestMode := false |}
    | Throw e =>
        {| messages := messages st
                         ++ [user_message (trim input) (for_user g);
                             waiting (for_waiting g);
                             reply (for_response g) text;
                             with_id (error_message e) (generated_id (for_error g))];
           chatAssistant := Some a;
           chatSession := Some s;
           isTestMode := true |}
    end.
Proof.
  intros Hin Ha Hs Ht Hw Hr Hwu Hru Hrw.
  unfold Controller.sendMessage.
  destruct (trim input) as [|x message] eqn:Em; [easy|].
  rewrite Ha, Hs. rewrite !addMessage_fresh by reflexivity.
  cbn [set_messages isTestMode messages chatAssistant chatSession fst snd].
  rewrite Ht.
  destruct (exchange (assistant_id a) (x :: message) fetched) as [calls outcome].
  cbv zeta.
  fold (user_message (x :: message) (for_user g)) (waiting (for_waiting g)).
  set (u := user_message (x :: message) (for_user g)).
  set (w := waiting (for_waiting g)).
  set (r := with_id response_message (generated_id (for_response g))).
  assert (Hpre : ~ In (generated_id (for_response g))
                     (map id ((messages st ++ [u]) ++ [w]))).
  { rewrite !map_app, !in_app_iff. simpl.
    intros [[H|[H|[]]]|[H|[]]]; [easy| |];
      apply generated_id_inj in H; congruence. }
  assert (Hmsgs :
    Conversation.messages
      (stream_into (generated_id (for_response g))
         (((messages st ++ [u]) ++ [w]) ++ [r]) calls)
    = ((messages st ++ [u]) ++ [w])
        ++ [reply (for_response g) (concat (chunk_texts calls))]).
  { unfold stream_into.
    rewrite (@stream_messages _ ((messages st ++ [u]) ++ [w]) r [] calls);
      auto using generated_id_not_nil. }
  rewrite Hmsgs. clear Hmsgs.
  set (r' := reply (for_response g) (concat (chunk_texts calls))).
  destruct outcome as [v|e].
  - rewrite removeMessage_generated.
    cbn [set_messages messages chatAssistant chatSession isTestMode].
    rewrite <- (app_assoc (messages st ++ [u]) [w] [r']). cbn [app].
    rewrite (@remove_first_hit (messages st ++ [u]) w [r']); [| |reflexivity].
    + unfold renamed, set_messages.
      cbn [messages chatAssistant chatSession isTestMode].
      rewrite <- app_assoc. cbn [app]. rewrite Ha, Hs, Ht.
      destruct (session_id s); reflexivity.
    + rewrite map_app, in_app_iff. simpl.
      intros [H|[H|[]]]; [easy|]. apply generated_id_inj in H. congruence.
  - unfold failed. cbn [set_messages messages chatAssistant chatSession isTestMode].
    rewrite Ht. unfold enterTestMode.
    cbn [set_messages messages chatAssistant chatSession isTestMode].
    rewrite <- !app_assoc. cbn [app].
    destruct (messages st ++ u :: w :: [r']) as [|m0 ms0] eqn:E.
    { destruct (messages st); discriminate. }
    rewrite <- E. rewrite addMessage_fresh by reflexivity.
    cbn [set_messages messages chatAssistant chatSession isTestMode snd].
    rewrite Ha, Hs. cbn [or_some]. rewrite <- !app_assoc. reflexivity.
Qed.

Lemma delivered_texts line :
  Forall (fun d => ToString_value (fst d) = Ok (snd d)) (delivered line).
Proof.
  unfold Api.delivered.
  destruct (Api.is_data_line line); [|constructor].
  destruct (Api.frame_content _ _ line) as [[c|]|e]; try constructor.
  destruct (ToString c) as [text|e] eqn:E; constructor; [exact E|constructor].
Qed.

Lemma chunk_texts_deltas ds :
  Forall (fun d => ToString_value (fst d) = Ok (snd d)) ds ->
  chunk_texts (Api.deltas ds) = map snd ds.
Proof.
  induction 1 as [|d ds Hd _ IH]; [reflexivity|].
  unfold chunk_texts in *. simpl. now rewrite Hd, IH.
Qed.

Lemma chunk_texts_streamed lines :
  chunk_texts (Api.deltas (flat_map delivered lines))
  = map snd (flat_map delivered lines).
Proof.
  apply chunk_texts_deltas.
  induction lines as [|l ls IH]; simpl; [constructor|].
  apply Forall_app. split; [apply delivered_texts|exact IH].
Qed.

Lemma chunk_texts_document doc :
  chunk_texts (fst (Api.processStreamingResponse JSON_parse string_gt_zero
                      (Api.Document doc))) = [].
Proof.
  unfold Api.processStreamingResponse.
  destruct (Api.process_document doc) as [made [v|e]] eqn:E;
    unfold Api.process_document in E;
    match type of E with
    | match ?x with _ => _ end = _ => destruct x
    end; injection E as <- _; reflexivity.
Qed.

Lemma exchange_streaming assistantId question reads ending :
  assistantId <> [] -> trim question <> [] ->
  exchange assistantId question (Ok (Api.Streaming reads ending))
  = Api.processStreamingResponse JSON_parse string_gt_zero
      (Api.Streaming reads ending).
Proof.
  intros Ha Hq. unfold Controller.exchange, Api.sendOpenAICompatibleMessage.
  destruct assistantId; [easy|]. destruct (trim question); [easy|]. reflexivity.
Qed.

(** Whatever the exchange delivers comes from the run of the response. *)
Lemma exchange_calls assistantId question response :
  exchange assistantId question (Ok response)
  = Api.processStreamingResponse JSON_parse string_gt_zero response
  \/ exists e, exchange assistantId question (Ok response) = ([], Throw e).
Proof.
  unfold Controller.exchange, Api.sendOpenAICompatibleMessage.
  destruct (negb (Api.nonempty assistantId)); [right; eexists; reflexivity|].
  destruct (negb (Api.nonempty (trim question))); [right; eexists; reflexivity|].
  cbn [bind].
  destruct (negb (Api.response_truthy response)); [right; eexists; reflexivity|].
  destruct (Api.check_error_format response) as [[]|e];
    [left; reflexivity|right; eexists; reflexivity].
Qed.

Lemma fresh_sent input g fetched date st a s :
  Api.nonempty (trim input) = true ->
  chatAssistant st = Some a ->
  chatSession st = Some s ->
  isTestMode st = false ->
  fresh g (messages st) = true ->
  sendMessage input g fetched date st
  = let (calls, outcome) := exchange (assistant_id a) (trim input) fetched in
    let text := concat (chunk_texts calls) in
    match outcome with
    | Ok _ =>
        {| messages := messages st
                         ++ [user_message (trim input) (for_user g);
                             reply (for_response g) text];
           chatAssistant := Some a;
           chatSession := Some (renamed s date);
           isTestMode := false |}
    | Throw e =>
        {| messages := messages st
                         ++ [user_message (trim input) (for_user g);
                             waiting (for_waiting g);
                             reply (for_response g) text;
                             with_id (error_message e) (generated_id (for_error g))];
           chatAssistant := Some a;
           chatSession := Some s;
           isTestMode := true |}
    end.
Proof.
  intros Hin Ha Hs Ht Hf. unfold fresh in Hf.
  apply andb_true_iff in Hf as [Hf H5]. apply andb_true_iff in Hf as [Hf H4].
  apply andb_true_iff in Hf as [Hf H3]. apply andb_true_iff in Hf as [H1 H2].
  apply sendMessage_sent;
    auto using nonempty_spec, unused_spec, negb_eqb_spec.
Qed.

(** X6. A reply that streams to its end: the window then holds the
    question and, under the identifier of the reply, exactly the text that
    [processStream] returns as [fullContent]; the placeholder is gone and
    the session keeps its identifier. *)
Theorem reply_holds_full_content input g reads date st a s :
  Api.nonempty (trim input) = true ->
  chatAssistant st = Some a ->
  Api.nonempty (assistant_id a) = true ->
  chatSession st = Some s ->
  isTestMode st = false ->
  fresh g (messages st) = true ->
  let text := Api.text_of (flat_map delivered (Api.lines_of reads)) in
  snd (Api.processStreamingResponse JSON_parse string_gt_zero
         (Api.Streaming reads Api.Closed))
  = Ok {| Api.fullContent := Some (JStr text);
          Api.sessionId := []; Api.reference := [] |}
  /\ sendMessage input g (Ok (Api.Streaming reads Api.Closed)) date st
     = {| messages := messages st
                        ++ [user_message (trim input) (for_user g);
                            reply (for_response g) text];
          chatAssistant := Some a;
          chatSession := Some (renamed s date);
          isTestMode := false |}.
Proof.
  intros Hin Ha Hid Hs Ht Hf text.
  rewrite ApiFacts.run_closed. split; [reflexivity|].
  rewrite (@fresh_sent input g _ date st a s Hin Ha Hs Ht Hf).
  rewrite exchange_streaming;
    [|now apply nonempty_spec|rewrite trim_idem; now apply nonempty_spec].
  rewrite ApiFacts.run_closed. unfold Api.streamed. cbv zeta.
  rewrite chunk_texts_app, chunk_texts_streamed. unfold Api.completion.
  rewrite chunk_texts_final, app_nil_r. reflexivity.
Qed.

(** X7. An answer that comes as one document is not shown: the callback
    gets it in its final call, which it ignores, so the reply stays
    empty whatever the document says. *)
Theorem document_answer_not_shown input g doc date st a s calls r :
  Api.nonempty (trim input) = true ->
  chatAssistant st = Some a ->
  chatSession st = Some s ->
  isTestMode st = false ->
  fresh g (messages st) = true ->
  exchange (assistant_id a) (trim input) (Ok (Api.Document doc)) = (calls, Ok r) ->
  sendMessage input g (Ok (Api.Document doc)) date st
  = {| messages := messages st
                     ++ [user_message (trim input) (for_user g);
                         reply (for_response g) []];
       chatAssistant := Some a;
       chatSession := Some (renamed s date);
       isTestMode := false |}.
Proof.
  intros Hin Ha Hs Ht Hf Hx.
  rewrite (@fresh_sent input g _ date st a s Hin Ha Hs Ht Hf), Hx. cbv zeta.
  destruct (exchange_calls (assistant_id a) (trim input) (Api.Document doc))
    as [E|[e E]]; [|congruence].
  assert (Hc : calls
               = fst (Api.processStreamingResponse JSON_parse string_gt_zero
                        (Api.Document doc))).
  { rewrite <- E, Hx. reflexivity. }
  now rewrite Hc, chunk_texts_document.
Qed.

(** X8. A send that fails, before or during the stream: the window is in
    test mode afterwards, and the array holds the question, the
    placeholder (still there and still temporary), the reply with what had
    streamed so far, and the error message. *)
Theorem failed_send_keeps_placeholder input g fetched date st a s calls e :
  Api.nonempty (trim input) = true ->
  chatAssistant st = Some a ->
  chatSession st = Some s ->
  isTestMode st = false ->
  fresh g (messages st) = true ->
  exchange (assistant_id a) (trim input) fetched = (calls, Throw e) ->
  sendMessage input g fetched date st
  = {| messages := messages st
                     ++ [user_message (trim input) (for_user g);
                         waiting (for_waiting g);
                         reply (for_response g) (concat (chunk_texts calls));
                         with_id (error_message e) (generated_id (for_error g))];
       chatAssistant := Some a;
       chatSession := Some s;
       isTestMode := true |}.
Proof.
  intros Hin Ha Hs Ht Hf Hx.
  now rewrite (@fresh_sent input g _ date st a s Hin Ha Hs Ht Hf), Hx.
Qed.

(** X9. In test mode nothing of the service is used: the outcome is the
    same whatever the request would yield and whatever the date, and the
    window stays in test mode. *)
Theorem test_mode_uses_no_response input g fetched fetched' date date' st :
  isTestMode st = true ->
  sendMessage input g fetched date st = sendMessage input g fetched' date' st
  /\ isTestMode (sendMessage input g fetched date st) = true.
Proof.
  intros Ht. unfold Controller.sendMessage.
  destruct (trim input) as [|x message]; [easy|].
  destruct (chatAssistant st); [|easy]. destruct (chatSession st); [|easy].
  rewrite !addMessage_fresh by reflexivity.
  cbn [set_messages isTestMode messages chatAssistant chatSession fst snd].
  rewrite Ht. easy.
Qed.

(** X10. Once in test mode the window answers, whatever state it was in:
    any input that is not blank gets the question and the mock answer
    appended, and nothing else changes. *)
Theorem test_mode_answers e g1 g2 input g fetched date st :
  Api.nonempty (trim input) = true ->
  let st' := enterTestMode e g1 g2 st in
  sendMessage input g fetched date st'
  = set_messages st'
      (messages st' ++ [user_message (trim input) (for_user g);
                        with_id mock_response (generated_id (for_mock g))]).
Proof.
  intros Hin st'. unfold Controller.sendMessage.
  destruct (trim input) as [|x message]; [discriminate|].
  assert (Ha : exists a, chatAssistant st' = Some a).
  { unfold st'. rewrite enterTestMode_spec. cbn [chatAssistant].
    destruct (chatAssistant st); simpl; eauto. }
  assert (Hs : exists s, chatSession st' = Some s).
  { unfold st'. rewrite enterTestMode_spec. cbn [chatSession].
    destruct (chatSession st); simpl; eauto. }
  assert (Ht : isTestMode st' = true).
  { unfold st'. now rewrite enterTestMode_spec. }
  destruct Ha as [a ->], Hs as [s ->].
  rewrite !addMessage_fresh by reflexivity.
  cbn [set_messages isTestMode messages chatAssistant chatSession fst snd].
  rewrite Ht. unfold set_messages.
  cbn [set_messages isTestMode messages chatAssistant chatSession fst snd].
  rewrite <- app_assoc. reflexivity.
Qed.

(** X11. A send never changes the assistant, nor the identifier of the
    session: whatever the input, the answer and the state of the window,
    the session keeps the identifier it had (the empty one after a
    successful start). *)
Theorem send_keeps_assistant_and_session input g fetched date st :
  chatAssistant (sendMessage input g fetched date st) = chatAssistant st
  /\ option_map session_id (chatSession (sendMessage input g fetched date st))
     = option_map session_id (chatSession st).
Proof.
  unfold Controller.sendMessage.
  destruct (trim input) as [|x message]; [easy|].
  destruct (chatAssistant st) as [a|] eqn:Ha;
    [|cbn iota; rewrite ?Ha; easy].
  destruct (chatSession st) as [s|] eqn:Hs;
    [|cbn iota; rewrite ?Ha, ?Hs; easy].
  rewrite !addMessage_fresh by reflexivity.
  cbn [set_messages isTestMode messages chatAssistant chatSession fst snd].
  destruct (isTestMode st) eqn:Ht.
  { unfold set_messages. cbn [chatAssistant chatSession]. now rewrite Ha, Hs. }
  destruct (exchange (assistant_id a) (x :: message) fetched) as [calls [r|e]].
  - rewrite removeMessage_generated. unfold set_messages.
    cbn [isTestMode messages chatAssistant chatSession].
    rewrite Ha, Hs. destruct (session_id s) eqn:Hi;
      cbn [chatAssistant chatSession option_map session_id]; now rewrite ?Hi.
  - unfold failed, set_messages.
    cbn [isTestMode messages chatAssistant chatSession].
    rewrite Ht, enterTestMode_spec, addMessage_fresh by reflexivity.
    unfold set_messages.
    cbn [isTestMode messages chatAssistant chatSession snd].
    now rewrite Ha, Hs.
Qed.

(** X12. Input made of white space only changes nothing: no message is
    added and nothing is sent. *)
Theorem blank_input_ignored input g fetched date st :
  forallb is_space input = true ->
  sendMessage input g fetched date st = st.
Proof.
  intros H. unfold Controller.sendMessage. now rewrite trim_blank.
Qed.

End Engine.

(** X13. Identifiers are handed out and found again: removing a message by
    the identifier [addMessage] returned for it restores the window, when
    that identifier was not in use. *)
Theorem added_message_removed m stamp st :
  id m = [] ->
  unused (generated_id stamp) (messages st) = true ->
  removeMessage (fst (addMessage m stamp st)) (snd (addMessage m stamp st)) = st.
Proof.
  intros Hm Hu. rewrite addMessage_fresh by exact Hm.
  cbn [fst snd]. rewrite removeMessage_generated.
  cbn [set_messages messages].
  rewrite remove_first_hit; [|now apply unused_spec|reflexivity].
  rewrite app_nil_r. now destruct st.
Qed.

(** X14. [removeMessage] takes out at most one message, the first that
    carries the identifier, and none for the empty identifier: with the
    empty identifier, or with one that no message carries, the window is
    unchanged; otherwise the first message that carries it, and only that
    one, is gone. *)
Theorem removeMessage_first i st :
  (i = [] -> removeMessage i st = st)
  /\ (i <> [] -> ~ In i (map id (messages st)) -> removeMessage i st = st)
  /\ (forall before m after,
        i <> [] ->
        messages st = before ++ m :: after ->
        id m = i -> ~ In i (map id before) ->
        removeMessage i st = set_messages st (before ++ after)).
Proof.
  split; [|split].
  - now intros ->.
  - intros Hi Hno. destruct i as [|x i]; [easy|].
    unfold removeMessage. rewrite remove_first_miss by exact Hno.
    now destruct st.
  - intros before m after Hi Hms Hm Hno. destruct i as [|x i]; [easy|].
    unfold removeMessage. rewrite Hms.
    now rewrite remove_first_hit.
Qed.

(** X15. A second call of [enterTestMode] changes nothing. *)
Theorem enterTestMode_idempotent e1 g1 g2 e2 g3 g4 st :
  enterTestMode e2 g3 g4 (enterTestMode e1 g1 g2 st) = enterTestMode e1 g1 g2 st.
Proof.
  rewrite (enterTestMode_spec e1). rewrite enterTestMode_spec.
  cbn [messages chatAssistant chatSession isTestMode].
  destruct (messages st), (chatAssistant st), (chatSession st); reflexivity.
Qed.


(** X16. The window once it has opened.  When the settings are filled in,
    the connection test passes and the listing holds the selected
    identifier as a text, the messages of test mode are discarded and the
    window holds the welcome message, the selected assistant and a session
    without identifier.  In every other case the window is in test mode as
    entered before the attempt: the warning reads [Initializing...], not
    the error met, and the second [enterTestMode] finds nothing to do. *)
Theorem window_after_opening settings ragflowUrl apiKey connection listing g st :
  onOpen settings ragflowUrl apiKey connection listing g st
  = if can_start settings ragflowUrl apiKey connection listing then
      let a := {| assistant_id := Markdown.chatAssistantId settings;
                  assistant_name :=
                    Markdown.or_else (Markdown.chatAssistantName settings)
                      (str "RAGFlow Assistant") |} in
      {| messages := [with_id (welcome a) (generated_id (for_greeting g))];
         chatAssistant := Some a;
         chatSession := Some {| session_id := []; session_name := [];
                                session_messages := [] |};
         isTestMode := false |}
    else
      enterTestMode (str "Initializing...")
        (for_first_warning g) (for_first_welcome g) st.
Proof.
  unfold onOpen, initializeConversation, can_start.
  destruct (Api.nonempty ragflowUrl); cbn [negb andb];
    [|now rewrite enterTestMode_spec].
  destruct (Api.nonempty apiKey); cbn [negb andb];
    [|now rewrite enterTestMode_spec].
  destruct (Api.nonempty (Markdown.chatAssistantId settings)); cbn [negb andb];
    [|now rewrite enterTestMode_spec].
  destruct (Lists.testConnection connection); cbn [negb andb];
    [|now rewrite enterTestMode_spec].
  destruct (existsb _ (Lists.listChatAssistants listing)); cbn [negb];
    [|now rewrite enterTestMode_spec].
  now rewrite addMessage_fresh by reflexivity.
Qed.

(** X17. Streaming a reply never adds, removes or reorders messages, and
    never changes an identifier, a role, a reference list or the temporary
    mark: only contents change, and only under the identifier of the
    reply. *)
Theorem streaming_keeps_messages rid msgs calls :
  let after := Conversation.messages (stream_into rid msgs calls) in
  map kept_fields after = map kept_fields msgs
  /\ filter (fun m => negb (eqb (id m) rid)) after
     = filter (fun m => negb (eqb (id m) rid)) msgs.
Proof.
  unfold stream_into.
  set (st := {| fullAnswer := []; Conversation.messages := msgs; updates := [] |}).
  change msgs with (Conversation.messages st). clearbody st. clear msgs.
  revert st. induction calls as [|[chunk done] calls IH]; intros st; [easy|].
  simpl. destruct done; [apply IH|].
  destruct (ToString_value chunk) as [text|e]; [|apply IH].
  specialize (IH {| fullAnswer := fullAnswer st ++ text;
                    Conversation.messages :=
                      updateMessageContent (Conversation.messages st) rid
                        (fullAnswer st ++ text);
                    updates := updates st ++ [fullAnswer st ++ text] |}).
  cbv zeta in IH. destruct IH as [IH1 IH2]. rewrite IH1, IH2. clear IH1 IH2.
  cbn [Conversation.messages].
  unfold updateMessageContent. destruct rid as [|x rid]; [easy|].
  set (j := x :: rid). clearbody j.
  induction (Conversation.messages st) as [|m ms [H1 H2]]; [easy|].
  simpl. destruct (eqb (id m) j) eqn:E; simpl.
  - rewrite E. simpl. easy.
  - rewrite E. simpl. now rewrite H1, H2.
Qed.

End ControllerFacts.

Module PluginFacts.
Import JS JSFacts Conversation Regex Plugin.

(** *** The title *)

(** Replacing every match of a one-character class by one character is a
    map over the text. *)
Lemma replace_class f x s :
  replace_all [One f] (by_text [x]) s = map (fun c => if f c then x else c) s.
Proof.
  unfold replace_all. induction s as [|c s IH]; [reflexivity|].
  cbn [replace_from match_here map]. destruct (f c); cbn [option_map].
  - cbn [firstn by_text app]. now rewrite IH.
  - now rewrite IH.
Qed.

Lemma forbidden_underscored s :
  forallb (fun c => negb (forbidden c)) (underscored s) = true.
Proof.
  induction s as [|c s IH]; [reflexivity|].
  simpl. rewrite IH, andb_true_r.
  destruct (forbidden c) eqn:E; [reflexivity|now rewrite E].
Qed.

Lemma title_lacks_forbidden messages date :
  match find (fun m => is_user (role m)) messages with
  | Some m =>
      forallb (fun c => negb (forbidden c)) (title_of messages date) = true
  | None => True
  end.
Proof.
  unfold title_of. destruct (find _ messages) as [m|]; [|exact I].
  change (str "_") with [95%N]. rewrite replace_class.
  apply forbidden_underscored.
Qed.

(** X18. The title taken from the first question is its first fifty units
    with each of the nine forbidden characters replaced by an underscore:
    at most fifty units long, free of those characters, and the question
    itself when it is short and has none of them.  Without a question the
    title is the default followed by the date as it is. *)
Theorem title_is_safe messages date :
  match find (fun m => is_user (role m)) messages with
  | Some m =>
      title_of messages date = underscored (firstn 50 (content m))
      /\ length (title_of messages date) <= 50
      /\ forallb (fun c => negb (forbidden c)) (title_of messages date) = true
      /\ (length (content m) <= 50 ->
          forallb (fun c => negb (forbidden c)) (content m) = true ->
          title_of messages date = content m)
  | None => title_of messages date = str "RAGFlow Conversation " ++ date
  end.
Proof.
  unfold title_of. destruct (find _ messages) as [m|]; [|reflexivity].
  change (str "_") with [95%N]. rewrite replace_class.
  fold (underscored (firstn 50 (content m))).
  split; [reflexivity|]. split; [|split].
  - unfold underscored. rewrite length_map. apply firstn_le_length.
  - apply forbidden_underscored.
  - intros Hlen Hok. rewrite firstn_all2 by exact Hlen.
    unfold underscored. induction (content m) as [|c s IH]; [reflexivity|].
    simpl in *. apply andb_true_iff in Hok as [Hc Hs].
    apply negb_true_iff in Hc. rewrite Hc. f_equal. apply IH; [lia|exact Hs].
Qed.

(** *** Paths *)

Lemma forbidden_slash s :
  forallb (fun c => negb (forbidden c)) s = true -> ~ In SLASH s.
Proof.
  intros H Hin. rewrite forallb_forall in H. now apply H in Hin.
Qed.

Lemma split_pieces sep s : Forall (fun h => ~ In sep h) (split sep s).
Proof.
  induction s as [|c s IH]; [repeat constructor; simpl; tauto|].
  rewrite split_cons. destruct (N.eqb_spec c sep) as [->|Hc].
  - constructor; [simpl; tauto|exact IH].
  - destruct (split sep s) as [|h t]; [repeat constructor; simpl; intuition|].
    inversion IH; subst. constructor; [|assumption].
    simpl. intuition.
Qed.

Lemma segments_pieces folderPath :
  Forall (fun h => h <> [] /\ ~ In SLASH h) (segments folderPath).
Proof.
  unfold segments. pose proof (split_pieces SLASH folderPath) as H.
  induction H as [|h t Hh _ IH]; [constructor|].
  simpl. destruct h as [|c h]; [exact IH|].
  simpl. constructor; [|exact IH]. split; [discriminate|exact Hh].
Qed.

Lemma split_piece sep h rest :
  ~ In sep h -> split sep (h ++ sep :: rest) = h :: split sep rest.
Proof.
  induction h as [|c h IH]; intros H.
  - simpl app. now rewrite split_cons, N.eqb_refl.
  - rewrite <- app_comm_cons, split_cons.
    destruct (N.eqb_spec c sep) as [->|_]; [exfalso; apply H; now left|].
    rewrite IH; [reflexivity|]. intros Hin; apply H; now right.
Qed.

Lemma split_join segs :
  segs <> [] -> Forall (fun h => ~ In SLASH h) segs ->
  split SLASH (join [SLASH] segs) = segs.
Proof.
  intros Hne H. induction H as [|h t Hh Ht IH]; [easy|]. clear Hne.
  destruct t as [|h' t].
  - simpl join. now apply split_no_sep.
  - change (join [SLASH] (h :: h' :: t))
      with (h ++ SLASH :: join [SLASH] (h' :: t)).
    rewrite split_piece by exact Hh. now rewrite IH.
Qed.

Lemma segments_join segs :
  Forall (fun h => h <> [] /\ ~ In SLASH h) segs ->
  segments (join [SLASH] segs) = segs.
Proof.
  intros H. destruct segs as [|h t]; [reflexivity|].
  unfold segments. rewrite split_join; [|discriminate|].
  - induction H as [|x l [Hx _] _ IH]; [reflexivity|].
    simpl. destruct x; [easy|]. simpl. now rewrite IH.
  - eapply Forall_impl; [|exact H]. now intros a [_ Ha].
Qed.

Lemma extend_length cp folder :
  folder <> [] -> length cp < length (extend cp folder).
Proof.
  intros H. unfold extend. destruct cp as [|c cp].
  - destruct folder; [easy|simpl; lia].
  - rewrite !length_app. simpl. lia.
Qed.

Lemma paths_from_longer cp folders :
  Forall (fun h => h <> []) folders ->
  Forall (fun p => length cp < length p) (paths_from cp folders).
Proof.
  intros H. revert cp. induction H as [|f fs Hf _ IH]; intros cp; [constructor|].
  simpl. pose proof (extend_length cp Hf) as Hl. constructor; [exact Hl|].
  eapply Forall_impl; [|apply IH]. simpl. intros; lia.
Qed.

(** X19. With a question in the conversation the note lies in the save
    folder itself: the title holds no slash, so the path of the note is
    the path of the folder followed by one more segment, the title with
    its extension. *)
Theorem note_in_save_folder saveFolderPath messages date m :
  find (fun m => is_user (role m)) messages = Some m ->
  split SLASH (file_path saveFolderPath (title_of messages date))
  = split SLASH saveFolderPath ++ [title_of messages date ++ str ".md"].
Proof.
  intros Hm. pose proof (title_lacks_forbidden messages date) as H.
  rewrite Hm in H.
  assert (Hs : ~ In SLASH (title_of messages date ++ str ".md")).
  { rewrite in_app_iff. intros [Hin|Hin].
    - now apply (forbidden_slash _ H).
    - simpl in Hin. unfold SLASH in Hin. intuition discriminate. }
  unfold file_path. rewrite split_app. cbn [app].
  rewrite split_piece by apply last_split_no_sep.
  rewrite (@split_no_sep SLASH _ Hs).
  rewrite <- (@removelast_app_last _ (split SLASH saveFolderPath) [])
    at 3 by apply split_not_nil.
  now rewrite <- app_assoc.
Qed.

Section Vault.

Variable vault : Type.
Variable getAbstractFileByPath : vault -> jsstring -> option kind.
Variable createFolder : vault -> jsstring -> vault * res unit.

Local Abbreviation ensure_from := (Plugin.ensure_from getAbstractFileByPath createFolder).
Local Abbreviation ensureFolderExists :=
  (Plugin.ensureFolderExists getAbstractFileByPath createFolder).

Lemma ensure_from_folders folders : forall v cp,
  forallb (fun p => is_folder (getAbstractFileByPath v p)) (paths_from cp folders) = true ->
  ensure_from v cp folders = (v, Ok tt).
Proof.
  induction folders as [|f fs IH]; intros v cp H; [reflexivity|].
  simpl in *. apply andb_true_iff in H as [Hf H].
  destruct (getAbstractFileByPath v (extend cp f)) as [[|]|]; try discriminate.
  now apply IH.
Qed.

Lemma ensure_from_blocked folders : forall v cp before p after,
  paths_from cp folders = before ++ p :: after ->
  forallb (fun q => is_folder (getAbstractFileByPath v q)) before = true ->
  getAbstractFileByPath v p = Some TFile ->
  ensure_from v cp folders
  = (v, Throw (Error (p ++ str " exists but is not a folder"))).
Proof.
  induction folders as [|f fs IH]; intros v cp before p after Hp Hb Hf.
  - now destruct before.
  - simpl in Hp. destruct before as [|b before]; simpl in Hp.
    + injection Hp as <- _. simpl. now rewrite Hf.
    + injection Hp as <- Hp. simpl in Hb.
      apply andb_true_iff in Hb as [Hb1 Hb].
      simpl. destruct (getAbstractFileByPath v (extend cp f)) as [[|]|];
        try discriminate.
      now apply (IH v _ before p after).
Qed.

Lemma ensure_from_creates folders : forall v cp,
  creates_folders getAbstractFileByPath createFolder ->
  Forall (fun h => h <> []) folders ->
  forallb (fun p => negb (is_file (getAbstractFileByPath v p)))
    (paths_from cp folders) = true ->
  let v' := fst (ensure_from v cp folders) in
  snd (ensure_from v cp folders) = Ok tt
  /\ Forall (fun p => getAbstractFileByPath v' p = Some TFolder)
       (paths_from cp folders)
  /\ forall q, ~ In q (paths_from cp folders) ->
       getAbstractFileByPath v' q = getAbstractFileByPath v q.
Proof.
  intros v cp Hlaw Hne. revert v cp.
  induction Hne as [|f fs Hf Hfs IH]; intros v cp H; [simpl; auto|].
  simpl in H. apply andb_true_iff in H as [Hp H].
  pose proof (paths_from_longer (extend cp f) Hfs) as Hlong.
  assert (Hnotin : ~ In (extend cp f) (paths_from (extend cp f) fs)).
  { intros Hin. rewrite Forall_forall in Hlong. apply Hlong in Hin. lia. }
  cbn [ensure_from paths_from].
  destruct (getAbstractFileByPath v (extend cp f)) as [[|]|] eqn:E;
    [discriminate| |].
  - destruct (IH v (extend cp f) H) as (H1 & H2 & H3).
    split; [exact H1|]. split.
    + constructor; [|exact H2]. rewrite H3 by exact Hnotin. exact E.
    + intros q Hq. apply H3. intros Hin. apply Hq. now right.
  - destruct (Hlaw v (extend cp f) E) as (L1 & L2 & L3).
    destruct (createFolder v (extend cp f)) as [v1 created] eqn:Ec.
    simpl in L1, L2, L3. subst created.
    assert (H' : forallb (fun p => negb (is_file (getAbstractFileByPath v1 p)))
                   (paths_from (extend cp f) fs) = true).
    { rewrite forallb_forall in *. intros p Hin.
      rewrite L3; [now apply H|]. intros ->. contradiction. }
    destruct (IH v1 (extend cp f) H') as (H1 & H2 & H3).
    split; [exact H1|]. split.
    + constructor; [|exact H2]. rewrite H3 by exact Hnotin. exact L2.
    + intros q Hq. rewrite H3 by (intros Hin; apply Hq; now right).
      apply L3. intros ->. apply Hq. now left.
Qed.

Lemma segments_nonempty folderPath :
  Forall (fun h => h <> []) (segments folderPath).
Proof.
  eapply Forall_impl; [|apply segments_pieces]. now intros a [Ha _].
Qed.

(** X20. When every folder on the way is there already, nothing is created
    and the vault is left as it is. *)
Theorem existing_folders_untouched v folderPath :
  forallb (fun p => is_folder (getAbstractFileByPath v p)) (paths folderPath) = true ->
  ensureFolderExists v folderPath = (v, Ok tt).
Proof. apply ensure_from_folders. Qed.

(** X21. A file on the way stops the walk: when the folders before it are
    there and the next path is a file, the error names that path and
    nothing has been created. *)
Theorem file_in_the_way v folderPath before p after :
  paths folderPath = before ++ p :: after ->
  forallb (fun q => is_folder (getAbstractFileByPath v q)) before = true ->
  getAbstractFileByPath v p = Some TFile ->
  ensureFolderExists v folderPath
  = (v, Throw (Error (p ++ str " exists but is not a folder"))).
Proof. apply ensure_from_blocked. Qed.

(** X22. Empty segments do not count: leading, trailing and doubled slashes
    give the same walk as the segments joined by single slashes. *)
Theorem empty_segments_ignored v folderPath :
  segments (join [SLASH] (segments folderPath)) = segments folderPath
  /\ ensureFolderExists v folderPath
     = ensureFolderExists v (join [SLASH] (segments folderPath)).
Proof.
  assert (H : segments (join [SLASH] (segments folderPath)) = segments folderPath)
    by apply segments_join, segments_pieces.
  split; [exact H|]. unfold Plugin.ensureFolderExists. now rewrite H.
Qed.

(** X23. On a vault that creates folders as asked, and with no file on the
    way, the call succeeds; afterwards every path on the way is a folder
    and every other path is as it was. *)
Theorem folders_exist_afterwards v folderPath :
  creates_folders getAbstractFileByPath createFolder ->
  forallb (fun p => negb (is_file (getAbstractFileByPath v p)))
    (paths folderPath) = true ->
  let v' := fst (ensureFolderExists v folderPath) in
  snd (ensureFolderExists v folderPath) = Ok tt
  /\ Forall (fun p => getAbstractFileByPath v' p = Some TFolder) (paths folderPath)
  /\ forall q, ~ In q (paths folderPath) ->
       getAbstractFileByPath v' q = getAbstractFileByPath v q.
Proof.
  intros Hlaw H. apply ensure_from_creates; auto using segments_nonempty.
Qed.

(** X24. Ensuring a folder twice is ensuring it once: on such a vault the
    second call finds the folders and changes nothing. *)
Theorem ensureFolderExists_idempotent v folderPath :
  creates_folders getAbstractFileByPath createFolder ->
  forallb (fun p => negb (is_file (getAbstractFileByPath v p)))
    (paths folderPath) = true ->
  let v' := fst (ensureFolderExists v folderPath) in
  ensureFolderExists v' folderPath = (v', Ok tt).
Proof.
  intros Hlaw H v'.
  destruct (@ensure_from_creates (segments folderPath) v [] Hlaw
              (segments_nonempty folderPath) H) as (_ & H2 & _).
  apply ensure_from_folders. apply forallb_forall. intros p Hin.
  rewrite Forall_forall in H2. unfold v', Plugin.ensureFolderExists.
  now rewrite (H2 p Hin).
Qed.

Variable read : vault -> jsstring -> res jsstring.
Variable modify : vault -> jsstring -> jsstring -> vault * res unit.
Variable create : vault -> jsstring -> jsstring -> vault * res unit.

(** X25. Nothing is written when the save folder cannot be had: with a file
    on the way, saving a conversation that is not empty leaves the vault
    as it was and throws the error of the folder walk. *)
Theorem nothing_saved_when_blocked settings saveFolderPath titleDate date
    messages v before p after :
  messages <> [] ->
  paths saveFolderPath = before ++ p :: after ->
  forallb (fun q => is_folder (getAbstractFileByPath v q)) before = true ->
  getAbstractFileByPath v p = Some TFile ->
  saveConversationToNote getAbstractFileByPath createFolder read modify create
    settings saveFolderPath titleDate date messages v
  = (v, Throw (Error (p ++ str " exists but is not a folder"))).
Proof.
  intros Hne Hp Hb Hf. unfold saveConversationToNote.
  destruct messages as [|m ms]; [easy|].
  unfold Plugin.ensureFolderExists.
  now rewrite (@ensure_from_blocked _ v [] before p after Hp Hb Hf).
Qed.

End Vault.

(** The vault in memory creates folders as asked. *)
Lemma memory_creates_folders :
  creates_folders Memory.getAbstractFileByPath Memory.createFolder.
Proof.
  intros v p _. unfold Memory.createFolder, Memory.getAbstractFileByPath.
  simpl. rewrite eqb_refl. repeat split.
  intros q Hq. destruct (eqb p q) eqn:E; [|reflexivity].
  apply eqb_eq in E. congruence.
Qed.

End PluginFacts.

Module TagsFacts.
Import JS JSFacts Regex RegexFacts Markdown MarkdownFacts Tags.

(** *** Thinning *)

Lemma thinned_refl s : thinned s s.
Proof. induction s; now constructor. Qed.

Lemma thinned_uncons c s t : thinned s (c :: t) -> thinned s t.
Proof.
  intros H. remember (c :: t) as u eqn:E. revert c t E.
  induction H as [|x s u H IH|x s u H IH|x s u Hx H IH]; intros c t E.
  - discriminate.
  - injection E as -> ->. now apply thinned_drop.
  - apply thinned_drop. now apply (IH c).
  - injection E as -> ->. exact H.
Qed.

Lemma thinned_step c s t u :
  thinned s (c :: t) -> (forall s', thinned s' t -> thinned s' u) ->
  thinned s (c :: u).
Proof.
  intros H Hk. remember (c :: t) as v eqn:E. revert E.
  induction H as [|x s v H IH|x s v H IH|x s v Hx H IH]; intros E.
  - discriminate.
  - injection E as -> ->. apply thinned_keep. now apply Hk.
  - apply thinned_drop. now apply IH.
  - injection E as -> ->. apply thinned_add; [exact Hx|]. now apply Hk.
Qed.

Lemma thinned_trans t u : thinned t u -> forall s, thinned s t -> thinned s u.
Proof.
  induction 1 as [|c t u H IH|c t u H IH|c t u Hc H IH]; intros s Hs.
  - exact Hs.
  - now apply (thinned_step Hs).
  - apply IH. now apply thinned_uncons in Hs.
  - apply thinned_add; [exact Hc|]. now apply IH.
Qed.

Lemma thinned_app a a' b b' :
  thinned a a' -> thinned b b' -> thinned (a ++ b) (a' ++ b').
Proof.
  induction 1 as [|c s t H IH|c s t H IH|c s t Hc H IH]; intros Hb; simpl.
  - exact Hb.
  - apply thinned_keep. now apply IH.
  - apply thinned_drop. now apply IH.
  - apply thinned_add; [exact Hc|]. now apply IH.
Qed.

Lemma thinned_drop_all s : thinned s [].
Proof. induction s; now constructor. Qed.

Lemma thinned_suffix pre s : thinned (pre ++ s) s.
Proof.
  change s with ([] ++ s) at 2.
  apply thinned_app; [apply thinned_drop_all|apply thinned_refl].
Qed.

Lemma thinned_prefix s post : thinned (s ++ post) s.
Proof.
  rewrite <- (app_nil_r s) at 2.
  apply thinned_app; [apply thinned_refl|apply thinned_drop_all].
Qed.

Lemma thinned_neutral t : forallb neutral t = true -> thinned [] t.
Proof.
  induction t as [|c t IH]; simpl; [constructor|].
  intros [Hc Ht]%andb_true_iff. apply thinned_add; auto.
Qed.

Lemma thinned_trim s : thinned s (trim s).
Proof.
  unfold trim. destruct (trimStart_suffix s) as [pre E].
  destruct (trimEnd_prefix (trimStart s)) as [post E'].
  apply thinned_trans with (t := trimStart s).
  - rewrite E' at 1. apply thinned_prefix.
  - rewrite E at 1. apply thinned_suffix.
Qed.

(** Replacing matches by neutral text thins. *)
Lemma thinned_replace_from p rep :
  (forall s n, match_here p s = Some n ->
               forallb neutral (rep (firstn n s)) = true) ->
  forall s k, thinned s (replace_from p rep k s).
Proof.
  intros Hrep. induction s as [|c s IH]; intros k.
  - destruct k; simpl; [|constructor].
    destruct (match_here p []) as [n|] eqn:E; [|constructor].
    apply thinned_neutral. apply (Hrep [] n) in E. now destruct n.
  - destruct k as [|k]; cbn [replace_from]; [|apply thinned_drop, IH].
    destruct (match_here p (c :: s)) as [[|n]|] eqn:E.
    + apply (thinned_app (a:=[]) (b:=c :: s)).
      * apply thinned_neutral. exact (Hrep _ _ E).
      * apply thinned_keep, IH.
    + apply (thinned_app (a:=[]) (b:=c :: s)).
      * apply thinned_neutral. exact (Hrep _ _ E).
      * apply thinned_drop, IH.
    + apply thinned_keep, IH.
Qed.

Lemma thinned_remove_all p s : thinned s (remove_all p s).
Proof. apply thinned_replace_from. reflexivity. Qed.

Lemma thinned_join f ls :
  (forall l, thinned l (f l)) ->
  thinned (join [LF] ls) (join [LF] (map f ls)).
Proof.
  intros Hf. induction ls as [|l ls IH]; [constructor|].
  destruct ls as [|l' ls]; [apply Hf|].
  change (join [LF] (l :: l' :: ls)) with (l ++ LF :: join [LF] (l' :: ls)).
  change (join [LF] (map f (l :: l' :: ls)))
    with (f l ++ LF :: join [LF] (map f (l' :: ls))).
  apply thinned_app; [apply Hf|]. now apply thinned_keep.
Qed.

(** *** What the white-space passes put in *)

Lemma punctuation_neutral c : punctuation c = true -> neutral c = true.
Proof.
  unfold punctuation. change (str ".,;:!?") with [46; 44; 59; 58; 33; 63]%N.
  cbn [existsb]. rewrite !orb_true_iff, !N.eqb_eq.
  intros H. unfold neutral, LT, GT.
  destruct H as [->|[->|[->|[->|[->|[->|H]]]]]]; try reflexivity. discriminate.
Qed.

Lemma group1_neutral s n :
  match_here space_before_punctuation s = Some n ->
  forallb neutral (group1 (firstn n s)) = true.
Proof.
  intros H.
  change space_before_punctuation
    with [One space; Star space; One punctuation] in H.
  destruct s as [|x s]; [discriminate|].
  cbn [match_here] in H. destruct (space x); [|discriminate].
  destruct (greedy space _ s) as [m|] eqn:E; [|discriminate].
  injection H as <-.
  apply greedy_sound in E as (r & u & m' & -> & Hr & Hk & ->).
  destruct u as [|c u]; [discriminate|].
  destruct (punctuation c) eqn:Hc; [|discriminate].
  injection Hk as <-.
  assert (Hm : firstn (S (length r + 1)) (x :: r ++ c :: u) = (x :: r) ++ [c]).
  { change (x :: r ++ c :: u) with ((x :: r) ++ c :: u).
    replace (S (length r + 1)) with (length (x :: r) + 1) by reflexivity.
    rewrite firstn_app_2. reflexivity. }
  rewrite Hm. unfold group1. rewrite rev_app_distr. simpl.
  now rewrite punctuation_neutral.
Qed.

Lemma thinned_tidy s : thinned s (tidy s).
Proof.
  unfold tidy.
  set (a := trim s).
  set (b := replace_all space_before_punctuation group1 a).
  set (f := fun line => trim (replace_all spaces (by_text (str " ")) line)).
  set (c := join [LF] (map f (split LF b))).
  assert (Ha : thinned s a) by apply thinned_trim.
  assert (Hb : thinned a b).
  { apply thinned_replace_from. apply group1_neutral. }
  assert (Hc : thinned b c).
  { unfold c. rewrite <- (join_split LF b) at 1. apply thinned_join.
    intros l. unfold f.
    apply thinned_trans with (t := replace_all spaces (by_text (str " ")) l).
    - apply thinned_trim.
    - apply thinned_replace_from. reflexivity. }
  assert (Hd : thinned c (replace_all blank_lines (by_text [LF; LF]) c)).
  { apply thinned_replace_from. reflexivity. }
  eauto using thinned_trans.
Qed.

(** *** Tags *)

Lemma thinned_no_gt s t :
  thinned s t -> existsb (N.eqb GT) s = false -> existsb (N.eqb GT) t = false.
Proof.
  induction 1 as [|c s t H IH|c s t H IH|c s t Hc H IH];
    cbn [existsb]; intros Hs.
  - reflexivity.
  - apply orb_false_iff in Hs as [-> Hs]. now apply IH.
  - apply orb_false_iff in Hs as [_ Hs]. now apply IH.
  - rewrite IH by exact Hs. unfold neutral in Hc.
    apply andb_true_iff in Hc as [_ Hc]. apply negb_true_iff in Hc.
    now rewrite N.eqb_sym, Hc.
Qed.

Lemma thinned_tagless s t : thinned s t -> tagless s = true -> tagless t = true.
Proof.
  induction 1 as [|c s t H IH|c s t H IH|c s t Hc H IH];
    cbn [tagless]; intros Hs.
  - reflexivity.
  - apply andb_true_iff in Hs as [Hc Hs]. rewrite IH by exact Hs.
    rewrite andb_true_r. apply orb_true_iff in Hc as [->|Hc]; [reflexivity|].
    apply negb_true_iff in Hc. rewrite (thinned_no_gt H Hc). apply orb_true_r.
  - apply andb_true_iff in Hs as [_ Hs]. now apply IH.
  - rewrite IH by exact Hs. unfold neutral in Hc.
    apply andb_true_iff in Hc as [-> _]. reflexivity.
Qed.

(** A [>] further on: the tag pattern matches at [<]. *)
Lemma tag_found s :
  existsb (N.eqb GT) s = true ->
  greedy (other_than 62) (match_here [One (N.eqb 62)]) s <> None.
Proof.
  induction s as [|x s IH]; [discriminate|].
  cbn [existsb]. intros H. cbn [greedy]. unfold other_than at 1.
  destruct (N.eqb_spec x 62) as [->|Hx]; cbn [negb].
  - cbn [match_here]. rewrite N.eqb_refl. discriminate.
  - apply orb_true_iff in H as [H|H].
    + apply N.eqb_eq in H. unfold GT in H. congruence.
    + specialize (IH H). now destruct (greedy _ _ s).
Qed.

Lemma tag_not_found s :
  existsb (N.eqb GT) s = false ->
  greedy (other_than 62) (match_here [One (N.eqb 62)]) s = None.
Proof.
  induction s as [|x s IH]; [reflexivity|].
  cbn [existsb]. intros [Hx Hs]%orb_false_iff. cbn [greedy].
  rewrite (IH Hs). unfold other_than. unfold GT in Hx.
  assert (Hx' : N.eqb x 62 = false) by (rewrite N.eqb_sym; exact Hx).
  rewrite Hx'. cbn [negb match_here]. now rewrite Hx.
Qed.

Lemma html_tag_match c s :
  match_here html_tag (c :: s)
  = if N.eqb 60 c
    then option_map S (greedy (other_than 62) (match_here [One (N.eqb 62)]) s)
    else None.
Proof. reflexivity. Qed.

(** The tag pass leaves no tag. *)
Lemma remove_tags_bounded n : forall s,
  length s <= n -> tagless (remove_all html_tag s) = true.
Proof.
  induction n as [|n IH]; intros s Hn.
  - destruct s; [reflexivity|simpl in Hn; lia].
  - destruct s as [|c s]; [reflexivity|]. simpl in Hn.
    unfold remove_all, replace_all. cbn [replace_from].
    destruct (match_here html_tag (c :: s)) as [[|m]|] eqn:E.
    + now apply match_One_positive in E.
    + pose proof (match_here_le _ _ E) as Hm. simpl in Hm.
      cbn [by_text app]. rewrite replace_from_skip by lia.
      apply IH. rewrite length_skipn. lia.
    + assert (Hs : tagless (replace_from html_tag (by_text []) 0 s) = true)
        by (apply IH; lia).
      cbn [tagless]. rewrite Hs, andb_true_r.
      rewrite html_tag_match in E.
      destruct (N.eqb_spec 60 c) as [<-|Hc].
      * destruct (existsb (N.eqb GT) s) eqn:Hgt.
        -- apply tag_found in Hgt. now destruct (greedy _ _ s).
        -- pose proof (thinned_no_gt (thinned_remove_all html_tag s) Hgt) as Hr.
           unfold remove_all, replace_all in Hr. rewrite Hr.
           apply orb_true_r.
      * apply N.eqb_neq in Hc. unfold LT. now rewrite N.eqb_sym, Hc.
Qed.

Lemma remove_tags_tagless s : tagless (remove_all html_tag s) = true.
Proof. now apply (@remove_tags_bounded (length s)). Qed.

Lemma tagless_occurs s : tagless s = true -> occurs html_tag s = false.
Proof.
  induction s as [|c s IH]; [reflexivity|].
  cbn [tagless occurs]. intros [Hc Hs]%andb_true_iff.
  rewrite html_tag_match, (IH Hs).
  destruct (N.eqb_spec 60 c) as [<-|_]; [|reflexivity].
  apply orb_true_iff in Hc as [Hc|Hc]; [discriminate|].
  apply negb_true_iff in Hc. now rewrite tag_not_found.
Qed.

(** X26. No tag reaches the transcript through a content: whatever the
    message holds, its cleaned content has no [<] followed anywhere by a
    [>], so the tag pattern matches nowhere in it; and the same holds for
    the text shown of a reference. *)
Theorem cleaned_content_has_no_tag (c : jsstring) (r : Conversation.Reference) :
  tagless (clean_content c) = true
  /\ occurs html_tag (clean_content c) = false
  /\ tagless (reference_text r) = true
  /\ occurs html_tag (reference_text r) = false.
Proof.
  assert (H1 : tagless (clean_content c) = true).
  { unfold clean_content. apply (thinned_tagless (thinned_tidy _)).
    unfold strip_markup.
    do 6 (apply (thinned_tagless (thinned_remove_all _ _))).
    apply remove_tags_tagless. }
  assert (H2 : tagless (reference_text r) = true).
  { unfold reference_text.
    set (t := trim (remove_all html_tag (Conversation.ref_content r))).
    assert (Ht : tagless t = true)
      by apply (thinned_tagless (thinned_trim _)), remove_tags_tagless.
    apply (@thinned_tagless t); [|exact Ht].
    rewrite <- (firstn_skipn 200 t) at 1. apply thinned_prefix. }
  auto using tagless_occurs.
Qed.

(** *** Think blocks *)

Lemma no_lt_spec s : no_lt s = true -> Forall (fun c => N.eqb 60 c = false) s.
Proof.
  unfold no_lt. induction s as [|c s IH]; cbn [forallb]; [constructor|].
  intros [Hc Hs]%andb_true_iff. constructor; [|now apply IH].
  apply negb_true_iff in Hc. unfold LT in Hc. now rewrite N.eqb_sym.
Qed.

(** The lazy star of the block pattern stops at the first closing tag. *)
Lemma lazy_to_close body post :
  no_lt body = true ->
  lazy any (match_here (lit "</think>")) (body ++ str "</think>" ++ post)
  = Some (length body + 8).
Proof.
  intros H. apply no_lt_spec in H.
  induction H as [|x body Hx _ IH].
  - reflexivity.
  - cbn [app lazy length Nat.add].
    change (lit "</think>") with (One (N.eqb 60) :: lit "/think>") at 1.
    rewrite match_One, Hx. unfold any at 1. now rewrite IH.
Qed.

Lemma think_block_match body post :
  no_lt body = true ->
  match_here think_block (think body ++ post) = Some (length (think body)).
Proof.
  intros H. unfold think. rewrite <- !app_assoc.
  change (match_here think_block (str "<think>" ++ body ++ str "</think>" ++ post))
    with (Nat.iter 7 (option_map S)
            (lazy any (match_here (lit "</think>"))
               (body ++ str "</think>" ++ post))).
  rewrite lazy_to_close by exact H. cbn [Nat.iter nat_rect option_map].
  rewrite !length_app. cbn [length str list_ascii_of_string map].
  reflexivity.
Qed.

(** X27. What the model wrote as a think block is dropped: a block whose
    body holds no [<], after a text that holds none, leaves no trace in
    the cleaned content, which is that of the text around it. *)
Theorem think_block_dropped pre body post :
  no_lt pre = true ->
  no_lt body = true ->
  clean_content (pre ++ think body ++ post) = clean_content (pre ++ post).
Proof.
  intros Hpre Hbody. unfold clean_content, strip_markup. do 8 f_equal.
  apply no_lt_spec in Hpre. unfold remove_all.
  change think_block with (One (N.eqb 60) :: lit "think>" ++ [LazyStar any] ++ lit "</think>").
  rewrite (@replace_all_copy_first _ _ _ pre (think body ++ post) Hpre).
  rewrite (@replace_all_copy_first _ _ _ pre post Hpre). f_equal.
  change (One (N.eqb 60) :: lit "think>" ++ [LazyStar any] ++ lit "</think>")
    with think_block.
  rewrite replace_all_match; [reflexivity|discriminate|].
  now apply think_block_match.
Qed.

End TagsFacts.

Module RequestsFacts.
Import JS Api Lists Requests ListsFacts.

Lemma unique_name_not_nil name now : unique_name name now <> [].
Proof. unfold unique_name. destruct name; discriminate. Qed.

Lemma or_empty_array_truthy v : truthy (Some (or_empty_array v)) = true.
Proof.
  unfold or_empty_array. destruct v as [j|]; [|reflexivity].
  destruct (truthy (Some j)) eqn:E; [exact E|reflexivity].
Qed.

(** X28. What the creating calls return is identified and named: whenever
    [createChatAssistant] or [createChatSession] returns, the required
    argument was not empty, the identifier returned is a truthy value of
    the answer, and the name is truthy (that of the answer, or the given
    name with the time appended); a session also has truthy messages. *)
Theorem created_is_identified name required now fetched :
  match createChatAssistant name required now fetched with
  | Ok (i, n) =>
      nonempty required = true
      /\ truthy (Some i) = true /\ truthy (Some n) = true
  | Throw _ => True
  end
  /\ match createChatSession required name now fetched with
     | Ok (i, n, ms) =>
         nonempty required = true
         /\ truthy (Some i) = true /\ truthy (Some n) = true
         /\ truthy (Some ms) = true
     | Throw _ => True
     end.
Proof.
  unfold createChatAssistant, createChatSession.
  destruct (nonempty required); cbn [negb]; [|easy].
  destruct (checked_data fetched) as [data|e]; cbn [bind]; [|easy].
  destruct (get data (str "id")) as [[i|]|e]; cbn [bind]; try easy.
  destruct (truthy (Some i)) eqn:Hi; [|easy].
  destruct (get data (str "name")) as [n|e]; cbn [bind]; [|easy].
  pose proof (or_default_truthy n (@unique_name_not_nil name now)) as Hn.
  split; [easy|].
  destruct (get data (str "messages")) as [ms|e]; cbn [bind]; [|easy].
  pose proof (or_empty_array_truthy ms). easy.
Qed.

(** X29. An answer in the error format is reported as such whatever else it
    holds: with a truthy [code] and a truthy [message] that print, both
    creating calls throw the error built from the two, even when [data]
    is complete. *)
Theorem api_error_reported name required now ps code msg c m :
  nonempty required = true ->
  lookup (str "code") ps = Some code ->
  lookup (str "message") ps = Some msg ->
  truthy (Some code) = true ->
  truthy (Some msg) = true ->
  ToString code = Ok c ->
  ToString msg = Ok m ->
  let e := Error (str "RAGFlow API error: " ++ m ++ str " (code: " ++ c ++ str ")") in
  createChatAssistant name required now (Ok (JObj ps)) = Throw e
  /\ createChatSession required name now (Ok (JObj ps)) = Throw e.
Proof.
  intros Hr Hc Hm Tc Tm Sc Sm e.
  unfold createChatAssistant, createChatSession, checked_data.
  rewrite Hr. cbn [negb bind truthy get]. rewrite Hc, Tc. cbn [bind get].
  rewrite Hm, Tm. cbn [andb ToString_value bind]. rewrite Sm, Sc.
  split; reflexivity.
Qed.

Lemma message_of_entry item :
  is_null item = false -> message_of item = Ok (history_entry item).
Proof. destruct item; try discriminate; reflexivity. Qed.

Lemma map_res_history items :
  map_res message_of items
  = if existsb is_null items
    then Throw (TypeError (str "Cannot read properties of null or undefined"))
    else Ok (map history_entry items).
Proof.
  induction items as [|x items IH]; [reflexivity|].
  cbn [map_res existsb map]. destruct (is_null x) eqn:E.
  - now destruct x.
  - rewrite message_of_entry by exact E. cbn [bind orb]. rewrite IH.
    now destruct (existsb is_null items).
Qed.

(** X30. [getConversationHistory] never throws and is all or nothing: with
    both identifiers given and an answer whose [data] is an array without
    [null], it returns one message per element, in order, with role,
    content and references defaulted; in every other case, the missing
    identifier included, it returns the empty list. *)
Theorem history_all_or_nothing chatAssistantId sessionId fetched :
  getConversationHistory chatAssistantId sessionId fetched
  = if nonempty chatAssistantId && nonempty sessionId then
      match data_items fetched with
      | Some items =>
          if existsb is_null items then [] else map history_entry items
      | None => []
      end
    else [].
Proof.
  unfold getConversationHistory, data_items.
  destruct (nonempty chatAssistantId); cbn [negb andb]; [|reflexivity].
  destruct (nonempty sessionId); cbn [negb]; [|reflexivity].
  destruct fetched as [response|e]; [|reflexivity].
  destruct response as [|[|]|r|[|c s]|l|ps]; try reflexivity.
  - cbn [truthy]. now destruct (negb (eqb r (str "0"))).
  - cbn [truthy negb get].
    destruct (lookup (str "data") ps) as [[|[|]|r|s|items|o]|]; try reflexivity.
    rewrite map_res_history. now destruct (existsb is_null items).
Qed.

End RequestsFacts.

Module MoreExamples.
Import JS Api MiniEngine Conversation Frame Lists Controller Plugin Samples.
Import StreamFacts ListsFacts ControllerFacts PluginFacts TagsFacts RequestsFacts.

Lemma trailing_space_ignored_witness :
  all_padded (lines_of crlf_reads) (lines_of lf_reads) = true
  /\ run (Streaming crlf_reads Closed) = run (Streaming lf_reads Closed).
Proof.
  assert (H : all_padded (lines_of crlf_reads) (lines_of lf_reads) = true)
    by (vm_compute; reflexivity).
  split; [exact H|].
  exact (@trailing_space_ignored JSON_parse string_gt_zero _ _ Closed H).
Defined.

Lemma frame_delivers_delta_content_witness :
  startsWith (str "data:") scalar_line = true
  /\ eqb (payload scalar_line) (str "[DONE]") = false
  /\ JSON_parse (payload scalar_line) = Ok (JNum (str "42"))
  /\ choices_is_object (JNum (str "42")) = false
  /\ delivered JSON_parse string_gt_zero scalar_line
     = frame_delivery (JNum (str "42")).
Proof.
  assert (H1 : startsWith (str "data:") scalar_line = true) by reflexivity.
  assert (H2 : eqb (payload scalar_line) (str "[DONE]") = false)
    by (vm_compute; reflexivity).
  assert (H3 : JSON_parse (payload scalar_line) = Ok (JNum (str "42")))
    by (vm_compute; reflexivity).
  assert (H4 : choices_is_object (JNum (str "42")) = false) by reflexivity.
  split; [exact H1|]. split; [exact H2|]. split; [exact H3|]. split; [exact H4|].
  exact (@frame_delivers_delta_content JSON_parse string_gt_zero _ _ H1 H2 H3 H4).
Defined.

Lemma reply_holds_full_content_witness :
  Api.nonempty (trim question) = true
  /\ chatAssistant window = Some librarian
  /\ Api.nonempty (assistant_id librarian) = true
  /\ chatSession window = Some unnamed_session
  /\ isTestMode window = false
  /\ fresh clock (messages window) = true
  /\ messages (send question clock (Ok (Streaming hello_reads Closed)) today window)
     = [greeting; asked; answered (str "Hello")].
Proof.
  assert (H1 : Api.nonempty (trim question) = true) by reflexivity.
  assert (H2 : chatAssistant window = Some librarian) by reflexivity.
  assert (H3 : Api.nonempty (assistant_id librarian) = true) by reflexivity.
  assert (H4 : chatSession window = Some unnamed_session) by reflexivity.
  assert (H5 : isTestMode window = false) by reflexivity.
  assert (H6 : fresh clock (messages window) = true) by reflexivity.
  split; [exact H1|]. split; [exact H2|]. split; [exact H3|].
  split; [exact H4|]. split; [exact H5|]. split; [exact H6|].
  destruct (@reply_holds_full_content JSON_parse string_gt_zero
              question clock hello_reads today window librarian unnamed_session
              H1 H2 H3 H4 H5 H6) as [_ H].
  unfold send. rewrite H. vm_compute. reflexivity.
Defined.

Lemma document_answer_not_shown_witness :
  Api.nonempty (trim question) = true
  /\ chatAssistant window = Some librarian
  /\ chatSession window = Some unnamed_session
  /\ isTestMode window = false
  /\ fresh clock (messages window) = true
  /\ exchange JSON_parse string_gt_zero (assistant_id librarian) (trim question)
       (Ok (Document (completion_of (JStr (str "Hi there")))))
     = ([Call (Some (JStr (str "Hi there"))) true],
        Ok {| fullContent := Some (JStr (str "Hi there"));
              sessionId := []; Api.reference := [] |})
  /\ messages (send question clock
                 (Ok (Document (completion_of (JStr (str "Hi there")))))
                 today window)
     = [greeting; asked; answered []].
Proof.
  assert (H1 : Api.nonempty (trim question) = true) by reflexivity.
  assert (H2 : chatAssistant window = Some librarian) by reflexivity.
  assert (H4 : chatSession window = Some unnamed_session) by reflexivity.
  assert (H5 : isTestMode window = false) by reflexivity.
  assert (H6 : fresh clock (messages window) = true) by reflexivity.
  assert (H7 : exchange JSON_parse string_gt_zero (assistant_id librarian)
                 (trim question)
                 (Ok (Document (completion_of (JStr (str "Hi there")))))
               = ([Call (Some (JStr (str "Hi there"))) true],
                  Ok {| fullContent := Some (JStr (str "Hi there"));
                        sessionId := []; Api.reference := [] |}))
    by (vm_compute; reflexivity).
  split; [exact H1|]. split; [exact H2|]. split; [exact H4|].
  split; [exact H5|]. split; [exact H6|]. split; [exact H7|].
  unfold send.
  rewrite (@document_answer_not_shown JSON_parse string_gt_zero
             question clock _ today window librarian unnamed_session _ _
             H1 H2 H4 H5 H6 H7).
  vm_compute. reflexivity.
Defined.

Lemma failed_send_keeps_placeholder_witness :
  Api.nonempty (trim question) = true
  /\ chatAssistant window = Some librarian
  /\ chatSession window = Some unnamed_session
  /\ isTestMode window = false
  /\ fresh clock (messages window) = true
  /\ exchange JSON_parse string_gt_zero (assistant_id librarian) (trim question)
       (Throw (Error (str "Failed to fetch")))
     = ([], Throw (Error (str "Failed to fetch")))
  /\ map isTemporary
       (messages (send question clock (Throw (Error (str "Failed to fetch")))
                    today window))
     = [false; false; true; false; false]
  /\ isTestMode (send question clock (Throw (Error (str "Failed to fetch")))
                   today window) = true.
Proof.
  assert (H1 : Api.nonempty (trim question) = true) by reflexivity.
  assert (H2 : chatAssistant window = Some librarian) by reflexivity.
  assert (H4 : chatSession window = Some unnamed_session) by reflexivity.
  assert (H5 : isTestMode window = false) by reflexivity.
  assert (H6 : fresh clock (messages window) = true) by reflexivity.
  assert (H7 : exchange JSON_parse string_gt_zero (assistant_id librarian)
                 (trim question) (Throw (Error (str "Failed to fetch")))
               = ([], Throw (Error (str "Failed to fetch"))))
    by reflexivity.
  split; [exact H1|]. split; [exact H2|]. split; [exact H4|].
  split; [exact H5|]. split; [exact H6|]. split; [exact H7|].
  unfold send.
  rewrite (@failed_send_keeps_placeholder JSON_parse string_gt_zero
             question clock _ today window librarian unnamed_session _ _
             H1 H2 H4 H5 H6 H7).
  split; reflexivity.
Defined.

Lemma test_mode_uses_no_response_witness :
  isTestMode test_window = true
  /\ send question clock (Ok (Streaming hello_reads Closed)) today test_window
     = send question clock (Throw (Error (str "Failed to fetch"))) [] test_window
  /\ isTestMode (send question clock (Ok (Streaming hello_reads Closed))
                   today test_window) = true.
Proof.
  assert (H : isTestMode test_window = true) by reflexivity.
  split; [exact H|].
  exact (@test_mode_uses_no_response JSON_parse string_gt_zero question clock
           (Ok (Streaming hello_reads Closed))
           (Throw (Error (str "Failed to fetch"))) today [] test_window H).
Defined.

Lemma added_message_removed_witness :
  id waiting_message = []
  /\ unused (generated_id (str "2_b")) (messages window) = true
  /\ removeMessage (fst (addMessage waiting_message (str "2_b") window))
       (snd (addMessage waiting_message (str "2_b") window))
     = window.
Proof.
  assert (H1 : id waiting_message = []) by reflexivity.
  assert (H2 : unused (generated_id (str "2_b")) (messages window) = true)
    by reflexivity.
  split; [exact H1|]. split; [exact H2|].
  exact (@added_message_removed waiting_message (str "2_b") window H1 H2).
Defined.

Lemma removeMessage_first_witness :
  generated_id (str "2_b") <> []
  /\ messages (snd (addMessage waiting_message (str "2_b") window))
     = [greeting] ++ waiting (str "2_b") :: []
  /\ id (waiting (str "2_b")) = generated_id (str "2_b")
  /\ ~ In (generated_id (str "2_b")) (map id [greeting])
  /\ removeMessage [] (snd (addMessage waiting_message (str "2_b") window))
     = snd (addMessage waiting_message (str "2_b") window)
  /\ removeMessage (generated_id (str "2_b"))
       (snd (addMessage waiting_message (str "2_b") window))
     = window.
Proof.
  assert (H1 : generated_id (str "2_b") <> []) by discriminate.
  assert (H2 : messages (snd (addMessage waiting_message (str "2_b") window))
               = [greeting] ++ waiting (str "2_b") :: []) by reflexivity.
  assert (H3 : id (waiting (str "2_b")) = generated_id (str "2_b")) by reflexivity.
  assert (H4 : ~ In (generated_id (str "2_b")) (map id [greeting])).
  { simpl. intros [H|[]]. discriminate. }
  destruct (removeMessage_first (generated_id (str "2_b"))
              (snd (addMessage waiting_message (str "2_b") window)))
    as (_ & _ & K).
  destruct (removeMessage_first []
              (snd (addMessage waiting_message (str "2_b") window)))
    as (K0 & _ & _).
  split; [exact H1|]. split; [exact H2|]. split; [exact H3|]. split; [exact H4|].
  split; [exact (K0 eq_refl)|].
  rewrite (K _ _ _ H1 H2 H3 H4). reflexivity.
Defined.

Lemma test_mode_answers_witness :
  Api.nonempty (trim question) = true
  /\ map content
       (messages (send question clock (Throw (Error (str "Failed to fetch"))) today
                    (enterTestMode (str "Initializing...") (str "8_h") (str "9_i")
                       initial)))
     = map content
         (messages (enterTestMode (str "Initializing...") (str "8_h") (str "9_i")
                      initial))
         ++ [str "What is new?"; content mock_response].
Proof.
  assert (H : Api.nonempty (trim question) = true) by reflexivity.
  split; [exact H|]. unfold send.
  rewrite (@test_mode_answers JSON_parse string_gt_zero (str "Initializing...")
             (str "8_h") (str "9_i") question clock
             (Throw (Error (str "Failed to fetch"))) today initial H).
  vm_compute. reflexivity.
Defined.

Lemma blank_input_ignored_witness :
  forallb is_space (str "   ") = true
  /\ send (str "   ") clock (Ok (Streaming hello_reads Closed)) today window
     = window.
Proof.
  assert (H : forallb is_space (str "   ") = true) by reflexivity.
  split; [exact H|].
  exact (@blank_input_ignored JSON_parse string_gt_zero (str "   ") clock
           (Ok (Streaming hello_reads Closed)) today window H).
Defined.

Lemma title_is_safe_witness :
  title_of conversation today = str "What is new_"
  /\ length (title_of conversation today) <= 50
  /\ forallb (fun c => negb (forbidden c)) (title_of conversation today) = true.
Proof.
  pose proof (title_is_safe conversation today) as H.
  change (find (fun m => is_user (role m)) conversation) with (Some asked) in H.
  destruct H as (H1 & H2 & H3 & _).
  split; [rewrite H1; reflexivity|]. split; [exact H2|exact H3].
Defined.

Lemma note_in_save_folder_witness :
  find (fun m => is_user (role m)) conversation = Some asked
  /\ split SLASH (file_path (str "RAGFlow/Chats") (title_of conversation today))
     = [str "RAGFlow"; str "Chats"; str "What is new_.md"].
Proof.
  assert (H : find (fun m => is_user (role m)) conversation = Some asked)
    by reflexivity.
  split; [exact H|].
  rewrite (@note_in_save_folder (str "RAGFlow/Chats") conversation today asked H).
  vm_compute. reflexivity.
Defined.

Lemma existing_folders_untouched_witness :
  forallb (fun p => is_folder (Memory.getAbstractFileByPath vault p))
    (paths (str "/Chats/")) = true
  /\ Memory.ensure vault (str "/Chats/") = (vault, Ok tt).
Proof.
  assert (H : forallb (fun p => is_folder (Memory.getAbstractFileByPath vault p))
                (paths (str "/Chats/")) = true) by reflexivity.
  split; [exact H|].
  exact (@existing_folders_untouched _ Memory.getAbstractFileByPath
           Memory.createFolder vault (str "/Chats/") H).
Defined.

Lemma file_in_the_way_witness :
  paths (str "Chats/note.md/deep") = [str "Chats"] ++ str "Chats/note.md" :: [str "Chats/note.md/deep"]
  /\ forallb (fun q => is_folder (Memory.getAbstractFileByPath vault q))
       [str "Chats"] = true
  /\ Memory.getAbstractFileByPath vault (str "Chats/note.md") = Some TFile
  /\ Memory.ensure vault (str "Chats/note.md/deep")
     = (vault, Throw (Error (str "Chats/note.md exists but is not a folder"))).
Proof.
  assert (H1 : paths (str "Chats/note.md/deep")
               = [str "Chats"] ++ str "Chats/note.md" :: [str "Chats/note.md/deep"])
    by reflexivity.
  assert (H2 : forallb (fun q => is_folder (Memory.getAbstractFileByPath vault q))
                 [str "Chats"] = true) by reflexivity.
  assert (H3 : Memory.getAbstractFileByPath vault (str "Chats/note.md") = Some TFile)
    by reflexivity.
  split; [exact H1|]. split; [exact H2|]. split; [exact H3|].
  exact (@file_in_the_way _ Memory.getAbstractFileByPath Memory.createFolder
           vault (str "Chats/note.md/deep") _ _ _ H1 H2 H3).
Defined.

Lemma folders_exist_afterwards_witness :
  forallb (fun p => negb (is_file (Memory.getAbstractFileByPath vault p)))
    (paths (str "Chats/2026/11")) = true
  /\ snd (Memory.ensure vault (str "Chats/2026/11")) = Ok tt
  /\ Forall (fun p => Memory.getAbstractFileByPath
                        (fst (Memory.ensure vault (str "Chats/2026/11"))) p
                      = Some TFolder)
       (paths (str "Chats/2026/11")).
Proof.
  assert (H : forallb (fun p => negb (is_file (Memory.getAbstractFileByPath vault p)))
                (paths (str "Chats/2026/11")) = true) by reflexivity.
  split; [exact H|].
  destruct (@folders_exist_afterwards _ Memory.getAbstractFileByPath
              Memory.createFolder vault (str "Chats/2026/11")
              memory_creates_folders H) as (H1 & H2 & _).
  split; [exact H1|exact H2].
Defined.

Lemma ensureFolderExists_idempotent_witness :
  forallb (fun p => negb (is_file (Memory.getAbstractFileByPath vault p)))
    (paths (str "Chats/2026/11")) = true
  /\ Memory.ensure (fst (Memory.ensure vault (str "Chats/2026/11")))
       (str "Chats/2026/11")
     = (fst (Memory.ensure vault (str "Chats/2026/11")), Ok tt).
Proof.
  assert (H : forallb (fun p => negb (is_file (Memory.getAbstractFileByPath vault p)))
                (paths (str "Chats/2026/11")) = true) by reflexivity.
  split; [exact H|].
  exact (@ensureFolderExists_idempotent _ Memory.getAbstractFileByPath
           Memory.createFolder vault (str "Chats/2026/11")
           memory_creates_folders H).
Defined.

Lemma nothing_saved_when_blocked_witness :
  conversation <> []
  /\ paths (str "Chats/note.md") = [str "Chats"] ++ str "Chats/note.md" :: []
  /\ forallb (fun q => is_folder (Memory.getAbstractFileByPath vault q))
       [str "Chats"] = true
  /\ Memory.getAbstractFileByPath vault (str "Chats/note.md") = Some TFile
  /\ Memory.save Markdown.demo_settings (str "Chats/note.md") today today
       conversation vault
     = (vault, Throw (Error (str "Chats/note.md exists but is not a folder"))).
Proof.
  assert (H0 : conversation <> []) by discriminate.
  assert (H1 : paths (str "Chats/note.md") = [str "Chats"] ++ str "Chats/note.md" :: [])
    by reflexivity.
  assert (H2 : forallb (fun q => is_folder (Memory.getAbstractFileByPath vault q))
                 [str "Chats"] = true) by reflexivity.
  assert (H3 : Memory.getAbstractFileByPath vault (str "Chats/note.md") = Some TFile)
    by reflexivity.
  split; [exact H0|]. split; [exact H1|]. split; [exact H2|]. split; [exact H3|].
  exact (@nothing_saved_when_blocked _ Memory.getAbstractFileByPath
           Memory.createFolder Memory.read Memory.modify Memory.create
           Markdown.demo_settings (str "Chats/note.md") today today
           conversation vault _ _ _ H0 H1 H2 H3).
Defined.

Lemma think_block_dropped_witness :
  Tags.no_lt (str "Sure. ") = true
  /\ Tags.no_lt (str "step 1, step 2") = true
  /\ Markdown.clean_content
       (str "Sure. " ++ Tags.think (str "step 1, step 2") ++ str "Done <b>now</b> .")
     = str "Sure. Done now.".
Proof.
  assert (H1 : Tags.no_lt (str "Sure. ") = true) by reflexivity.
  assert (H2 : Tags.no_lt (str "step 1, step 2") = true) by reflexivity.
  split; [exact H1|]. split; [exact H2|].
  rewrite (@think_block_dropped _ _ (str "Done <b>now</b> .") H1 H2).
  vm_compute. reflexivity.
Defined.

Lemma api_error_reported_witness :
  Api.nonempty (str "a1") = true
  /\ lookup (str "code") refused = Some (JNum (str "102"))
  /\ lookup (str "message") refused = Some (JStr (str "Authentication error"))
  /\ truthy (Some (JNum (str "102"))) = true
  /\ truthy (Some (JStr (str "Authentication error"))) = true
  /\ ToString (JNum (str "102")) = Ok (str "102")
  /\ ToString (JStr (str "Authentication error")) = Ok (str "Authentication error")
  /\ Requests.createChatAssistant (str "Notes") (str "a1") (str "1762074000000")
       (Ok (JObj refused))
     = Throw (Error (str "RAGFlow API error: Authentication error (code: 102)"))
  /\ Requests.createChatSession (str "a1") (str "Notes") (str "1762074000000")
       (Ok (JObj refused))
     = Throw (Error (str "RAGFlow API error: Authentication error (code: 102)")).
Proof.
  assert (H1 : Api.nonempty (str "a1") = true) by reflexivity.
  assert (H2 : lookup (str "code") refused = Some (JNum (str "102")))
    by reflexivity.
  assert (H3 : lookup (str "message") refused
               = Some (JStr (str "Authentication error"))) by reflexivity.
  assert (H4 : truthy (Some (JNum (str "102"))) = true) by reflexivity.
  assert (H5 : truthy (Some (JStr (str "Authentication error"))) = true)
    by reflexivity.
  assert (H6 : ToString (JNum (str "102")) = Ok (str "102")) by reflexivity.
  assert (H7 : ToString (JStr (str "Authentication error"))
               = Ok (str "Authentication error")) by reflexivity.
  split; [exact H1|]. split; [exact H2|]. split; [exact H3|].
  split; [exact H4|]. split; [exact H5|]. split; [exact H6|]. split; [exact H7|].
  exact (@api_error_reported (str "Notes") (str "a1") (str "1762074000000")
           refused _ _ _ _ H1 H2 H3 H4 H5 H6 H7).
Defined.

(** The plugin on the vault in memory: a first save creates the note, a
    second one appends to it. *)
Example saved_twice :
  let v1 := fst (Memory.save Markdown.demo_settings (str "Chats") today today
                   conversation vault) in
  let v2 := fst (Memory.save Markdown.demo_settings (str "Chats") today today
                   conversation v1) in
  let markdown :=
    Markdown.formatConversationAsMarkdown Markdown.demo_settings today conversation in
  Memory.read v1 (str "Chats/What is new_.md") = Ok markdown
  /\ Memory.read v2 (str "Chats/What is new_.md")
     = Ok (markdown ++ [LF; LF] ++ markdown).
Proof. vm_compute. split; reflexivity. Qed.

End MoreExamples.
